(** * GPIO safeguard: a shallow embedding of [scripts/monitoring/gpio_safeguard.py]

    The safeguard polls four GPIO lines through the [raspi-gpio] command line
    tool, tracks for each line the moment it was seen to go low, and drives a
    line high again when it has been low for longer than its rule allows.

    The program is embedded as functions in a small monad that threads the
    fields of the [GPIOSafeguard] object and the position in the scripts of
    the outside world (what each [raspi-gpio] call and each clock reading
    gives), propagates Python exceptions, and collects the subprocess calls,
    sleeps and log records the program performs. *)

From Stdlib Require Import ZArith List String Lia.
From stdpp Require Import base option gmap list.
Import ListNotations.

Local Open Scope Z_scope.

(** ** The outside world *)

(** The argument [dh] (drive high) or [dl] (drive low) of
    [raspi-gpio set <pin> op <dh|dl>]. *)
Inductive Drive := DriveHigh | DriveLow.

(** What a [subprocess.check_output] call gives: the text the command
    printed, or [subprocess.CalledProcessError] (non-zero exit status). *)
Inductive ProcResult :=
| Completed (output : string)
| CalledProcessError.

(** One run of the program is played against a script of the outside world:
    what the [k]-th [raspi-gpio get] of a pin prints, whether the [k]-th
    [raspi-gpio set] of a pin exits with status 0, and what the [k]-th call
    of [datetime.now()] returns.  Wall-clock instants are integers, in
    microseconds (the resolution of [datetime]); nothing makes the clock
    monotone.  The program is deterministic given the script, so quantifying
    over scripts covers every run. *)
Record Env := {
  raspi_gpio_get : Z -> nat -> ProcResult;
  raspi_gpio_set : Z -> Drive -> nat -> bool;
  wall_clock : nat -> Z;
}.

(** How far each script has been consumed. *)
Record World := {
  gets : Z -> nat;
  sets : Z -> nat;
  nows : nat;
}.

Definition bump (f : Z -> nat) (pin : Z) : Z -> nat :=
  fun q => if Z.eqb q pin then S (f q) else f q.

Definition world0 : World := {| gets := fun _ => O; sets := fun _ => O; nows := O |}.

(** ** Exceptions and log records *)

(** The exceptions that leave a function of the program
    ([subprocess.CalledProcessError] is handled where it is raised). *)
Inductive exn :=
| KeyError (key : Z)
| SystemExit (code : Z).

Inductive Level := INFO | WARNING | ERROR.

(** A status part of [get_status_summary]: the pin, its entry of
    [gpio_states] ([None] prints as UNKNOWN) and, for a pin timed at 0, the
    elapsed time and the allowed maximum. *)
Definition StatusPart : Type := Z * option (option Z) * option (Z * Z).

(** The messages of the program, one constructor per format string, with the
    values the string interpolates. *)
Inductive LogMsg :=
(* read_gpio *)
| FailedToRead (pin : Z)
(* set_gpio *)
| DryRunWouldSet (pin value : Z)
| CorrectedVerified (pin value : Z)
| CorrectedVerifiedOnAttempt (pin value attempt_no : Z)
| SetButCouldNotVerify (pin value attempt_no : Z)
| SetButReadBack (pin value actual attempt_no : Z)
| SetButReadBackAfter (pin value actual max_retries : Z)
| FailedToSet (pin value attempt_no : Z)
| FailedToSetAfter (pin value max_retries : Z)
(* initialize_gpios *)
| InitializingGpios
| CannotReadDuringInit (pin : Z)
| NotInSafeState (pin current : Z)
| InitializedToSafe (pin : Z)
| FailedToInitialize (pin : Z)
| AlreadyInSafeState (pin : Z)
(* check_safety_violations *)
| StateChange (pin : Z) (previous : option Z) (current : Z)
| TimerStarted (pin max_allowed : Z)
| ReturnedToSafe (pin duration : Z)
| SafetyViolation (pin elapsed max_allowed : Z)
| ForcedToSafe (pin : Z)
| CriticalFailedToCorrect (pin : Z)
(* run_safeguard *)
| Starting (dry : bool)
| MonitoringPins
| SafetyRulesBanner
| Separator
| CurrentState (pin : Z) (state : option Z)
| Status (parts : list StatusPart) (violations corrections : Z)
| StoppedByUser
| FinalStatistics
| TotalViolations (n : Z)
| TotalCorrections (n : Z)
| StoppedBanner
(* main *)
| CannotAccess (pin : Z)
| AccessFailed
| SafeguardFailed (e : exn).

(** What the program does to the outside world, in order. *)
Inductive Event :=
| EvGet (pin : Z) (r : ProcResult)
| EvSet (pin : Z) (d : Drive) (ok : bool)
| EvSleep (microseconds : Z)
| EvLog (lvl : Level) (msg : LogMsg).

(** ** The object *)

(** The fields of [GPIOSafeguard] ([logger] is the [EvLog] events).  Both
    dictionaries hold [None] values: [gpio_states[pin]] is the result of a
    read in dry-run mode, [gpio_timers[pin]] is [None] or an instant. *)
Record GPIOSafeguard := {
  dry_run : bool;
  gpio_states : gmap Z (option Z);
  gpio_timers : gmap Z (option Z);
  violations_count : Z;
  corrections_made : Z;
}.

(** [GPIOSafeguard.__init__]. *)
Definition new_GPIOSafeguard (dry : bool) : GPIOSafeguard :=
  {| dry_run := dry; gpio_states := ∅; gpio_timers := ∅;
     violations_count := 0; corrections_made := 0 |}.

Definition set_state (pin : Z) (v : option Z) (s : GPIOSafeguard) : GPIOSafeguard :=
  {| dry_run := dry_run s; gpio_states := <[pin := v]> (gpio_states s);
     gpio_timers := gpio_timers s;
     violations_count := violations_count s; corrections_made := corrections_made s |}.

Definition set_timer (pin : Z) (v : option Z) (s : GPIOSafeguard) : GPIOSafeguard :=
  {| dry_run := dry_run s; gpio_states := gpio_states s;
     gpio_timers := <[pin := v]> (gpio_timers s);
     violations_count := violations_count s; corrections_made := corrections_made s |}.

Definition incr_violations (s : GPIOSafeguard) : GPIOSafeguard :=
  {| dry_run := dry_run s; gpio_states := gpio_states s; gpio_timers := gpio_timers s;
     violations_count := violations_count s + 1; corrections_made := corrections_made s |}.

Definition incr_corrections (s : GPIOSafeguard) : GPIOSafeguard :=
  {| dry_run := dry_run s; gpio_states := gpio_states s; gpio_timers := gpio_timers s;
     violations_count := violations_count s; corrections_made := corrections_made s + 1 |}.

(** ** The monad *)

Inductive Result (A : Type) :=
| Val (a : A)
| Exc (e : exn).
Arguments Val {A} a.
Arguments Exc {A} e.

Record State := { self : GPIOSafeguard; world : World }.

Definition M (A : Type) : Type := State -> Result A * State * list Event.

Definition ret {A} (a : A) : M A := fun σ => (Val a, σ, []).

Definition bind {A B} (m : M A) (f : A -> M B) : M B := fun σ =>
  match m σ with
  | (Val a, σ1, t1) => let '(r, σ2, t2) := f a σ1 in (r, σ2, t1 ++ t2)
  | (Exc e, σ1, t1) => (Exc e, σ1, t1)
  end.

Definition raise {A} (e : exn) : M A := fun σ => (Exc e, σ, []).

Declare Scope prog_scope.
Delimit Scope prog_scope with prog.
Notation "'let!' x ':=' m 'in' k" := (bind m (fun x => k))
  (at level 10, x name, m at level 100, k at level 200) : prog_scope.
Notation "m '>>' k" := (bind m (fun _ => k))
  (at level 100, k at level 200, right associativity) : prog_scope.
Local Open Scope prog_scope.

Definition get_self : M GPIOSafeguard := fun σ => (Val (self σ), σ, []).

Definition modify_self (f : GPIOSafeguard -> GPIOSafeguard) : M unit :=
  fun σ => (Val tt, {| self := f (self σ); world := world σ |}, []).

Definition emit (e : Event) : M unit := fun σ => (Val tt, σ, [e]).

(** [self.logger.<lvl>(msg)]; the logger level is INFO or DEBUG, so every
    record of the program is emitted. *)
Definition log (lvl : Level) (msg : LogMsg) : M unit := emit (EvLog lvl msg).

(** [time.sleep], in microseconds. *)
Definition time_sleep (microseconds : Z) : M unit := emit (EvSleep microseconds).

(** [x in output] on strings. *)
Fixpoint contains (needle hay : string) : bool :=
  String.prefix needle hay ||
  match hay with
  | EmptyString => false
  | String _ rest => contains needle rest
  end.

Definition option_Z_eqb (a b : option Z) : bool :=
  match a, b with
  | Some x, Some y => Z.eqb x y
  | None, None => true
  | _, _ => false
  end.

(** [MONITORED_PINS]. *)
Definition MONITORED_PINS : list Z := [2; 3; 4; 10].

(** [SAFETY_RULES], in microseconds.  The source holds seconds as floats
    (25.0, 20.0, 2.0, 4.0) and compares them with
    [timedelta.total_seconds()], the correctly rounded quotient of an integer
    count of microseconds by 10^6; every bound is a whole number of seconds,
    so [elapsed > max_allowed] is the comparison of the integers. *)
Definition SAFETY_RULES : gmap Z Z :=
  <[2 := 25000000]> (<[3 := 20000000]> (<[4 := 2000000]> (<[10 := 4000000]> ∅))).

Section Safeguard.

Variable env : Env.

(** [subprocess.check_output(["raspi-gpio", "get", str(pin)])]. *)
Definition check_output_get (pin : Z) : M ProcResult := fun σ =>
  let r := raspi_gpio_get env pin (gets (world σ) pin) in
  (Val r,
   {| self := self σ;
      world := {| gets := bump (gets (world σ)) pin; sets := sets (world σ);
                  nows := nows (world σ) |} |},
   [EvGet pin r]).

(** [subprocess.check_call(["raspi-gpio", "set", str(pin), "op", d])]:
    [false] stands for [subprocess.CalledProcessError]. *)
Definition check_call_set (pin : Z) (d : Drive) : M bool := fun σ =>
  let ok := raspi_gpio_set env pin d (sets (world σ) pin) in
  (Val ok,
   {| self := self σ;
      world := {| gets := gets (world σ); sets := bump (sets (world σ)) pin;
                  nows := nows (world σ) |} |},
   [EvSet pin d ok]).

(** [datetime.now()]. *)
Definition datetime_now : M Z := fun σ =>
  (Val (wall_clock env (nows (world σ))),
   {| self := self σ;
      world := {| gets := gets (world σ); sets := sets (world σ);
                  nows := S (nows (world σ)) |} |},
   []).

(** [GPIOSafeguard.read_gpio]: 0, 1 or None. *)
Definition read_gpio (pin : Z) : M (option Z) :=
  let! r := check_output_get pin in
  match r with
  | Completed output =>
      if contains "level=1" output then ret (Some 1)
      else if contains "level=0" output then ret (Some 0)
      else ret None
  | CalledProcessError =>
      log WARNING (FailedToRead pin) >> ret None
  end.

(** [range(n)]. *)
Definition range (n : Z) : list Z := map Z.of_nat (seq 0 (Z.to_nat n)).

(** The body of the retry loop of [set_gpio] for one value of [attempt]:
    [Some b] is [return b], [None] is [continue].  The [except] clause is the
    [false] branch of the call: [check_call] is the only statement of the
    [try] block that raises [CalledProcessError] ([read_gpio] handles its
    own). *)
Definition set_gpio_attempt (pin value max_retries attempt : Z) : M (option bool) :=
  let cmd := if value =? 1 then DriveHigh else DriveLow in
  let! ok := check_call_set pin cmd in
  if ok then
    time_sleep 10000 >>
    let! actual_value := read_gpio pin in
    match actual_value with
    | Some actual =>
        if actual =? value then
          (if attempt >? 0
           then log INFO (CorrectedVerifiedOnAttempt pin value (attempt + 1))
           else log INFO (CorrectedVerified pin value)) >>
          ret (Some true)
        else
          log WARNING (SetButReadBack pin value actual (attempt + 1)) >>
          if attempt <? max_retries - 1 then
            time_sleep 50000 >> ret None
          else
            log ERROR (SetButReadBackAfter pin value actual max_retries) >>
            ret (Some false)
    | None =>
        log WARNING (SetButCouldNotVerify pin value (attempt + 1)) >>
        if attempt <? max_retries - 1 then
          time_sleep 50000 >> ret None
        else ret (Some false)
    end
  else
    log WARNING (FailedToSet pin value (attempt + 1)) >>
    if attempt <? max_retries - 1 then
      time_sleep 50000 >> ret None
    else
      log ERROR (FailedToSetAfter pin value max_retries) >>
      ret (Some false).

(** [for attempt in <attempts>: <body>] followed by [return False]. *)
Fixpoint set_gpio_loop (pin value max_retries : Z) (attempts : list Z) : M bool :=
  match attempts with
  | [] => ret false
  | attempt :: rest =>
      let! r := set_gpio_attempt pin value max_retries attempt in
      match r with
      | Some b => ret b
      | None => set_gpio_loop pin value max_retries rest
      end
  end.

(** [GPIOSafeguard.set_gpio]. *)
Definition set_gpio_retries (pin value max_retries : Z) : M bool :=
  let! s := get_self in
  if dry_run s then
    log INFO (DryRunWouldSet pin value) >> ret true
  else set_gpio_loop pin value max_retries (range max_retries).

(** [set_gpio] with the default [max_retries=3], as every caller has it. *)
Definition set_gpio (pin value : Z) : M bool := set_gpio_retries pin value 3.

(** The body of the loop of [initialize_gpios]. *)
Definition initialize_pin (pin : Z) : M unit :=
  let! current_state := read_gpio pin in
  match current_state with
  | None => log ERROR (CannotReadDuringInit pin)
  | Some current =>
      (if negb (current =? 1) then
         log WARNING (NotInSafeState pin current) >>
         let! ok := set_gpio pin 1 in
         if ok then log INFO (InitializedToSafe pin)
         else log ERROR (FailedToInitialize pin)
       else log INFO (AlreadyInSafeState pin)) >>
      modify_self (set_state pin (Some 1)) >>
      modify_self (set_timer pin None)
  end.

(** [for pin in <pins>: <body>] for a body without result. *)
Fixpoint for_each (body : Z -> M unit) (pins : list Z) : M unit :=
  match pins with
  | [] => ret tt
  | pin :: rest => body pin >> for_each body rest
  end.

(** [GPIOSafeguard.initialize_gpios]. *)
Definition initialize_gpios : M unit :=
  log INFO InitializingGpios >>
  for_each initialize_pin MONITORED_PINS.

(** [self.gpio_timers[pin]]. *)
Definition gpio_timers_at (pin : Z) : M (option Z) :=
  let! s := get_self in
  match gpio_timers s !! pin with
  | Some v => ret v
  | None => raise (KeyError pin)
  end.

(** [SAFETY_RULES[pin]]. *)
Definition safety_rule (pin : Z) : M Z :=
  match SAFETY_RULES !! pin with
  | Some v => ret v
  | None => raise (KeyError pin)
  end.

(** [self.gpio_states.get(pin)]. *)
Definition gpio_states_get (s : GPIOSafeguard) (pin : Z) : option Z :=
  default None (gpio_states s !! pin).

(** The body of the loop of [check_safety_violations], first block (Track
    state changes): [current] is the level just read. *)
Definition track_state_change (current_time pin current : Z) : M unit :=
  let! s := get_self in
  let previous_state := gpio_states_get s pin in
  if negb (option_Z_eqb previous_state (Some current)) then
    log INFO (StateChange pin previous_state current) >>
    modify_self (set_state pin (Some current)) >>
    if current =? 0 then
      (* GPIO went to 0, start timer *)
      modify_self (set_timer pin (Some current_time)) >>
      let! max_allowed := safety_rule pin in
      log INFO (TimerStarted pin max_allowed)
    else if current =? 1 then
      (* GPIO returned to 1, clear timer *)
      let! timer := gpio_timers_at pin in
      (match timer with
       | Some since => log INFO (ReturnedToSafe pin (current_time - since))
       | None => ret tt
       end) >>
      modify_self (set_timer pin None)
    else ret tt
  else ret tt.

(** The body of the loop, second block (Check for safety violations); the
    result is the new value of the local [violations_detected]. *)
Definition check_violation (current_time pin current : Z) (violations_detected : bool)
    : M bool :=
  if current =? 0 then
    let! timer := gpio_timers_at pin in
    match timer with
    | Some since =>
        let elapsed := current_time - since in
        let! max_allowed := safety_rule pin in
        if elapsed >? max_allowed then
          modify_self incr_violations >>
          log WARNING (SafetyViolation pin elapsed max_allowed) >>
          (* Force GPIO back to safe state *)
          let! ok := set_gpio pin 1 in
          if ok then
            modify_self incr_corrections >>
            modify_self (set_state pin (Some 1)) >>
            modify_self (set_timer pin None) >>
            log WARNING (ForcedToSafe pin) >>
            ret true
          else
            log ERROR (CriticalFailedToCorrect pin) >>
            ret true
        else ret violations_detected
    | None => ret violations_detected
    end
  else ret violations_detected.

(** The body of the loop of [check_safety_violations]. *)
Definition check_pin (current_time : Z) (pin : Z) (violations_detected : bool) : M bool :=
  let! current_state := read_gpio pin in
  match current_state with
  | None => ret violations_detected
  | Some current =>
      track_state_change current_time pin current >>
      check_violation current_time pin current violations_detected
  end.

(** [for pin in <pins>: <body>] threading [violations_detected]. *)
Fixpoint check_pins (current_time : Z) (pins : list Z) (violations_detected : bool) : M bool :=
  match pins with
  | [] => ret violations_detected
  | pin :: rest =>
      let! v := check_pin current_time pin violations_detected in
      check_pins current_time rest v
  end.

(** [GPIOSafeguard.check_safety_violations]. *)
Definition check_safety_violations : M bool :=
  let! current_time := datetime_now in
  check_pins current_time MONITORED_PINS false.

(** The body of the loop of [get_status_summary]:
    [state = self.gpio_states.get(pin, "UNKNOWN")] is the entry itself, a
    missing one printing as UNKNOWN. *)
Definition status_part (pin : Z) : M StatusPart :=
  let! s := get_self in
  let state := gpio_states s !! pin in
  match state with
  | Some (Some 0) =>
      let! timer := gpio_timers_at pin in
      match timer with
      | Some since =>
          let! now := datetime_now in
          let! max_allowed := safety_rule pin in
          ret (pin, state, Some (now - since, max_allowed))
      | None => ret (pin, state, None)
      end
  | _ => ret (pin, state, None)
  end.

Fixpoint status_parts (pins : list Z) : M (list StatusPart) :=
  match pins with
  | [] => ret []
  | pin :: rest =>
      let! part := status_part pin in
      let! parts := status_parts rest in
      ret (part :: parts)
  end.

(** [GPIOSafeguard.get_status_summary]. *)
Definition get_status_summary : M (list StatusPart) := status_parts MONITORED_PINS.

(** The body of the dry-run loop of [run_safeguard]. *)
Definition seed_pin (pin : Z) : M unit :=
  let! state := read_gpio pin in
  modify_self (set_state pin state) >>
  modify_self (set_timer pin None) >>
  log INFO (CurrentState pin state).

(** [run_safeguard] from its banner to the reading of [last_status_time]:
    the result is [last_status_time]. *)
Definition startup : M Z :=
  let! s := get_self in
  log INFO (Starting (dry_run s)) >>
  log INFO MonitoringPins >>
  log INFO SafetyRulesBanner >>
  log INFO Separator >>
  (if negb (dry_run s) then initialize_gpios
   else for_each seed_pin MONITORED_PINS) >>
  datetime_now.

(** One iteration of [while True]; [status_interval] is in seconds, and the
    result is the new [last_status_time]. *)
Definition loop_body (status_interval last_status_time : Z) : M Z :=
  let! violations := check_safety_violations in
  let! current_time := datetime_now in
  let! last :=
    (if current_time - last_status_time >=? status_interval * 1000000 then
       let! status := get_status_summary in
       let! s := get_self in
       log INFO (Status status (violations_count s) (corrections_made s)) >>
       ret current_time
     else ret last_status_time) in
  time_sleep 100000 >>
  ret last.

(** [iterations] rounds of the loop. *)
Fixpoint loop (iterations : nat) (status_interval last_status_time : Z) : M Z :=
  match iterations with
  | O => ret last_status_time
  | S n =>
      let! last := loop_body status_interval last_status_time in
      loop n status_interval last
  end.

(** The run up to the end of the [iterations]-th round of the loop. *)
Definition running (status_interval : Z) (iterations : nat) : M Z :=
  let! last_status_time := startup in
  loop iterations status_interval last_status_time.

(** [GPIOSafeguard.run_safeguard], for a run in which [KeyboardInterrupt]
    arrives when [iterations] rounds of the loop are done. *)
Definition run_safeguard (status_interval : Z) (iterations : nat) : M unit :=
  running status_interval iterations >>
  let! s := get_self in
  log INFO StoppedByUser >>
  log INFO FinalStatistics >>
  log INFO (TotalViolations (violations_count s)) >>
  log INFO (TotalCorrections (corrections_made s)) >>
  log INFO StoppedBanner.

(** The loop of [main] that verifies the pins can be read. *)
Fixpoint access_check (pins : list Z) (gpio_accessible : bool) : M bool :=
  match pins with
  | [] => ret gpio_accessible
  | pin :: rest =>
      let! r := read_gpio pin in
      match r with
      | None => log ERROR (CannotAccess pin) >> access_check rest false
      | Some _ => access_check rest gpio_accessible
      end
  end.

(** [try: m except Exception as e: handler]; [SystemExit] is not an
    [Exception]. *)
Definition try_except {A} (m : M A) (handler : exn -> M A) : M A := fun σ =>
  match m σ with
  | (Exc (KeyError key), σ1, t1) =>
      let '(r, σ2, t2) := handler (KeyError key) σ1 in (r, σ2, t1 ++ t2)
  | other => other
  end.

(** [main], with the parsed arguments [--dry-run] and [--status-interval]
    ([--verbose] only lowers the logger level to DEBUG, and the program has
    no DEBUG record). *)
Definition main (dry : bool) (status_interval : Z) (iterations : nat) : M unit :=
  modify_self (fun _ => new_GPIOSafeguard dry) >>
  let! gpio_accessible := access_check MONITORED_PINS true in
  if negb gpio_accessible then
    log ERROR AccessFailed >> raise (SystemExit 1)
  else
    try_except (run_safeguard status_interval iterations)
               (fun e => log ERROR (SafeguardFailed e) >> raise (SystemExit 1)).

End Safeguard.

(** ** Scripts of the outside world used in the examples *)

Definition level1 : ProcResult := Completed "GPIO 2: level=1 fsel=1 func=OUTPUT pull=DOWN".
Definition level0 : ProcResult := Completed "GPIO 2: level=0 fsel=1 func=OUTPUT pull=DOWN".
Definition garbled : ProcResult := Completed "Unknown GPIO".

(** The clock advances by 100 ms at each reading. *)
Definition ticking (k : nat) : Z := 1000000 + 100000 * Z.of_nat k.

(** Every pin reads 1 and every command succeeds. *)
Definition env_quiet : Env :=
  {| raspi_gpio_get := fun _ _ => level1;
     raspi_gpio_set := fun _ _ _ => true;
     wall_clock := ticking |}.

(** Pin 4 is stuck at 0 whatever is written; the other pins read 1. *)
Definition env_stuck4 : Env :=
  {| raspi_gpio_get := fun pin _ => if pin =? 4 then level0 else level1;
     raspi_gpio_set := fun _ _ _ => true;
     wall_clock := ticking |}.

Definition start (dry : bool) : State :=
  {| self := new_GPIOSafeguard dry; world := world0 |}.

(** Pin 4 reads 1 at startup, 0 on the next eleven reads, and cannot be read
    from then on; the other pins read 1. *)
Definition env_lost4 : Env :=
  {| raspi_gpio_get := fun pin k =>
       if pin =? 4 then
         (if (k =? 0)%nat then level1 else if (k <=? 11)%nat then level0 else garbled)
       else level1;
     raspi_gpio_set := fun _ _ _ => true;
     wall_clock := ticking |}.

(** The state a run has reached: after [startup] and [iterations] rounds of
    the loop, from a new object. *)
Definition state_after (env : Env) (dry : bool) (iterations : nat) : State :=
  (running env 30 iterations (start dry)).1.2.

(** Every [raspi-gpio set] exits with a non-zero status; every pin reads 0. *)
Definition env_no_write : Env :=
  {| raspi_gpio_get := fun _ _ => level0;
     raspi_gpio_set := fun _ _ _ => false;
     wall_clock := ticking |}.

(** Pin 2 cannot be read; the other pins read 1. *)
Definition env_unreadable2 : Env :=
  {| raspi_gpio_get := fun pin _ => if pin =? 2 then garbled else level1;
     raspi_gpio_set := fun _ _ _ => true;
     wall_clock := ticking |}.

(** Pin 2 reads 1 once and cannot be read from then on; the other pins
    read 1. *)
Definition env_late_unreadable2 : Env :=
  {| raspi_gpio_get := fun pin k =>
       if pin =? 2 then (if (k =? 0)%nat then level1 else garbled) else level1;
     raspi_gpio_set := fun _ _ _ => true;
     wall_clock := ticking |}.

(** Pin 4 reads 1 once and 0 from then on; the other pins read 1. *)
Definition env_falls4 : Env :=
  {| raspi_gpio_get := fun pin k =>
       if pin =? 4 then (if (k =? 0)%nat then level1 else level0) else level1;
     raspi_gpio_set := fun _ _ _ => true;
     wall_clock := ticking |}.

(** Pin 2 reads 1, then cannot be read once, then reads 1 again; the other
    pins read 1. *)
Definition env_recovers2 : Env :=
  {| raspi_gpio_get := fun pin k =>
       if pin =? 2 then (if (k =? 1)%nat then garbled else level1) else level1;
     raspi_gpio_set := fun _ _ _ => true;
     wall_clock := ticking |}.



(** ** Observations on runs *)

(** The level a [raspi-gpio get] result stands for: what [read_gpio] returns
    on it. *)
Definition read_level (r : ProcResult) : option Z :=
  match r with
  | Completed output =>
      if contains "level=1" output then Some 1
      else if contains "level=0" output then Some 0
      else None
  | CalledProcessError => None
  end.

(** The events of one [read_gpio]. *)
Definition read_events (pin : Z) (r : ProcResult) : list Event :=
  EvGet pin r ::
  match r with
  | Completed _ => []
  | CalledProcessError => [EvLog WARNING (FailedToRead pin)]
  end.

Arguments read_events : simpl never.

(** The state after one more [raspi-gpio get] of [pin]. *)
Definition got (pin : Z) (σ : State) : State :=
  {| self := self σ;
     world := {| gets := bump (gets (world σ)) pin; sets := sets (world σ);
                 nows := nows (world σ) |} |}.

Definition is_log (e : Event) : bool :=
  match e with EvLog _ _ => true | _ => false end.

Definition is_set (e : Event) : bool :=
  match e with EvSet _ _ _ => true | _ => false end.

(** The subprocess calls and sleeps of a run, without its log records. *)
Definition io_events (out : list Event) : list Event :=
  List.filter (fun e => negb (is_log e)) out.

(** The pin a log record is about. *)
Definition msg_pin (m : LogMsg) : option Z :=
  match m with
  | FailedToRead pin | DryRunWouldSet pin _ | CorrectedVerified pin _
  | CorrectedVerifiedOnAttempt pin _ _ | SetButCouldNotVerify pin _ _
  | SetButReadBack pin _ _ _ | SetButReadBackAfter pin _ _ _
  | FailedToSet pin _ _ | FailedToSetAfter pin _ _
  | CannotReadDuringInit pin | NotInSafeState pin _ | InitializedToSafe pin
  | FailedToInitialize pin | AlreadyInSafeState pin
  | StateChange pin _ _ | TimerStarted pin _ | ReturnedToSafe pin _
  | SafetyViolation pin _ _ | ForcedToSafe pin | CriticalFailedToCorrect pin
  | CurrentState pin _ | CannotAccess pin => Some pin
  | _ => None
  end.

(** The pin an event is about. *)
Definition event_pin (e : Event) : option Z :=
  match e with
  | EvGet pin _ | EvSet pin _ _ => Some pin
  | EvSleep _ => None
  | EvLog _ m => msg_pin m
  end.

(** Every event of [out] that is about a pin is about [pin]. *)
Definition only_about (pin : Z) (out : list Event) : Prop :=
  Forall (fun e => forall q, event_pin e = Some q -> q = pin) out.

(** No event of [out] is about [pin]. *)
Definition silent_on (pin : Z) (out : list Event) : Prop :=
  Forall (fun e => event_pin e <> Some pin) out.

(** *** Attempts of the corrective write *)

(** What one round of the retry loop of [set_gpio] met: the command failed,
    or it succeeded and the pin was read back. *)
Inductive Attempt :=
| WriteFailed
| ReadBack (r : ProcResult).

Definition drive_for (value : Z) : Drive := if value =? 1 then DriveHigh else DriveLow.

(** The subprocess calls and sleeps of one attempt: the write and, when the
    command succeeded, the settle delay and the read-back. *)
Definition attempt_io (pin : Z) (d : Drive) (a : Attempt) : list Event :=
  match a with
  | WriteFailed => [EvSet pin d false]
  | ReadBack r => [EvSet pin d true; EvSleep 10000; EvGet pin r]
  end.

(** An attempt is verified when its read-back is the target value. *)
Definition verified (value : Z) (a : Attempt) : bool :=
  match a with
  | WriteFailed => false
  | ReadBack r => option_Z_eqb (read_level r) (Some value)
  end.

(** Attempts in sequence, a backoff of 50 ms between two of them. *)
Fixpoint attempts_io (pin : Z) (d : Drive) (attempts : list Attempt) : list Event :=
  match attempts with
  | [] => []
  | [a] => attempt_io pin d a
  | a :: rest => attempt_io pin d a ++ EvSleep 50000 :: attempts_io pin d rest
  end.

(** The attempt the scripts give at a position. *)
Definition attempt_at (env : Env) (pin : Z) (d : Drive) (w : World) : Attempt :=
  if raspi_gpio_set env pin d (sets w pin)
  then ReadBack (raspi_gpio_get env pin (gets w pin))
  else WriteFailed.

(** The state after an attempt. *)
Definition attempted (pin : Z) (a : Attempt) (σ : State) : State :=
  {| self := self σ;
     world := {| gets := match a with
                         | ReadBack _ => bump (gets (world σ)) pin
                         | WriteFailed => gets (world σ)
                         end;
                 sets := bump (sets (world σ)) pin;
                 nows := nows (world σ) |} |}.

(** [σ'] comes from [σ] by subprocess calls on [pin] alone: the object,
    the clock and the scripts of the other pins are where they were. *)
Definition io_on (pin : Z) (σ σ' : State) : Prop :=
  self σ' = self σ /\
  nows (world σ') = nows (world σ) /\
  (forall q, q <> pin ->
     gets (world σ') q = gets (world σ) q /\ sets (world σ') q = sets (world σ) q) /\
  (gets (world σ) pin <= gets (world σ') pin)%nat /\
  (sets (world σ) pin <= sets (world σ') pin)%nat.

Arguments read_gpio : simpl never.
Arguments set_gpio_attempt : simpl never.
Arguments set_gpio_loop : simpl never.
Arguments set_gpio : simpl never.
Arguments check_pin : simpl never.
Arguments check_pins : simpl never.
Arguments for_each : simpl never.
Arguments seed_pin : simpl never.
Arguments status_part : simpl never.
Arguments check_safety_violations : simpl never.
Arguments get_status_summary : simpl never.
Arguments loop_body : simpl never.
Arguments startup : simpl never.
Arguments run_safeguard : simpl never.
Arguments running : simpl never.
Arguments initialize_pin : simpl never.
Arguments access_check : simpl never.
Arguments loop : simpl never.
Arguments status_parts : simpl never.

(** The effect of [modify_self f]. *)
Definition with_self (f : GPIOSafeguard -> GPIOSafeguard) (σ : State) : State :=
  {| self := f (self σ); world := world σ |}.

(** The log of a return to 1, when a timer was running. *)
Definition returned_log (now pin : Z) (timer : option Z) : list Event :=
  match timer with
  | Some since => [EvLog INFO (ReturnedToSafe pin (now - since))]
  | None => []
  end.

(** What a call of [set_gpio] leaves behind, [b] being its result. *)
Definition set_gpio_post (env : Env) (pin value : Z) (σ : State) (b : bool)
    (σ' : State) (out : list Event) : Prop :=
  io_on pin σ σ' /\
  only_about pin out /\
  (b = true <->
     dry_run (self σ) = true \/
     exists r, In (EvGet pin r) out /\ read_level r = Some value) /\
  (b = true ->
     dry_run (self σ) = true \/
     exists k, (gets (world σ) pin <= k < gets (world σ') pin)%nat /\
               read_level (raspi_gpio_get env pin k) = Some value) /\
  (if dry_run (self σ)
   then out = [EvLog INFO (DryRunWouldSet pin value)] /\ σ' = σ
   else exists ok, In (EvSet pin (drive_for value) ok) out).

(** The tracked state and the scripts of [pin] are in [σ'] as in [σ], and
    [out] has no event about [pin]. *)
Definition apart (pin : Z) (σ σ' : State) (out : list Event) : Prop :=
  gpio_states (self σ') !! pin = gpio_states (self σ) !! pin /\
  gpio_timers (self σ') !! pin = gpio_timers (self σ) !! pin /\
  gets (world σ') pin = gets (world σ) pin /\
  sets (world σ') pin = sets (world σ) pin /\
  silent_on pin out.

(** What every step of the loop of a tick keeps: the mode and the clock
    position; the counters and the script positions only grow. *)
Definition steady (σ σ' : State) : Prop :=
  dry_run (self σ') = dry_run (self σ) /\
  nows (world σ') = nows (world σ) /\
  violations_count (self σ) <= violations_count (self σ') /\
  corrections_made (self σ) <= corrections_made (self σ') /\
  (forall q, (gets (world σ) q <= gets (world σ') q)%nat).

(** Every monitored pin has an entry in [gpio_timers]. *)
Definition tracked (σ : State) : Prop :=
  forall q, In q MONITORED_PINS -> is_Some (gpio_timers (self σ) !! q).

(** *** The step of one pin

    The runs of the loop body of [check_safety_violations], one rule per
    path: [pin_step now pin v σ r σ' out] is the run of the body for [pin]
    from [σ], with the tick's instant [now] and
    [violations_detected = v]. *)
Section PinStep.

Variable env : Env.
Variables (now pin : Z) (v : bool) (σ : State).

Let fresh := raspi_gpio_get env pin (gets (world σ) pin).
Let previous := gpio_states_get (self σ) pin.

Inductive pin_step : Result bool -> State -> list Event -> Prop :=
| step_unknown :
    read_level fresh = None ->
    pin_step (Val v) (got pin σ) (read_events pin fresh)
| step_high_steady :
    read_level fresh = Some 1 -> previous = Some 1 ->
    pin_step (Val v) (got pin σ) (read_events pin fresh)
| step_high_untracked :
    read_level fresh = Some 1 -> previous <> Some 1 ->
    gpio_timers (self σ) !! pin = None ->
    pin_step (Exc (KeyError pin))
      (with_self (set_state pin (Some 1)) (got pin σ))
      (read_events pin fresh ++ [EvLog INFO (StateChange pin previous 1)])
| step_high_returned timer :
    read_level fresh = Some 1 -> previous <> Some 1 ->
    gpio_timers (self σ) !! pin = Some timer ->
    pin_step (Val v)
      (with_self (set_timer pin None) (with_self (set_state pin (Some 1)) (got pin σ)))
      (read_events pin fresh ++
       EvLog INFO (StateChange pin previous 1) :: returned_log now pin timer)
| step_low_entered max_allowed :
    read_level fresh = Some 0 -> previous <> Some 0 ->
    SAFETY_RULES !! pin = Some max_allowed ->
    pin_step (Val v)
      (with_self (set_timer pin (Some now)) (with_self (set_state pin (Some 0)) (got pin σ)))
      (read_events pin fresh ++
       [EvLog INFO (StateChange pin previous 0); EvLog INFO (TimerStarted pin max_allowed)])
| step_low_untracked :
    read_level fresh = Some 0 -> previous = Some 0 ->
    gpio_timers (self σ) !! pin = None ->
    pin_step (Exc (KeyError pin)) (got pin σ) (read_events pin fresh)
| step_low_untimed :
    read_level fresh = Some 0 -> previous = Some 0 ->
    gpio_timers (self σ) !! pin = Some None ->
    pin_step (Val v) (got pin σ) (read_events pin fresh)
| step_low_within since max_allowed :
    read_level fresh = Some 0 -> previous = Some 0 ->
    gpio_timers (self σ) !! pin = Some (Some since) ->
    SAFETY_RULES !! pin = Some max_allowed ->
    now - since <= max_allowed ->
    pin_step (Val v) (got pin σ) (read_events pin fresh)
| step_low_corrected since max_allowed σ1 out1 :
    read_level fresh = Some 0 -> previous = Some 0 ->
    gpio_timers (self σ) !! pin = Some (Some since) ->
    SAFETY_RULES !! pin = Some max_allowed ->
    now - since > max_allowed ->
    set_gpio env pin 1 (with_self incr_violations (got pin σ)) = (Val true, σ1, out1) ->
    set_gpio_post env pin 1 (with_self incr_violations (got pin σ)) true σ1 out1 ->
    pin_step (Val true)
      (with_self (set_timer pin None)
         (with_self (set_state pin (Some 1)) (with_self incr_corrections σ1)))
      (read_events pin fresh ++
       EvLog WARNING (SafetyViolation pin (now - since) max_allowed) ::
       out1 ++ [EvLog WARNING (ForcedToSafe pin)])
| step_low_uncorrected since max_allowed σ1 out1 :
    read_level fresh = Some 0 -> previous = Some 0 ->
    gpio_timers (self σ) !! pin = Some (Some since) ->
    SAFETY_RULES !! pin = Some max_allowed ->
    now - since > max_allowed ->
    set_gpio env pin 1 (with_self incr_violations (got pin σ)) = (Val false, σ1, out1) ->
    set_gpio_post env pin 1 (with_self incr_violations (got pin σ)) false σ1 out1 ->
    pin_step (Val true) σ1
      (read_events pin fresh ++
       EvLog WARNING (SafetyViolation pin (now - since) max_allowed) ::
       out1 ++ [EvLog ERROR (CriticalFailedToCorrect pin)]).

End PinStep.

(** The run writes to no pin. *)
Definition no_writes (out : list Event) : Prop :=
  Forall (fun e => is_set e = false) out.

(** The events of a round of the loop outside its tick: the status record
    and the sleep. *)
Definition idle_event (e : Event) : Prop :=
  match e with
  | EvSleep _ => True
  | EvLog INFO (Status _ _ _) => True
  | _ => False
  end.

(** [σ'] comes from [σ] by readings of the clock alone. *)
Definition later (σ σ' : State) : Prop :=
  self σ' = self σ /\
  gets (world σ') = gets (world σ) /\
  sets (world σ') = sets (world σ) /\
  (nows (world σ) <= nows (world σ'))%nat.

(** The timer of [pin] is set. *)
Definition timer_set (s : GPIOSafeguard) (pin : Z) : Prop :=
  exists since, gpio_timers s !! pin = Some (Some since).

(** [pin] is tracked at level 0. *)
Definition tracked_low (s : GPIOSafeguard) (pin : Z) : Prop :=
  gpio_states s !! pin = Some (Some 0).

(** The invariant of the tracked state: a timer is set only for a pin
    tracked at 0 and, in live mode, every pin tracked at 0 has its timer
    set. *)
Definition timer_invariant (σ : State) : Prop :=
  (forall p, timer_set (self σ) p -> tracked_low (self σ) p) /\
  (dry_run (self σ) = false -> forall p, tracked_low (self σ) p -> timer_set (self σ) p).

(** The states of the controller: those a run of [run_safeguard] from a new
    object is in after its initialization and any number of rounds of its
    loop. *)
Definition reachable (env : Env) (σ : State) : Prop :=
  exists dry w status_interval iterations r out,
    running env status_interval iterations
      {| self := new_GPIOSafeguard dry; world := w |} = (r, σ, out).

(** The events of [set_gpio]: subprocess calls, sleeps, and the records of
    [set_gpio] and [read_gpio]. *)
Definition correction_event (e : Event) : Prop :=
  match e with
  | EvLog _ m =>
      match m with
      | FailedToRead _ | DryRunWouldSet _ _ | CorrectedVerified _ _
      | CorrectedVerifiedOnAttempt _ _ _ | SetButCouldNotVerify _ _ _
      | SetButReadBack _ _ _ _ | SetButReadBackAfter _ _ _ _
      | FailedToSet _ _ _ | FailedToSetAfter _ _ _ => True
      | _ => False
      end
  | _ => True
  end.

(** [e] is not the record of a violation of [pin]. *)
Definition not_violation_of (pin : Z) (e : Event) : Prop :=
  forall elapsed max_allowed,
    e <> EvLog WARNING (SafetyViolation pin elapsed max_allowed).

(** [pin] is tracked at level 0 with its timer cleared, and its script is
    at position [k0] or further. *)
Definition low_untimed (pin : Z) (k0 : nat) (σ : State) : Prop :=
  gpio_states (self σ) !! pin = Some (Some 0) /\
  gpio_timers (self σ) !! pin = Some None /\
  (k0 <= gets (world σ) pin)%nat.



(** The events of the dry-run seeding of [run_safeguard]. *)
Definition seed_event (e : Event) : Prop :=
  match e with
  | EvGet _ _ => True
  | EvLog WARNING (FailedToRead _) => True
  | EvLog INFO (CurrentState _ _) => True
  | _ => False
  end.

(** The records [run_safeguard] starts with. *)
Definition banner (dry : bool) : list Event :=
  [EvLog INFO (Starting dry); EvLog INFO MonitoringPins;
   EvLog INFO SafetyRulesBanner; EvLog INFO Separator].

(** The events of the access check of [main]. *)
Definition access_event (e : Event) : Prop :=
  match e with
  | EvGet _ _ => True
  | EvLog WARNING (FailedToRead _) => True
  | EvLog ERROR (CannotAccess _) => True
  | _ => False
  end.

(** The instant a tick that starts in [σ] reads, and the state once it has. *)
Definition tick_now (env : Env) (σ : State) : Z := wall_clock env (nows (world σ)).

Definition ticked (σ : State) : State :=
  {| self := self σ;
     world := {| gets := gets (world σ); sets := sets (world σ);
                 nows := S (nows (world σ)) |} |}.

(** The next [raspi-gpio get] of [pin] in [σ] gives this level. *)
Definition next_read (env : Env) (σ : State) (pin : Z) : option Z :=
  read_level (raspi_gpio_get env pin (gets (world σ) pin)).

(** *** The tick seen from one pin

    [focus env now pin σ r σ' out]: a run of the loop of a tick from [σ]
    that ends in [σ'] with result [r] and events [out], cut at the step of
    [pin].  The loop is left by an exception before it reaches [pin], or at
    the step of [pin], or it steps [pin] and goes on. *)
Inductive focus (env : Env) (now pin : Z) (σ : State)
    : Result bool -> State -> list Event -> Prop :=
| focus_before e σ' out :
    apart pin σ σ' out -> steady σ σ' ->
    focus env now pin σ (Exc e) σ' out
| focus_raised va σa ta e σb tb :
    apart pin σ σa ta -> steady σ σa ->
    pin_step env now pin va σa (Exc e) σb tb ->
    focus env now pin σ (Exc e) σb (ta ++ tb)
| focus_through va σa ta vb σb tb r σ' tc :
    apart pin σ σa ta -> steady σ σa ->
    pin_step env now pin va σa (Val vb) σb tb ->
    apart pin σb σ' tc -> steady σb σ' ->
    focus env now pin σ r σ' (ta ++ tb ++ tc).

(** ** The claims as they are worded, where the code departs from them *)


(** Every write of the run is followed by the settle delay and a read-back
    of the pin. *)
Definition every_write_read_back (pin : Z) (out : list Event) : Prop :=
  forall before d ok after,
    io_events out = before ++ EvSet pin d ok :: after ->
    exists r rest, after = EvSleep 10000 :: EvGet pin r :: rest.

(** The verified write as worded: at most three writes, each followed by
    the settle delay and a read-back, and success exactly when a read-back
    gave the target value. *)
Definition every_attempt_reads_back (env : Env) (σ : State) (pin value : Z) : Prop :=
  let '(r, _, out) := set_gpio env pin value σ in
  (length (List.filter is_set out) <= 3)%nat /\
  every_write_read_back pin out /\
  (r = Val true <-> exists rb, In (EvGet pin rb) out /\ read_level rb = Some value).

(** The initializer as worded: after it every monitored pin is tracked at
    level 1 with no timer. *)
Definition initializer_assumes_safe (env : Env) (σ : State) : Prop :=
  let '(_, σ', _) := initialize_gpios env σ in
  forall pin, In pin MONITORED_PINS ->
    gpio_states (self σ') !! pin = Some (Some 1) /\
    gpio_timers (self σ') !! pin = Some None.

(** Startup as worded: a run in which some read of a monitored pin done
    before the loop begins (the events of the run with no round of the loop)
    is unknown exits with a non-zero status. *)
Definition startup_read_failure_is_fatal (env : Env) (dry : bool) (status_interval : Z)
    (iterations : nat) (σ : State) : Prop :=
  (exists pin r, In pin MONITORED_PINS /\
                 In (EvGet pin r) (main env dry status_interval 0 σ).2 /\
                 read_level r = None) ->
  exists code σ' out,
    main env dry status_interval iterations σ = (Exc (SystemExit code), σ', out) /\
    code <> 0.


(** The invariant as worded: the timer of a monitored pin is set exactly
    when the pin is tracked at level 0 (a pin tracked at 0 has not been
    tracked at 1 since it was last seen at 0, so the second condition of the
    wording, no transition back to 1 since, holds of it already). *)
Definition timer_iff_low (σ : State) : Prop :=
  forall pin, In pin MONITORED_PINS ->
    (timer_set (self σ) pin <-> tracked_low (self σ) pin).

(** ** Observations for the further properties *)

(** [needle] occurs in [hay]: what [needle in hay] decides. *)
Definition occurs (needle hay : string) : Prop :=
  exists pre post, hay = String.append pre (String.append needle post).

(** The number of [raspi-gpio set] commands of a run. *)
Definition writes (out : list Event) : nat := length (List.filter is_set out).

(** A write among the events of [set_gpio(pin, value)] is the command of
    that call: on [pin], [dh] for the value 1 and [dl] for any other. *)
Definition write_of (pin value : Z) (e : Event) : Prop :=
  match e with
  | EvSet p d _ => p = pin /\ d = drive_for value
  | _ => True
  end.

Definition is_violation (e : Event) : bool :=
  match e with EvLog WARNING (SafetyViolation _ _ _) => true | _ => false end.

Definition is_forced (e : Event) : bool :=
  match e with EvLog WARNING (ForcedToSafe _) => true | _ => false end.

(** The number of events of a run that [f] selects. *)
Definition tally (f : Event -> bool) (out : list Event) : Z :=
  Z.of_nat (length (List.filter f out)).

(** The violations a run declares in its log, and the corrections it
    reports there. *)
Definition violations_logged (out : list Event) : Z := tally is_violation out.
Definition corrections_logged (out : list Event) : Z := tally is_forced out.

(** The counters of the object have grown from [σ] to [σ'] by what [out]
    logs, and [out] reports no more corrections than it declares
    violations. *)
Definition accounted (σ σ' : State) (out : list Event) : Prop :=
  violations_count (self σ') = violations_count (self σ) + violations_logged out /\
  corrections_made (self σ') = corrections_made (self σ) + corrections_logged out /\
  corrections_logged out <= violations_logged out.

(** An event that is neither the record of a violation nor that of a
    correction. *)
Definition uncounted (e : Event) : Prop := is_violation e = false /\ is_forced e = false.

(** What the program may do to the pins: read a monitored pin, or drive a
    monitored pin high. *)
Definition safe_io (e : Event) : Prop :=
  match e with
  | EvGet pin _ => In pin MONITORED_PINS
  | EvSet pin d _ => In pin MONITORED_PINS /\ d = DriveHigh
  | _ => True
  end.

(** The records [run_safeguard] ends with, from the counters of the
    object. *)
Definition final_log (s : GPIOSafeguard) : list Event :=
  [EvLog INFO StoppedByUser; EvLog INFO FinalStatistics;
   EvLog INFO (TotalViolations (violations_count s));
   EvLog INFO (TotalCorrections (corrections_made s));
   EvLog INFO StoppedBanner].

(** What a part of the status summary computed between [σ] and [σ'] says
    of [pin]: the entry of [gpio_states], and the elapsed time and the
    allowed maximum exactly when the pin is tracked at 0 with its timer
    set, the elapsed time being taken at a reading of the clock made for
    the summary. *)
Definition status_of (env : Env) (σ σ' : State) (pin : Z) (part : StatusPart) : Prop :=
  part.1.1 = pin /\
  part.1.2 = gpio_states (self σ) !! pin /\
  match part.2 with
  | Some (elapsed, max_allowed) =>
      tracked_low (self σ) pin /\
      SAFETY_RULES !! pin = Some max_allowed /\
      exists since k,
        gpio_timers (self σ) !! pin = Some (Some since) /\
        (nows (world σ) <= k < nows (world σ'))%nat /\
        elapsed = wall_clock env k - since
  | None => ~ (tracked_low (self σ) pin /\ timer_set (self σ) pin)
  end.

(** The dictionaries of the object hold monitored pins only, a pin with an
    entry in [gpio_timers] has one in [gpio_states], a tracked level is 0 or
    1 and, in live mode, no entry of [gpio_states] is [None]. *)
Definition well_keyed (σ : State) : Prop :=
  (forall pin, is_Some (gpio_states (self σ) !! pin) -> In pin MONITORED_PINS) /\
  (forall pin, is_Some (gpio_timers (self σ) !! pin) -> is_Some (gpio_states (self σ) !! pin)) /\
  (forall pin lv, gpio_states (self σ) !! pin = Some (Some lv) -> lv = 0 \/ lv = 1) /\
  (dry_run (self σ) = false -> forall pin, gpio_states (self σ) !! pin <> Some None).

(** The records of a tick that tell of a change to the object: a state
    change and a violation. *)
Definition is_change (e : Event) : bool :=
  match e with
  | EvLog _ (StateChange _ _ _) | EvLog _ (SafetyViolation _ _ _) => true
  | _ => false
  end.

(** [out] has no such record. *)
Definition unchanging (out : list Event) : Prop :=
  Forall (fun e => is_change e = false) out.

(** [pin] was read at 0 by the seeding of a run that began with the
    scripts at [w], and no read of [pin] made since, up to [σ], gave 1. *)
Definition seeded_low_unchanged (env : Env) (w : World) (σ : State) (pin : Z) : Prop :=
  read_level (raspi_gpio_get env pin (gets w pin)) = Some 0 /\
  forall k, (gets w pin < k < gets (world σ) pin)%nat ->
            read_level (raspi_gpio_get env pin k) <> Some 1.

(** A pin tracked at 0 with no timer set has its timer at None and has been
    so since it was seeded at 0. *)
Definition untimed_only_if_seeded (env : Env) (w : World) (pin : Z) (σ : State) : Prop :=
  tracked_low (self σ) pin -> ~ timer_set (self σ) pin ->
  gpio_timers (self σ) !! pin = Some None /\ seeded_low_unchanged env w σ pin.

(** A pin seeded at 0 and not read at 1 since is tracked at 0 with its timer
    at None; its script has been read from. *)
Definition seeded_stays_untimed (env : Env) (w : World) (pin : Z) (σ : State) : Prop :=
  (gets w pin < gets (world σ) pin)%nat /\
  (seeded_low_unchanged env w σ pin ->
   tracked_low (self σ) pin /\ gpio_timers (self σ) !! pin = Some None).

(** The violations of [pin] a run declares in its log. *)
Definition is_violation_of (pin : Z) (e : Event) : bool :=
  match e with
  | EvLog WARNING (SafetyViolation p _ _) => Z.eqb p pin
  | _ => false
  end.

Definition violations_logged_of (pin : Z) (out : list Event) : Z :=
  tally (is_violation_of pin) out.

Ltac in_tac :=
  first
    [ assumption
    | apply in_eq
    | apply in_or_app; first [left; in_tac | right; in_tac]
    | apply in_cons; in_tac ].

Section Facts.

Variable env : Env.

Lemma read_gpio_run pin σ :
  read_gpio env pin σ =
    (Val (read_level (raspi_gpio_get env pin (gets (world σ) pin))),
     got pin σ,
     read_events pin (raspi_gpio_get env pin (gets (world σ) pin))).
Proof.
  unfold read_gpio, bind, check_output_get, read_level, read_events, got.
  destruct (raspi_gpio_get env pin (gets (world σ) pin)) as [output|]; cbn;
    [destruct (contains "level=1" output); [reflexivity|];
     destruct (contains "level=0" output); reflexivity | reflexivity].
Qed.

Lemma read_level_cases r : read_level r = None \/ read_level r = Some 0 \/ read_level r = Some 1.
Proof.
  destruct r as [output|]; cbn; [|tauto].
  destruct (contains "level=1" output); [tauto|].
  destruct (contains "level=0" output); tauto.
Qed.

Lemma only_about_app pin t1 t2 :
  only_about pin t1 -> only_about pin t2 -> only_about pin (t1 ++ t2).
Proof. apply Forall_app_2. Qed.

Lemma io_events_app t1 t2 : io_events (t1 ++ t2) = io_events t1 ++ io_events t2.
Proof. unfold io_events. induction t1 as [|e t1 IH]; cbn; [reflexivity|]. rewrite IH. destruct (is_log e); reflexivity. Qed.

Lemma read_events_about pin r : only_about pin (read_events pin r).
Proof.
  unfold only_about, read_events.
  destruct r; repeat constructor; cbn; intros q Hq; congruence.
Qed.

Lemma read_events_io pin r : io_events (read_events pin r) = [EvGet pin r].
Proof. destruct r; reflexivity. Qed.

Lemma io_events_cons e t :
  io_events (e :: t) = if is_log e then io_events t else e :: io_events t.
Proof. unfold io_events. cbn. destruct (is_log e); reflexivity. Qed.

Ltac solve_io :=
  cbn; repeat (rewrite ?io_events_app, ?io_events_cons, ?read_events_io; cbn);
  reflexivity.

Ltac solve_about :=
  unfold only_about, silent_on in *;
  repeat first
    [ assumption
    | apply Forall_app_2
    | apply List.Forall_nil
    | apply List.Forall_cons; [cbn; intros; congruence|] ].

(** One round of the retry loop. *)
Lemma set_gpio_attempt_run pin value max_retries attempt σ :
  let a := attempt_at env pin (drive_for value) (world σ) in
  exists out,
    set_gpio_attempt env pin value max_retries attempt σ =
      (Val (if verified value a then Some true
            else if attempt <? max_retries - 1 then None else Some false),
       attempted pin a σ, out) /\
    io_events out =
      attempt_io pin (drive_for value) a ++
      (if verified value a then []
       else if attempt <? max_retries - 1 then [EvSleep 50000] else []) /\
    only_about pin out.
Proof.
  unfold set_gpio_attempt, attempt_at, attempted. fold (drive_for value).
  unfold bind, check_call_set.
  destruct (raspi_gpio_set env pin (drive_for value) (sets (world σ) pin)); cbn.
  - rewrite read_gpio_run. cbn.
    set (r := raspi_gpio_get env pin (gets (world σ) pin)).
    pose proof (read_events_about pin r) as Hr.
    destruct (read_level r) as [actual|] eqn:Hlvl; cbn.
    + destruct (actual =? value) eqn:Heq; cbn.
      * destruct (attempt >? 0); cbn;
          (eexists; split; [reflexivity|]; split; [solve_io | solve_about]).
      * destruct (attempt <? max_retries - 1); cbn;
          (eexists; split; [reflexivity|]; split; [solve_io | solve_about]).
    + destruct (attempt <? max_retries - 1); cbn;
        (eexists; split; [reflexivity|]; split; [solve_io | solve_about]).
  - destruct (attempt <? max_retries - 1); cbn;
      (eexists; split; [reflexivity|]; split; [solve_io | solve_about]).
Qed.

Lemma bump_same f pin : bump f pin pin = S (f pin).
Proof. unfold bump. rewrite Z.eqb_refl. reflexivity. Qed.

Lemma bump_other f pin q : q <> pin -> bump f pin q = f q.
Proof. unfold bump. intros H. destruct (Z.eqb_spec q pin); [contradiction|reflexivity]. Qed.

Lemma io_on_refl pin σ : io_on pin σ σ.
Proof. unfold io_on. repeat split; lia. Qed.

Lemma io_on_trans pin σ1 σ2 σ3 : io_on pin σ1 σ2 -> io_on pin σ2 σ3 -> io_on pin σ1 σ3.
Proof.
  unfold io_on. intros (S1 & N1 & F1 & G1 & W1) (S2 & N2 & F2 & G2 & W2).
  repeat split; try congruence; try lia.
  - destruct (F1 q H), (F2 q H). congruence.
  - destruct (F1 q H), (F2 q H). congruence.
Qed.

Lemma io_on_got pin σ : io_on pin σ (got pin σ).
Proof.
  unfold io_on, got; cbn. rewrite bump_same.
  repeat split; try lia. apply bump_other; assumption.
Qed.

Lemma io_on_attempted pin a σ : io_on pin σ (attempted pin a σ).
Proof.
  unfold io_on, attempted; cbn. rewrite bump_same.
  repeat split; try lia.
  - destruct a; [reflexivity|]. apply bump_other; assumption.
  - apply bump_other; assumption.
  - destruct a; [lia|]. rewrite bump_same. lia.
Qed.

Lemma range_3 : range 3 = [0; 1; 2].
Proof. reflexivity. Qed.

Lemma set_gpio_loop_cons pin value max_retries attempt rest σ :
  set_gpio_loop env pin value max_retries (attempt :: rest) σ =
    match set_gpio_attempt env pin value max_retries attempt σ with
    | (Val (Some b), σ1, t1) => (Val b, σ1, t1 ++ [])
    | (Val None, σ1, t1) =>
        let '(r, σ2, t2) := set_gpio_loop env pin value max_retries rest σ1 in
        (r, σ2, t1 ++ t2)
    | (Exc e, σ1, t1) => (Exc e, σ1, t1)
    end.
Proof.
  unfold set_gpio_loop at 1. unfold bind. fold set_gpio_loop.
  destruct (set_gpio_attempt env pin value max_retries attempt σ) as [[[[b|]|e] σ1] t1];
    reflexivity.
Qed.

(** A verified attempt read the target value back from the script of the
    pin, at a position the attempt consumed. *)
Lemma verified_attempt_at pin value σ :
  verified value (attempt_at env pin (drive_for value) (world σ)) = true ->
  read_level (raspi_gpio_get env pin (gets (world σ) pin)) = Some value /\
  (gets (world σ) pin < gets (world (attempted pin (attempt_at env pin (drive_for value) (world σ)) σ)) pin)%nat.
Proof.
  unfold attempt_at, attempted.
  destruct (raspi_gpio_set env pin (drive_for value) (sets (world σ) pin)); cbn; [|discriminate].
  rewrite bump_same.
  destruct (read_level (raspi_gpio_get env pin (gets (world σ) pin))) as [v|]; cbn; [|discriminate].
  intros H%Z.eqb_eq. subst. split; [reflexivity|lia].
Qed.

(** [set_gpio] in live mode: at most three attempts, the loop stopping at
    the first verified one. *)
Lemma set_gpio_live pin value σ :
  dry_run (self σ) = false ->
  exists attempts b σ' out,
    set_gpio env pin value σ = (Val b, σ', out) /\
    io_on pin σ σ' /\
    only_about pin out /\
    io_events out = attempts_io pin (drive_for value) attempts /\
    (1 <= length attempts <= 3)%nat /\
    b = existsb (verified value) attempts /\
    (forall i a, attempts !! i = Some a -> verified value a = true ->
                 S i = length attempts) /\
    (b = false -> length attempts = 3%nat) /\
    (b = true -> exists k,
       (gets (world σ) pin <= k < gets (world σ') pin)%nat /\
       read_level (raspi_gpio_get env pin k) = Some value).
Proof.
  intros Hlive.
  unfold set_gpio, set_gpio_retries. rewrite range_3.
  unfold bind at 1. cbn. rewrite Hlive.
  destruct (set_gpio_attempt_run pin value 3 0 σ) as (out1 & E1 & IO1 & A1).
  destruct (set_gpio_attempt_run pin value 3 1 (attempted pin (attempt_at env pin (drive_for value) (world σ)) σ))
    as (out2 & E2 & IO2 & A2).
  set (a1 := attempt_at env pin (drive_for value) (world σ)) in *.
  set (σ1 := attempted pin a1 σ) in *.
  destruct (set_gpio_attempt_run pin value 3 2 (attempted pin (attempt_at env pin (drive_for value) (world σ1)) σ1))
    as (out3 & E3 & IO3 & A3).
  set (a2 := attempt_at env pin (drive_for value) (world σ1)) in *.
  set (σ2 := attempted pin a2 σ1) in *.
  set (a3 := attempt_at env pin (drive_for value) (world σ2)) in *.
  set (σ3 := attempted pin a3 σ2) in *.
  pose proof (io_on_attempted pin a1 σ) as F1. fold σ1 in F1.
  pose proof (io_on_attempted pin a2 σ1) as F2. fold σ2 in F2.
  pose proof (io_on_attempted pin a3 σ2) as F3. fold σ3 in F3.
  pose proof (io_on_trans _ _ _ _ F1 F2) as F12.
  pose proof (io_on_trans _ _ _ _ F12 F3) as F123.
  change (0 <? 3 - 1) with true in *.
  change (1 <? 3 - 1) with true in *.
  change (2 <? 3 - 1) with false in *.
  rewrite set_gpio_loop_cons, E1.
  destruct (verified value a1) eqn:V1.
  { exists [a1], true, σ1, (out1 ++ []).
    rewrite app_nil_r in *. cbn [existsb length attempts_io]. rewrite V1.
    split_and!; try done; try lia.
    - intros [|i] a Ha; [lia|discriminate].
    - intros _. exists (gets (world σ) pin).
      destruct (verified_attempt_at pin value σ V1) as [L G]. fold a1 in G. fold σ1 in G.
      split; [lia|assumption]. }
  rewrite set_gpio_loop_cons, E2.
  destruct (verified value a2) eqn:V2.
  { exists [a1; a2], true, σ2, (out1 ++ out2 ++ []).
    rewrite app_nil_r in *. cbn [existsb length attempts_io]. rewrite V1, V2.
    split_and!; try done; try lia.
    - solve_about.
    - rewrite io_events_app, IO1, IO2. destruct a1; reflexivity.
    - intros [|[|i]] a Ha Hv; cbn in Ha; try discriminate; try lia.
      injection Ha as <-. congruence.
    - intros _. exists (gets (world σ1) pin).
      destruct (verified_attempt_at pin value σ1 V2) as [L G]. fold a2 in G. fold σ2 in G.
      destruct F1 as (_ & _ & _ & G1 & _).
      split; [lia|assumption]. }
  rewrite set_gpio_loop_cons, E3.
  assert (Hio : io_events out3 = attempt_io pin (drive_for value) a3)
    by (rewrite IO3; destruct (verified value a3); apply app_nil_r).
  exists [a1; a2; a3], (verified value a3), σ3, (out1 ++ out2 ++ out3 ++ []).
  rewrite app_nil_r in *. cbn [existsb length attempts_io]. rewrite V1, V2.
  split_and!; try done; try lia.
  - destruct (verified value a3); reflexivity.
  - solve_about.
  - rewrite !io_events_app, IO1, IO2, Hio. destruct a1, a2; reflexivity.
  - destruct (verified value a3); reflexivity.
  - intros [|[|[|i]]] a Ha Hv; cbn in Ha; try discriminate; try lia;
      injection Ha as <-; congruence.
  - intros V3. exists (gets (world σ2) pin).
    destruct (verified_attempt_at pin value σ2 V3) as [L G]. fold a3 in G. fold σ3 in G.
    destruct F12 as (_ & _ & _ & G12 & _).
    split; [lia|assumption].
Qed.

(** [set_gpio] in dry-run mode. *)
Lemma set_gpio_dry pin value σ :
  dry_run (self σ) = true ->
  set_gpio env pin value σ = (Val true, σ, [EvLog INFO (DryRunWouldSet pin value)]).
Proof.
  intros Hdry. unfold set_gpio, set_gpio_retries, bind. cbn. rewrite Hdry. reflexivity.
Qed.

Lemma in_io_events e out : In e (io_events out) <-> In e out /\ is_log e = false.
Proof.
  unfold io_events. rewrite List.filter_In. destruct (is_log e); cbn; intuition congruence.
Qed.

Lemma in_attempts_io_get pin d attempts q r :
  In (EvGet q r) (attempts_io pin d attempts) <-> q = pin /\ In (ReadBack r) attempts.
Proof.
  induction attempts as [|a [|a' rest] IH].
  - cbn. tauto.
  - destruct a; cbn; intuition congruence.
  - change (attempts_io pin d (a :: a' :: rest))
      with (attempt_io pin d a ++ EvSleep 50000 :: attempts_io pin d (a' :: rest)).
    rewrite List.in_app_iff. cbn [In]. rewrite IH.
    destruct a; cbn; intuition congruence.
Qed.

Lemma in_attempts_io_set pin d attempts :
  attempts <> [] -> exists ok, In (EvSet pin d ok) (attempts_io pin d attempts).
Proof.
  destruct attempts as [|a [|a' rest]]; [congruence| |]; intros _;
    destruct a; cbn; eauto.
Qed.

Lemma existsb_verified value attempts :
  existsb (verified value) attempts = true <->
  exists r, In (ReadBack r) attempts /\ read_level r = Some value.
Proof.
  rewrite List.existsb_exists. split.
  - intros ([|r] & Hin & Hv); cbn in Hv; [discriminate|].
    exists r. split; [assumption|].
    destruct (read_level r) as [v|]; cbn in Hv; [|discriminate].
    apply Z.eqb_eq in Hv. congruence.
  - intros (r & Hin & Hv). exists (ReadBack r). split; [assumption|].
    cbn. rewrite Hv. cbn. apply Z.eqb_refl.
Qed.

Lemma read_events_correction pin r : Forall correction_event (read_events pin r).
Proof. destruct r; repeat constructor. Qed.

Lemma set_gpio_attempt_events pin value max_retries attempt σ :
  Forall correction_event (set_gpio_attempt env pin value max_retries attempt σ).2.
Proof.
  unfold set_gpio_attempt, bind, check_call_set.
  pose proof (read_events_correction pin (raspi_gpio_get env pin (gets (world σ) pin))) as Hr.
  destruct (raspi_gpio_set env pin _ (sets (world σ) pin)); cbn.
  - rewrite read_gpio_run. cbn.
    destruct (read_level _) as [actual|]; cbn.
    + destruct (actual =? value); cbn.
      * destruct (attempt >? 0); cbn;
          repeat first [assumption | apply Forall_app_2 | constructor].
      * destruct (attempt <? max_retries - 1); cbn;
          repeat first [assumption | apply Forall_app_2 | constructor].
    + destruct (attempt <? max_retries - 1); cbn;
        repeat first [assumption | apply Forall_app_2 | constructor].
  - destruct (attempt <? max_retries - 1); cbn; repeat constructor.
Qed.

Lemma set_gpio_loop_events pin value max_retries attempts :
  forall σ, Forall correction_event (set_gpio_loop env pin value max_retries attempts σ).2.
Proof.
  induction attempts as [|a rest IH]; intros σ.
  - constructor.
  - rewrite set_gpio_loop_cons.
    pose proof (set_gpio_attempt_events pin value max_retries a σ) as Ha.
    destruct (set_gpio_attempt env pin value max_retries a σ) as [[[[b|]|e] σ1] t1]; cbn in *.
    + apply Forall_app_2; [exact Ha|constructor].
    + specialize (IH σ1).
      destruct (set_gpio_loop env pin value max_retries rest σ1) as [[r σ2] t2]; cbn in *.
      apply Forall_app_2; assumption.
    + exact Ha.
Qed.

(** The events of [set_gpio]. *)
Lemma set_gpio_events pin value σ r σ' out :
  set_gpio env pin value σ = (r, σ', out) -> Forall correction_event out.
Proof.
  unfold set_gpio, set_gpio_retries, bind. cbn.
  destruct (dry_run (self σ)); cbn.
  - intros E. injection E as <- <- <-. repeat constructor.
  - pose proof (set_gpio_loop_events pin value 3 (range 3) σ) as H.
    destruct (set_gpio_loop env pin value 3 (range 3) σ) as [[r0 σ0] t0]; cbn in *.
    intros E. injection E as <- <- <-. exact H.
Qed.

(** [set_gpio] returns, in both modes. *)
Lemma set_gpio_spec pin value σ :
  exists b σ' out,
    set_gpio env pin value σ = (Val b, σ', out) /\
    set_gpio_post env pin value σ b σ' out.
Proof.
  destruct (dry_run (self σ)) eqn:Hmode.
  - exists true, σ, [EvLog INFO (DryRunWouldSet pin value)].
    split; [apply set_gpio_dry; assumption|].
    unfold set_gpio_post. rewrite Hmode.
    split_and!; try done; try tauto; try apply io_on_refl; try solve [solve_about].
  - destruct (set_gpio_live pin value σ Hmode)
      as (attempts & b & σ' & out & E & F & A & IO & Hlen & Hb & Hlast & Hfail & Hk).
    exists b, σ', out. split; [assumption|].
    unfold set_gpio_post. rewrite Hmode.
    split_and!; try done.
    + rewrite Hb, existsb_verified. split.
      * intros (r & Hin & Hv). right. exists r. split; [|assumption].
        assert (In (EvGet pin r) (io_events out)) as Hio
          by (rewrite IO; apply in_attempts_io_get; tauto).
        apply in_io_events in Hio. tauto.
      * intros [?|(r & Hin & Hv)]; [discriminate|].
        exists r. split; [|assumption].
        assert (In (EvGet pin r) (io_events out)) as Hio
          by (apply in_io_events; split; [assumption|reflexivity]).
        rewrite IO in Hio. apply in_attempts_io_get in Hio. tauto.
    + intros Hb'. right. apply Hk. assumption.
    + destruct (in_attempts_io_set pin (drive_for value) attempts) as [ok Hok].
      { destruct attempts; [cbn in Hlen; lia|congruence]. }
      exists ok. rewrite <- IO in Hok. apply in_io_events in Hok. tauto.
Qed.

Lemma option_Z_eqb_eq a b : option_Z_eqb a b = true <-> a = b.
Proof.
  destruct a as [x|], b as [y|]; cbn; try (split; congruence).
  rewrite Z.eqb_eq. split; congruence.
Qed.

Lemma option_Z_eqb_neq a b : option_Z_eqb a b = false <-> a <> b.
Proof.
  rewrite <- option_Z_eqb_eq. destruct (option_Z_eqb a b); split; congruence.
Qed.

(** The loop body runs by one of the rules of [pin_step]. *)
Lemma check_pin_step now pin v σ max_allowed :
  SAFETY_RULES !! pin = Some max_allowed -> 0 <= max_allowed ->
  exists r σ' out,
    check_pin env now pin v σ = (r, σ', out) /\ pin_step env now pin v σ r σ' out.
Proof.
  intros Hrule Hmax.
  unfold check_pin, bind. rewrite read_gpio_run.
  set (fresh := raspi_gpio_get env pin (gets (world σ) pin)).
  destruct (read_level_cases fresh) as [Hl|[Hl|Hl]]; rewrite Hl.
  - do 3 eexists. split; [reflexivity|]. rewrite app_nil_r. apply step_unknown. exact Hl.
  - unfold track_state_change, check_violation, gpio_timers_at, safety_rule, bind; cbn.
    rewrite Hrule.
    destruct (option_Z_eqb (gpio_states_get (self σ) pin) (Some 0)) eqn:Hprev; cbn.
    + apply option_Z_eqb_eq in Hprev.
      destruct (gpio_timers (self σ) !! pin) as [[since|]|] eqn:Ht; cbn.
      * destruct (now - since >? max_allowed) eqn:Hgt; cbn.
        -- destruct (set_gpio_spec pin 1 (with_self incr_violations (got pin σ)))
             as (b & σ1 & out1 & E & Hpost).
           pose proof E as E'. unfold with_self, got in E'. cbn in E'. rewrite E'.
           apply Z.gtb_lt in Hgt.
           destruct b; cbn; do 3 eexists; (split; [reflexivity|]).
           ++ eapply step_low_corrected; eauto. lia.
           ++ eapply step_low_uncorrected; eauto. lia.
        -- do 3 eexists. split; [reflexivity|]. rewrite app_nil_r.
           eapply step_low_within; eauto.
           destruct (Z.gtb_spec (now - since) max_allowed); [discriminate|lia].
      * do 3 eexists. split; [reflexivity|]. rewrite app_nil_r.
        apply step_low_untimed; assumption.
      * do 3 eexists. split; [reflexivity|]. rewrite app_nil_r.
        apply step_low_untracked; assumption.
    + apply option_Z_eqb_neq in Hprev.
      rewrite lookup_insert_eq. cbn.
      replace (now - now >? max_allowed) with false
        by (symmetry; destruct (Z.gtb_spec (now - now) max_allowed); [lia|reflexivity]).
      cbn. do 3 eexists. split; [reflexivity|].
      eapply step_low_entered; eauto.
  - unfold track_state_change, check_violation, gpio_timers_at, safety_rule, bind; cbn.
    destruct (option_Z_eqb (gpio_states_get (self σ) pin) (Some 1)) eqn:Hprev; cbn.
    + apply option_Z_eqb_eq in Hprev.
      do 3 eexists. split; [reflexivity|]. rewrite app_nil_r.
      apply step_high_steady; assumption.
    + apply option_Z_eqb_neq in Hprev.
      destruct (gpio_timers (self σ) !! pin) as [timer|] eqn:Ht; cbn.
      * destruct timer as [since|]; cbn;
          (do 3 eexists; split; [reflexivity|]);
          rewrite ?app_nil_r;
          apply (step_high_returned env now pin v σ _ Hl Hprev Ht).
      * do 3 eexists. split; [reflexivity|].
        apply step_high_untracked; assumption.
Qed.


Lemma monitored_rule pin :
  In pin MONITORED_PINS -> exists max_allowed, SAFETY_RULES !! pin = Some max_allowed /\ 0 < max_allowed.
Proof.
  cbn. intros [<-|[<-|[<-|[<-|[]]]]]; eexists; (split; [reflexivity|lia]).
Qed.

Lemma apart_refl pin σ : apart pin σ σ [].
Proof. unfold apart. split_and!; try reflexivity. constructor. Qed.

Lemma apart_trans pin σ1 σ2 σ3 t1 t2 :
  apart pin σ1 σ2 t1 -> apart pin σ2 σ3 t2 -> apart pin σ1 σ3 (t1 ++ t2).
Proof.
  unfold apart. intros (A1 & B1 & C1 & D1 & E1) (A2 & B2 & C2 & D2 & E2).
  split_and!; try congruence. apply Forall_app_2; assumption.
Qed.

Lemma steady_refl σ : steady σ σ.
Proof. unfold steady. split_and!; try reflexivity; intros; lia. Qed.

Lemma steady_trans σ1 σ2 σ3 : steady σ1 σ2 -> steady σ2 σ3 -> steady σ1 σ3.
Proof.
  unfold steady. intros (A1 & B1 & C1 & D1 & E1) (A2 & B2 & C2 & D2 & E2).
  split_and!; try congruence; try lia. intros q. specialize (E1 q). specialize (E2 q). lia.
Qed.

Lemma only_about_silent q pin out : q <> pin -> only_about q out -> silent_on pin out.
Proof.
  unfold only_about, silent_on. intros Hne H.
  eapply Forall_impl; [exact H|]. cbn. intros e He Hp. apply Hne. symmetry. apply He. exact Hp.
Qed.

Lemma bump_le f pin q : (f q <= bump f pin q)%nat.
Proof. unfold bump. destruct (q =? pin); lia. Qed.

Ltac open_post H :=
  let Hio := fresh "Hio" in
  destruct H as (Hio & ? & ? & ? & ?);
  pose proof Hio as (?Hself & ?Hnows & ?Hoth & ?Hgets & ?Hsets).

Lemma returned_log_about now pin timer : only_about pin (returned_log now pin timer).
Proof. destruct timer; solve_about. Qed.

(** The step of a pin leaves the other pins alone. *)
Lemma pin_step_apart now q v σ r σ' out pin :
  q <> pin -> pin_step env now q v σ r σ' out -> apart pin σ σ' out.
Proof.
  intros Hne H.
  pose proof (read_events_about q (raspi_gpio_get env q (gets (world σ) q))) as Hread.
  assert (Hbump : bump (gets (world σ)) q pin = gets (world σ) pin)
    by (apply bump_other; congruence).
  destruct H;
    try match goal with
        | Hp : set_gpio_post _ _ _ _ _ _ _ |- _ =>
            open_post Hp;
            destruct (Hoth pin ltac:(congruence)) as [Eg Es]; cbn in Eg, Es
        end;
    try pose proof (returned_log_about now q timer);
    unfold apart; cbn; rewrite ?Hself; cbn;
    rewrite ?lookup_insert_ne by congruence;
    (split_and!; try reflexivity; try assumption; try congruence;
     try (eapply only_about_silent; [exact Hne|solve_about])).
Qed.

Ltac step_cases H :=
  destruct H;
  try match goal with
      | Hp : set_gpio_post _ _ _ _ _ _ _ |- _ => open_post Hp
      end.

(** The step of a pin keeps the mode and the clock, and the counters grow. *)
Lemma pin_step_steady now q v σ r σ' out :
  pin_step env now q v σ r σ' out -> steady σ σ'.
Proof.
  intros H.
  step_cases H; unfold steady; cbn; rewrite ?Hself; cbn;
    (split_and!; try reflexivity; try assumption; try lia;
     try (intros p; apply bump_le)).
  all: intros p; destruct (Z.eq_dec p q) as [->|Hp];
    [ cbn in Hgets; rewrite bump_same in Hgets; lia
    | destruct (Hoth p Hp) as [Eg _]; cbn in Eg; rewrite Eg; apply bump_le ].
Qed.

(** The step of a pin removes no entry of [gpio_timers]. *)
Lemma pin_step_keeps_entries now q v σ r σ' out p :
  pin_step env now q v σ r σ' out ->
  is_Some (gpio_timers (self σ) !! p) -> is_Some (gpio_timers (self σ') !! p).
Proof.
  intros H Hp.
  step_cases H; cbn; rewrite ?Hself; cbn; try assumption;
    (destruct (Z.eq_dec q p) as [->|Hne];
     [rewrite lookup_insert_eq; eauto | rewrite lookup_insert_ne by assumption; assumption]).
Qed.

(** The step of a pin that has an entry in [gpio_timers] raises nothing. *)
Lemma pin_step_returns now q v σ r σ' out :
  pin_step env now q v σ r σ' out ->
  is_Some (gpio_timers (self σ) !! q) -> exists v', r = Val v'.
Proof.
  intros H [t Ht].
  destruct H; try congruence; eauto.
Qed.

Lemma pin_step_about now q v σ r σ' out :
  pin_step env now q v σ r σ' out -> only_about q out.
Proof.
  intros H.
  pose proof (read_events_about q (raspi_gpio_get env q (gets (world σ) q))) as Hread.
  step_cases H; try pose proof (returned_log_about now q timer); solve_about.
Qed.

Lemma check_pins_cons now pin rest v σ :
  check_pins env now (pin :: rest) v σ =
    match check_pin env now pin v σ with
    | (Val v1, σ1, t1) =>
        let '(r, σ2, t2) := check_pins env now rest v1 σ1 in (r, σ2, t1 ++ t2)
    | (Exc e, σ1, t1) => (Exc e, σ1, t1)
    end.
Proof. reflexivity. Qed.

(** The loop over pins other than [pin] leaves [pin] alone. *)
Lemma check_pins_apart now pin pins :
  ~ In pin pins -> (forall q, In q pins -> In q MONITORED_PINS) ->
  forall v σ r σ' out,
    check_pins env now pins v σ = (r, σ', out) ->
    apart pin σ σ' out /\ steady σ σ'.
Proof.
  induction pins as [|q rest IH]; intros Hnotin Hmon v σ r σ' out E.
  - cbn in E. injection E as <- <- <-. split; [apply apart_refl|apply steady_refl].
  - rewrite check_pins_cons in E.
    destruct (monitored_rule q) as (mx & Hrule & Hpos); [apply Hmon; left; reflexivity|].
    destruct (check_pin_step now q v σ mx Hrule ltac:(lia)) as (r1 & σ1 & t1 & E1 & Hstep).
    rewrite E1 in E.
    assert (Hq : q <> pin) by (intros ->; apply Hnotin; left; reflexivity).
    pose proof (pin_step_apart _ _ _ _ _ _ _ pin Hq Hstep) as A1.
    pose proof (pin_step_steady _ _ _ _ _ _ _ Hstep) as S1.
    destruct r1 as [v1|e].
    + destruct (check_pins env now rest v1 σ1) as [[r2 σ2] t2] eqn:E2.
      injection E as <- <- <-.
      destruct (IH ltac:(intros Hin; apply Hnotin; right; exact Hin)
                   ltac:(intros q' Hq'; apply Hmon; right; exact Hq')
                   _ _ _ _ _ E2) as [A2 S2].
      split; [eapply apart_trans; eassumption|eapply steady_trans; eassumption].
    + injection E as <- <- <-. split; assumption.
Qed.

Lemma focus_prepend now pin σ σ1 t1 r σ' out :
  apart pin σ σ1 t1 -> steady σ σ1 ->
  focus env now pin σ1 r σ' out ->
  focus env now pin σ r σ' (t1 ++ out).
Proof.
  intros A S F. destruct F.
  - apply focus_before; [eapply apart_trans|eapply steady_trans]; eassumption.
  - rewrite app_assoc. eapply focus_raised; [eapply apart_trans|eapply steady_trans|]; eassumption.
  - rewrite app_assoc.
    eapply focus_through; [eapply apart_trans|eapply steady_trans| | |]; eassumption.
Qed.

(** Every run of the loop of a tick is cut at the step of each of its
    pins. *)
Lemma check_pins_focus now pin pins :
  In pin pins -> NoDup pins -> (forall q, In q pins -> In q MONITORED_PINS) ->
  forall v σ r σ' out,
    check_pins env now pins v σ = (r, σ', out) ->
    focus env now pin σ r σ' out.
Proof.
  induction pins as [|q rest IH]; intros Hin Hnd Hmon v σ r σ' out E; [destruct Hin|].
  rewrite check_pins_cons in E.
  destruct (monitored_rule q) as (mx & Hrule & Hpos); [apply Hmon; left; reflexivity|].
  destruct (check_pin_step now q v σ mx Hrule ltac:(lia)) as (r1 & σ1 & t1 & E1 & Hstep).
  rewrite E1 in E.
  apply NoDup_cons in Hnd as [Hq Hnd].
  destruct (Z.eq_dec q pin) as [->|Hne].
  - destruct r1 as [v1|e].
    + destruct (check_pins env now rest v1 σ1) as [[r2 σ2] t2] eqn:E2.
      injection E as <- <- <-.
      destruct (check_pins_apart now pin rest
                  ltac:(rewrite <- list_elem_of_In; exact Hq)
                  ltac:(intros q' Hq'; apply Hmon; right; exact Hq')
                  _ _ _ _ _ E2) as [A2 S2].
      change (t1 ++ t2) with ([] ++ t1 ++ t2).
      eapply focus_through; [apply apart_refl|apply steady_refl|exact Hstep|exact A2|exact S2].
    + injection E as <- <- <-.
      change t1 with ([] ++ t1).
      eapply focus_raised; [apply apart_refl|apply steady_refl|exact Hstep].
  - pose proof (pin_step_apart _ _ _ _ _ _ _ pin Hne Hstep) as A1.
    pose proof (pin_step_steady _ _ _ _ _ _ _ Hstep) as S1.
    destruct r1 as [v1|e].
    + destruct (check_pins env now rest v1 σ1) as [[r2 σ2] t2] eqn:E2.
      injection E as <- <- <-.
      apply focus_prepend with σ1; [assumption|assumption|].
      eapply IH; [|exact Hnd| |exact E2].
      * destruct Hin as [Hin|Hin]; [congruence|exact Hin].
      * intros q' Hq'; apply Hmon; right; exact Hq'.
    + injection E as <- <- <-. apply focus_before; assumption.
Qed.

(** From a state where every monitored pin has a timer entry the loop of a
    tick raises nothing. *)
Lemma check_pins_returns now pins :
  (forall q, In q pins -> In q MONITORED_PINS) ->
  forall v σ, tracked σ ->
    exists v' σ' out,
      check_pins env now pins v σ = (Val v', σ', out) /\ tracked σ' /\ steady σ σ'.
Proof.
  induction pins as [|q rest IH]; intros Hmon v σ Htr.
  - do 3 eexists. split; [reflexivity|]. split; [assumption|apply steady_refl].
  - rewrite check_pins_cons.
    destruct (monitored_rule q) as (mx & Hrule & Hpos); [apply Hmon; left; reflexivity|].
    destruct (check_pin_step now q v σ mx Hrule ltac:(lia)) as (r1 & σ1 & t1 & E1 & Hstep).
    rewrite E1.
    destruct (pin_step_returns _ _ _ _ _ _ _ Hstep) as [v1 ->];
      [apply Htr, Hmon; left; reflexivity|].
    assert (Htr1 : tracked σ1)
      by (intros p Hp; eapply pin_step_keeps_entries; [exact Hstep|apply Htr, Hp]).
    destruct (IH ltac:(intros q' Hq'; apply Hmon; right; exact Hq') v1 σ1 Htr1)
      as (v' & σ' & out & E2 & Htr' & S2).
    rewrite E2. do 3 eexists. split; [reflexivity|]. split; [assumption|].
    eapply steady_trans; [eapply pin_step_steady; exact Hstep|exact S2].
Qed.

Lemma check_safety_violations_run σ :
  check_safety_violations env σ =
    check_pins env (tick_now env σ) MONITORED_PINS false (ticked σ).
Proof.
  unfold check_safety_violations, bind, datetime_now, tick_now, ticked.
  destruct (check_pins env _ _ _ _) as [[r σ'] out]. reflexivity.
Qed.

Lemma NoDup_MONITORED_PINS : NoDup MONITORED_PINS.
Proof.
  unfold MONITORED_PINS.
  repeat (apply NoDup_cons; split; [rewrite list_elem_of_In; cbn; intuition discriminate|]).
  apply NoDup_nil. exact I.
Qed.

(** Every tick is cut at the step of each monitored pin. *)
Lemma tick_focus pin σ r σ' out :
  In pin MONITORED_PINS ->
  check_safety_violations env σ = (r, σ', out) ->
  focus env (tick_now env σ) pin (ticked σ) r σ' out.
Proof.
  intros Hin E. rewrite check_safety_violations_run in E.
  eapply check_pins_focus; [exact Hin|apply NoDup_MONITORED_PINS|auto|exact E].
Qed.

(** A tick from a state where every monitored pin has a timer entry raises
    nothing. *)
Lemma tick_returns σ :
  tracked σ ->
  exists v σ' out,
    check_safety_violations env σ = (Val v, σ', out) /\ tracked σ' /\
    steady (ticked σ) σ'.
Proof.
  intros Htr. rewrite check_safety_violations_run.
  apply check_pins_returns; [auto|exact Htr].
Qed.

Lemma gpio_states_get_0 s pin v :
  gpio_states_get s pin = Some v <-> gpio_states s !! pin = Some (Some v).
Proof.
  unfold gpio_states_get. destruct (gpio_states s !! pin) as [[x|]|]; cbn; split; congruence.
Qed.

(** The step of a pin whose read fails. *)
Lemma pin_step_unknown now pin v σ r σ' out :
  next_read env σ pin = None ->
  pin_step env now pin v σ r σ' out ->
  r = Val v /\ σ' = got pin σ.
Proof.
  unfold next_read. intros Hread H. destruct H; try congruence. split; reflexivity.
Qed.

(** The step of a pin read at 0, tracked at 0, whose timer has run for more
    than the rule allows. *)
Lemma pin_step_overdue now pin v σ r σ' out since max_allowed :
  next_read env σ pin = Some 0 ->
  gpio_states (self σ) !! pin = Some (Some 0) ->
  gpio_timers (self σ) !! pin = Some (Some since) ->
  SAFETY_RULES !! pin = Some max_allowed ->
  now - since > max_allowed ->
  pin_step env now pin v σ r σ' out ->
  exists b σ1 out1,
    set_gpio env pin 1 (with_self incr_violations (got pin σ)) = (Val b, σ1, out1) /\
    set_gpio_post env pin 1 (with_self incr_violations (got pin σ)) b σ1 out1 /\
    r = Val true /\
    σ' = (if b then with_self (set_timer pin None)
                      (with_self (set_state pin (Some 1)) (with_self incr_corrections σ1))
          else σ1) /\
    out = read_events pin (raspi_gpio_get env pin (gets (world σ) pin)) ++
          EvLog WARNING (SafetyViolation pin (now - since) max_allowed) ::
          out1 ++ [if b then EvLog WARNING (ForcedToSafe pin)
                   else EvLog ERROR (CriticalFailedToCorrect pin)].
Proof.
  unfold next_read. intros Hread Hst Htm Hrule Hgt H.
  apply gpio_states_get_0 in Hst.
  destruct H; try congruence; try (exfalso; assert (since0 = since) by congruence;
    assert (max_allowed0 = max_allowed) by congruence; lia).
  - assert (since0 = since) by congruence. assert (max_allowed0 = max_allowed) by congruence.
    subst. exists true, σ1, out1. split_and!; try reflexivity; assumption.
  - assert (since0 = since) by congruence. assert (max_allowed0 = max_allowed) by congruence.
    subst. exists false, σ1, out1. split_and!; try reflexivity; assumption.
Qed.

(** The body of the loop of [initialize_gpios]. *)
Lemma initialize_pin_spec pin σ :
  exists σ' out,
    initialize_pin env pin σ = (Val tt, σ', out) /\
    (forall q, q <> pin -> apart q σ σ' out) /\
    steady σ σ' /\
    (next_read env σ pin = None -> self σ' = self σ) /\
    (next_read env σ pin <> None ->
       gpio_states (self σ') !! pin = Some (Some 1) /\
       gpio_timers (self σ') !! pin = Some None).
Proof.
  unfold initialize_pin, bind, next_read. rewrite read_gpio_run.
  set (fresh := raspi_gpio_get env pin (gets (world σ) pin)).
  pose proof (read_events_about pin fresh) as Hread.
  assert (Hbump : forall q, q <> pin -> bump (gets (world σ)) pin q = gets (world σ) q)
    by (intros; apply bump_other; assumption).
  destruct (read_level fresh) as [current|] eqn:Hl; cbn.
  - destruct (current =? 1) eqn:Hc; cbn.
    + do 2 eexists. split; [reflexivity|]. split_and!.
      * intros q Hq. unfold apart; cbn. rewrite !lookup_insert_ne by congruence.
        split_and!; try reflexivity; [apply Hbump; assumption|].
        eapply only_about_silent; [apply not_eq_sym; exact Hq|solve_about].
      * unfold steady; cbn. split_and!; try reflexivity; try lia. intros; apply bump_le.
      * discriminate.
      * intros _. cbn. rewrite !lookup_insert_eq. split; reflexivity.
    + destruct (set_gpio_spec pin 1 (got pin σ)) as (b & σ1 & out1 & E & Hpost).
      rewrite E. open_post Hpost. cbn in Hself, Hnows, Hoth, Hgets.
      destruct b; cbn; (do 2 eexists; split; [reflexivity|]; split_and!).
      all: try discriminate.
      all: try (intros _; cbn; rewrite !lookup_insert_eq; split; reflexivity).
      all: try (intros q Hq; unfold apart; cbn; rewrite Hself;
                rewrite !lookup_insert_ne by congruence;
                destruct (Hoth q Hq) as [Eg Es]; rewrite Eg, Es;
                split_and!; try reflexivity; [apply Hbump; assumption|];
                eapply only_about_silent; [apply not_eq_sym; exact Hq|solve_about]).
      all: unfold steady; cbn; rewrite Hself; cbn;
        (split_and!; try reflexivity; try assumption; try lia);
        intros q; destruct (Z.eq_dec q pin) as [->|Hq];
        [rewrite bump_same in Hgets; lia
        |destruct (Hoth q Hq) as [Eg _]; rewrite Eg; apply bump_le].
  - do 2 eexists. split; [reflexivity|]. split_and!.
    + intros q Hq. unfold apart; cbn.
      split_and!; try reflexivity; [apply Hbump; assumption|].
      eapply only_about_silent; [apply not_eq_sym; exact Hq|solve_about].
    + unfold steady; cbn. split_and!; try reflexivity; try lia. intros; apply bump_le.
    + reflexivity.
    + congruence.
Qed.

Lemma for_each_cons body pin rest σ :
  for_each body (pin :: rest) σ =
    match body pin σ with
    | (Val _, σ1, t1) => let '(r, σ2, t2) := for_each body rest σ1 in (r, σ2, t1 ++ t2)
    | (Exc e, σ1, t1) => (Exc e, σ1, t1)
    end.
Proof. reflexivity. Qed.

(** The loop of [initialize_gpios]. *)
Lemma initialize_pins_spec pins :
  NoDup pins ->
  forall σ,
  exists σ' out,
    for_each (initialize_pin env) pins σ = (Val tt, σ', out) /\
    steady σ σ' /\
    (forall q, ~ In q pins -> apart q σ σ' out) /\
    (forall p, In p pins ->
       (next_read env σ p = None ->
          gpio_states (self σ') !! p = gpio_states (self σ) !! p /\
          gpio_timers (self σ') !! p = gpio_timers (self σ) !! p) /\
       (next_read env σ p <> None ->
          gpio_states (self σ') !! p = Some (Some 1) /\
          gpio_timers (self σ') !! p = Some None)).
Proof.
  induction pins as [|pin rest IH]; intros Hnd σ.
  - exists σ, []. split; [reflexivity|]. split; [apply steady_refl|].
    split; [intros; apply apart_refl|intros p []].
  - apply NoDup_cons in Hnd as [Hnotin Hnd]. rewrite list_elem_of_In in Hnotin.
    rewrite for_each_cons.
    destruct (initialize_pin_spec pin σ) as (σ1 & t1 & E1 & A1 & S1 & Hnone & Hsome).
    rewrite E1.
    destruct (IH Hnd σ1) as (σ' & t2 & E2 & S2 & A2 & Hin2).
    rewrite E2. exists σ', (t1 ++ t2). split; [reflexivity|].
    split; [eapply steady_trans; eassumption|].
    split.
    + intros q Hq. eapply apart_trans.
      * apply A1. intros ->. apply Hq. left. reflexivity.
      * apply A2. intros Hin. apply Hq. right. exact Hin.
    + intros p [<-|Hp].
      * destruct (A2 pin Hnotin) as (Est & Etm & _).
        split.
        -- intros Hr. rewrite Est, Etm, (Hnone Hr). split; reflexivity.
        -- intros Hr. rewrite Est, Etm. apply Hsome, Hr.
      * assert (Hne : p <> pin) by (intros ->; contradiction).
        destruct (A1 p Hne) as (Est & Etm & Eg & _).
        assert (Hnext : next_read env σ1 p = next_read env σ p)
          by (unfold next_read; rewrite Eg; reflexivity).
        destruct (Hin2 p Hp) as [Hn Hs]. rewrite Hnext in Hn, Hs.
        split; [|exact Hs].
        intros Hr. destruct (Hn Hr) as [-> ->]. split; assumption.
Qed.

Lemma access_check_cons pin rest acc σ :
  access_check env (pin :: rest) acc σ =
    let '(r, σ2, t2) :=
      match next_read env σ pin with
      | None =>
          let '(r, σ2, t2) := access_check env rest false (got pin σ) in
          (r, σ2, EvLog ERROR (CannotAccess pin) :: t2)
      | Some _ => access_check env rest acc (got pin σ)
      end in
    (r, σ2, read_events pin (raspi_gpio_get env pin (gets (world σ) pin)) ++ t2).
Proof.
  unfold access_check at 1. fold (access_check env). unfold bind, next_read.
  rewrite read_gpio_run.
  destruct (read_level _); cbn; destruct (access_check env rest _ _) as [[r σ2] t2];
    reflexivity.
Qed.

Lemma read_events_access pin r : Forall access_event (read_events pin r).
Proof. destruct r; repeat constructor. Qed.

(** The access check of [main]. *)
Lemma access_check_spec pins :
  NoDup pins ->
  forall acc σ,
  exists acc' σ' out,
    access_check env pins acc σ = (Val acc', σ', out) /\
    self σ' = self σ /\
    nows (world σ') = nows (world σ) /\
    (forall q, ~ In q pins -> gets (world σ') q = gets (world σ) q) /\
    Forall access_event out /\
    (acc' = true <-> acc = true /\ forall p, In p pins -> next_read env σ p <> None).
Proof.
  induction pins as [|pin rest IH]; intros Hnd acc σ.
  - exists acc, σ, []. split_and!; try reflexivity; try constructor; try tauto.
  - apply NoDup_cons in Hnd as [Hnotin Hnd]. rewrite list_elem_of_In in Hnotin.
    rewrite access_check_cons.
    pose proof (read_events_access pin (raspi_gpio_get env pin (gets (world σ) pin))) as Hev.
    assert (Hnext : forall p, In p rest -> next_read env (got pin σ) p = next_read env σ p).
    { intros p Hp. unfold next_read, got; cbn. rewrite bump_other; [reflexivity|].
      intros ->. contradiction. }
    destruct (next_read env σ pin) as [lvl|] eqn:Hl.
    + destruct (IH Hnd acc (got pin σ)) as (acc' & σ' & out & E & Hs & Hn & Hg & Hq & Hiff).
      rewrite E. exists acc', σ'. eexists. split; [reflexivity|].
      split_and!; try assumption.
      * intros q Hq'. rewrite Hg by (intros ?; apply Hq'; right; assumption).
        cbn. apply bump_other. intros ->. apply Hq'. left. reflexivity.
      * apply Forall_app_2; assumption.
      * rewrite Hiff. split; intros [Ha Hall]; (split; [exact Ha|]).
        -- intros p [<-|Hp]; [congruence|]. rewrite <- Hnext by assumption. apply Hall, Hp.
        -- intros p Hp. rewrite Hnext by assumption. apply Hall. right. exact Hp.
    + destruct (IH Hnd false (got pin σ)) as (acc' & σ' & out & E & Hs & Hn & Hg & Hq & Hiff).
      rewrite E. exists acc', σ'. eexists. split; [reflexivity|].
      split_and!; try assumption.
      * intros q Hq'. rewrite Hg by (intros ?; apply Hq'; right; assumption).
        cbn. apply bump_other. intros ->. apply Hq'. left. reflexivity.
      * apply Forall_app_2; [assumption|]. constructor; [exact I|assumption].
      * rewrite Hiff. split; [intros [? _]; discriminate|].
        intros [_ Hall]. exfalso. apply (Hall pin); [left; reflexivity|exact Hl].
Qed.

Lemma later_refl σ : later σ σ.
Proof. unfold later. split_and!; try reflexivity. Qed.

Lemma later_trans σ1 σ2 σ3 : later σ1 σ2 -> later σ2 σ3 -> later σ1 σ3.
Proof.
  unfold later. intros (A1 & B1 & C1 & D1) (A2 & B2 & C2 & D2).
  split_and!; try congruence. lia.
Qed.

Lemma later_ticked σ : later σ (ticked σ).
Proof. unfold later, ticked; cbn. split_and!; try reflexivity. lia. Qed.

(** One status part: the clock may be read, nothing else changes; with a
    timer entry for the pin nothing is raised. *)
Lemma status_part_spec pin σ :
  exists r σ',
    status_part env pin σ = (r, σ', []) /\ later σ σ' /\
    (In pin MONITORED_PINS -> is_Some (gpio_timers (self σ) !! pin) -> exists part, r = Val part).
Proof.
  unfold status_part, gpio_timers_at, safety_rule, bind. cbn.
  destruct (gpio_states (self σ) !! pin) as [[[|?|?]|]|] eqn:Hst; cbn;
    try (do 2 eexists; split; [reflexivity|]; split; [apply later_refl|]; eauto).
  destruct (gpio_timers (self σ) !! pin) as [[since|]|] eqn:Ht; cbn.
  - destruct (SAFETY_RULES !! pin) as [mx|] eqn:Hrule; cbn.
    + do 2 eexists; split; [reflexivity|]; split; [apply (later_ticked σ)|]; eauto.
    + do 2 eexists; split; [reflexivity|]; split; [apply (later_ticked σ)|].
      intros Hin _. destruct (monitored_rule pin Hin) as (mx & Hmx & _). congruence.
  - do 2 eexists; split; [reflexivity|]; split; [apply later_refl|]; eauto.
  - do 2 eexists; split; [reflexivity|]; split; [apply later_refl|].
    intros _ [? ?]. discriminate.
Qed.

Lemma status_parts_cons pin rest σ :
  status_parts env (pin :: rest) σ =
    match status_part env pin σ with
    | (Val part, σ1, t1) =>
        match status_parts env rest σ1 with
        | (Val parts, σ2, t2) => (Val (part :: parts), σ2, t1 ++ t2 ++ [])
        | (Exc e, σ2, t2) => (Exc e, σ2, t1 ++ t2)
        end
    | (Exc e, σ1, t1) => (Exc e, σ1, t1)
    end.
Proof.
  unfold status_parts at 1. fold (status_parts env). unfold bind.
  destruct (status_part env pin σ) as [[[part|e] σ1] t1]; [|reflexivity].
  destruct (status_parts env rest σ1) as [[[parts|e] σ2] t2]; reflexivity.
Qed.

Lemma status_parts_spec pins σ :
  exists r σ',
    status_parts env pins σ = (r, σ', []) /\ later σ σ' /\
    ((forall q, In q pins -> In q MONITORED_PINS /\ is_Some (gpio_timers (self σ) !! q)) ->
     exists parts, r = Val parts).
Proof.
  revert σ. induction pins as [|pin rest IH]; intros σ.
  - do 2 eexists. split; [reflexivity|]. split; [apply later_refl|]. eauto.
  - rewrite status_parts_cons.
    destruct (status_part_spec pin σ) as (r1 & σ1 & E1 & L1 & V1). rewrite E1.
    destruct r1 as [part|e].
    + destruct (IH σ1) as (r2 & σ2 & E2 & L2 & V2). rewrite E2.
      destruct r2 as [parts|e]; do 2 eexists; (split; [reflexivity|]);
        (split; [eapply later_trans; eassumption|]); eauto.
      intros Hall. destruct V2 as [parts Hparts]; [|discriminate].
      intros q Hq. destruct (Hall q (or_intror Hq)) as [Hm Ht].
      split; [exact Hm|]. destruct L1 as (-> & _). exact Ht.
    + do 2 eexists. split; [reflexivity|]. split; [exact L1|].
      intros Hall. destruct (Hall pin (or_introl eq_refl)) as [Hm Ht].
      destruct (V1 Hm Ht) as [part Hpart]. discriminate.
Qed.

(** A round of the loop is its tick, then readings of the clock, the status
    record and the sleep. *)
Lemma loop_body_spec status_interval last σ :
  exists rt σt outt,
    check_safety_violations env σ = (rt, σt, outt) /\
    match rt with
    | Exc e => loop_body env status_interval last σ = (Exc e, σt, outt)
    | Val _ =>
        exists r σ' rest,
          loop_body env status_interval last σ = (r, σ', outt ++ rest) /\
          later σt σ' /\ Forall idle_event rest /\
          (tracked σt -> exists last', r = Val last')
    end.
Proof.
  destruct (check_safety_violations env σ) as [[rt σt] outt] eqn:E.
  exists rt, σt, outt. split; [reflexivity|].
  unfold loop_body, bind. rewrite E.
  destruct rt as [v|e]; [|reflexivity].
  cbn.
  destruct (wall_clock env (nows (world σt)) - last >=? status_interval * 1000000); cbn.
  - unfold get_status_summary.
    destruct (status_parts_spec MONITORED_PINS (ticked σt)) as (r & σ' & Es & L & V).
    unfold ticked in Es. rewrite Es.
    destruct r as [parts|e]; cbn; do 3 eexists; (split; [reflexivity|]).
    + split; [eapply later_trans; [apply later_ticked|exact L]|].
      split; [repeat constructor|]. eauto.
    + split; [eapply later_trans; [apply later_ticked|exact L]|].
      split; [constructor|].
      intros Htr. destruct V as [parts Hparts]; [|discriminate].
      intros q Hq. split; [exact Hq|]. apply Htr. exact Hq.
  - do 3 eexists. split; [reflexivity|].
    split; [apply (later_ticked σt)|]. split; [repeat constructor|]. eauto.
Qed.

(** What holds of the state through every step of the loop of a tick, and
    of every event of a step, holds through the loop. *)
Lemma check_pins_preserves (P : State -> Prop) (φ : Event -> Prop) now :
  (forall q v σa r σb out,
     In q MONITORED_PINS -> P σa -> pin_step env now q v σa r σb out ->
     P σb /\ Forall φ out) ->
  forall pins, (forall q, In q pins -> In q MONITORED_PINS) ->
  forall v σ r σ' out,
    P σ -> check_pins env now pins v σ = (r, σ', out) -> P σ' /\ Forall φ out.
Proof.
  intros Hstep pins. induction pins as [|q rest IH]; intros Hmon v σ r σ' out HP E.
  - cbn in E. injection E as <- <- <-. split; [exact HP|constructor].
  - rewrite check_pins_cons in E.
    destruct (monitored_rule q) as (mx & Hrule & Hpos); [apply Hmon; left; reflexivity|].
    destruct (check_pin_step now q v σ mx Hrule ltac:(lia)) as (r1 & σ1 & t1 & E1 & H1).
    rewrite E1 in E.
    destruct (Hstep q v σ r1 σ1 t1 (Hmon q (or_introl eq_refl)) HP H1) as [HP1 Hφ1].
    destruct r1 as [v1|e].
    + destruct (check_pins env now rest v1 σ1) as [[r2 σ2] t2] eqn:E2.
      injection E as <- <- <-.
      destruct (IH ltac:(intros q' Hq'; apply Hmon; right; exact Hq') _ _ _ _ _ HP1 E2)
        as [HP2 Hφ2].
      split; [exact HP2|apply Forall_app_2; assumption].
    + injection E as <- <- <-. split; assumption.
Qed.

(** The same for a tick. *)
Lemma tick_preserves (P : State -> Prop) (φ : Event -> Prop) σ :
  P (ticked σ) ->
  (forall q v σa r σb out,
     In q MONITORED_PINS -> P σa -> pin_step env (tick_now env σ) q v σa r σb out ->
     P σb /\ Forall φ out) ->
  forall r σ' out,
    check_safety_violations env σ = (r, σ', out) -> P σ' /\ Forall φ out.
Proof.
  intros HP Hstep r σ' out E. rewrite check_safety_violations_run in E.
  eapply check_pins_preserves; [exact Hstep| |exact HP|exact E]. auto.
Qed.

Lemma loop_succ n status_interval last σ :
  loop env (S n) status_interval last σ =
    match loop_body env status_interval last σ with
    | (Val last', σ1, t1) =>
        let '(r, σ2, t2) := loop env n status_interval last' σ1 in (r, σ2, t1 ++ t2)
    | (Exc e, σ1, t1) => (Exc e, σ1, t1)
    end.
Proof. reflexivity. Qed.

(** What every tick preserves, and readings of the clock do not disturb,
    holds after any number of rounds of the loop. *)
Lemma loop_preserves (P : State -> Prop) (φ : Event -> Prop) :
  (forall σ r σ' out,
     P σ -> check_safety_violations env σ = (r, σ', out) -> P σ' /\ Forall φ out) ->
  (forall σ σ', P σ -> later σ σ' -> P σ') ->
  (forall e, idle_event e -> φ e) ->
  forall n status_interval last σ r σ' out,
    P σ -> loop env n status_interval last σ = (r, σ', out) -> P σ' /\ Forall φ out.
Proof.
  intros Htick Hlater Hidle n. induction n as [|n IH]; intros si last σ r σ' out HP E.
  - cbn in E. injection E as <- <- <-. split; [exact HP|constructor].
  - rewrite loop_succ in E.
    destruct (loop_body_spec si last σ) as (rt & σt & outt & Et & Hbody).
    destruct (Htick σ rt σt outt HP Et) as [HPt Hφt].
    destruct rt as [v|e].
    + destruct Hbody as (r1 & σ1 & rest & E1 & L & Hrest & _).
      rewrite E1 in E.
      assert (HP1 : P σ1) by (eapply Hlater; eassumption).
      assert (Hφ1 : Forall φ (outt ++ rest)).
      { apply Forall_app_2; [exact Hφt|]. eapply Forall_impl; [exact Hrest|exact Hidle]. }
      destruct r1 as [last'|e].
      * destruct (loop env n si last' σ1) as [[r2 σ2] t2] eqn:E2.
        injection E as <- <- <-.
        destruct (IH _ _ _ _ _ _ HP1 E2) as [HP2 Hφ2].
        split; [exact HP2|apply Forall_app_2; assumption].
      * injection E as <- <- <-. split; assumption.
    + rewrite Hbody in E. injection E as <- <- <-. split; assumption.
Qed.

Lemma tracked_later σ σ' : tracked σ -> later σ σ' -> tracked σ'.
Proof. intros Htr (Hs & _) q Hq. rewrite Hs. apply Htr, Hq. Qed.

(** From a state where every monitored pin has a timer entry the loop
    raises nothing. *)
Lemma loop_returns n :
  forall status_interval last σ,
    tracked σ ->
    exists last' σ' out,
      loop env n status_interval last σ = (Val last', σ', out) /\ tracked σ'.
Proof.
  induction n as [|n IH]; intros si last σ Htr.
  - do 3 eexists. split; [reflexivity|exact Htr].
  - rewrite loop_succ.
    destruct (loop_body_spec si last σ) as (rt & σt & outt & Et & Hbody).
    destruct (tick_returns σ Htr) as (v & σt' & outt' & Et' & Htrt & _).
    rewrite Et' in Et. injection Et as <- <- <-.
    destruct Hbody as (r1 & σ1 & rest & E1 & L & _ & Hval).
    destruct (Hval Htrt) as [last' ->]. rewrite E1.
    destruct (IH si last' σ1 (tracked_later _ _ Htrt L)) as (last'' & σ' & out & E2 & Htr').
    rewrite E2. do 3 eexists. split; [reflexivity|exact Htr'].
Qed.

Lemma seed_pin_run pin σ :
  seed_pin env pin σ =
    (Val tt,
     with_self (set_timer pin None) (with_self (set_state pin (next_read env σ pin)) (got pin σ)),
     read_events pin (raspi_gpio_get env pin (gets (world σ) pin)) ++
     [EvLog INFO (CurrentState pin (next_read env σ pin))]).
Proof.
  unfold seed_pin, bind, next_read. rewrite read_gpio_run. reflexivity.
Qed.

Lemma read_events_seed pin r : Forall seed_event (read_events pin r).
Proof. destruct r; repeat constructor. Qed.

(** The dry-run seeding of [run_safeguard]. *)
Lemma seed_pins_spec pins :
  NoDup pins ->
  forall σ,
  exists σ' out,
    for_each (seed_pin env) pins σ = (Val tt, σ', out) /\
    dry_run (self σ') = dry_run (self σ) /\
    violations_count (self σ') = violations_count (self σ) /\
    Forall seed_event out /\
    (forall q, ~ In q pins ->
       gpio_states (self σ') !! q = gpio_states (self σ) !! q /\
       gpio_timers (self σ') !! q = gpio_timers (self σ) !! q /\
       gets (world σ') q = gets (world σ) q) /\
    (forall p, In p pins ->
       gpio_states (self σ') !! p = Some (next_read env σ p) /\
       gpio_timers (self σ') !! p = Some None /\
       gets (world σ') p = S (gets (world σ) p)).
Proof.
  induction pins as [|pin rest IH]; intros Hnd σ.
  - exists σ, []. split; [reflexivity|].
    split_and!; try reflexivity;
      [constructor | intros; split_and!; reflexivity | intros p []].
  - apply NoDup_cons in Hnd as [Hnotin Hnd]. rewrite list_elem_of_In in Hnotin.
    rewrite for_each_cons, seed_pin_run.
    set (σ1 := with_self (set_timer pin None)
                 (with_self (set_state pin (next_read env σ pin)) (got pin σ))).
    destruct (IH Hnd σ1) as (σ' & out & E & Hd & Hv & Hev & Hout & Hin).
    rewrite E. exists σ'. eexists. split; [reflexivity|].
    split_and!; try assumption.
    + apply Forall_app_2; [|exact Hev].
      apply Forall_app_2; [apply read_events_seed|repeat constructor].
    + intros q Hq.
      assert (q <> pin) by (intros ->; apply Hq; left; reflexivity).
      destruct (Hout q) as (A & B & C); [intros ?; apply Hq; right; assumption|].
      rewrite A, B, C. subst σ1; cbn.
      rewrite !lookup_insert_ne by congruence. rewrite bump_other by assumption.
      split_and!; reflexivity.
    + intros p [<-|Hp].
      * destruct (Hout pin Hnotin) as (A & B & C). rewrite A, B, C. subst σ1; cbn.
        rewrite !lookup_insert_eq, bump_same. split_and!; reflexivity.
      * assert (p <> pin) by (intros ->; contradiction).
        destruct (Hin p Hp) as (A & B & C). rewrite A, B, C.
        unfold next_read. subst σ1; cbn. rewrite bump_other by assumption.
        split_and!; reflexivity.
Qed.

(** [startup] in live mode: the banner, [initialize_gpios], the clock. *)
Lemma startup_live σ :
  dry_run (self σ) = false ->
  exists σi outi,
    for_each (initialize_pin env) MONITORED_PINS σ = (Val tt, σi, outi) /\
    startup env σ =
      (Val (tick_now env σi), ticked σi,
       banner false ++ EvLog INFO InitializingGpios :: outi ++ []).
Proof.
  intros Hlive.
  destruct (initialize_pins_spec MONITORED_PINS NoDup_MONITORED_PINS σ)
    as (σi & outi & E & _).
  exists σi, outi. split; [exact E|].
  unfold startup, initialize_gpios, bind. cbn. rewrite Hlive. cbn. rewrite E. reflexivity.
Qed.

(** [startup] in dry-run mode: the banner, the seeding, the clock. *)
Lemma startup_dry σ :
  dry_run (self σ) = true ->
  exists σs outs,
    for_each (seed_pin env) MONITORED_PINS σ = (Val tt, σs, outs) /\
    startup env σ = (Val (tick_now env σs), ticked σs, banner true ++ outs ++ []).
Proof.
  intros Hdry.
  destruct (seed_pins_spec MONITORED_PINS NoDup_MONITORED_PINS σ) as (σs & outs & E & _).
  exists σs, outs. split; [exact E|].
  unfold startup, bind. cbn. rewrite Hdry. cbn. rewrite E. reflexivity.
Qed.

Lemma read_events_no_writes pin r : no_writes (read_events pin r).
Proof. destruct r; repeat constructor. Qed.

Lemma returned_log_no_writes now pin timer : no_writes (returned_log now pin timer).
Proof. destruct timer; repeat constructor. Qed.

Ltac solve_class :=
  repeat first
    [ assumption
    | apply Forall_app_2
    | apply read_events_no_writes
    | apply returned_log_no_writes
    | apply List.Forall_nil
    | apply List.Forall_cons; [first [reflexivity | exact I | cbn; congruence]|] ].

(** In dry-run mode the step of a pin writes nothing. *)
Lemma pin_step_dry now q v σ r σ' out :
  dry_run (self σ) = true ->
  pin_step env now q v σ r σ' out ->
  dry_run (self σ') = true /\ no_writes out.
Proof.
  intros Hdry H.
  pose proof (pin_step_steady _ _ _ _ _ _ _ H) as (Hd & _).
  split; [congruence|].
  destruct H; unfold no_writes;
    try match goal with
        | Hp : set_gpio_post _ _ _ _ _ _ _ |- _ =>
            destruct Hp as (_ & _ & _ & _ & Hmode); cbn in Hmode;
            rewrite Hdry in Hmode; destruct Hmode as [-> _]
        end;
    solve_class.
Qed.

(** In dry-run mode a tick writes nothing. *)
Lemma tick_dry σ r σ' out :
  dry_run (self σ) = true ->
  check_safety_violations env σ = (r, σ', out) ->
  dry_run (self σ') = true /\ no_writes out.
Proof.
  intros Hdry E.
  eapply (tick_preserves (fun σ => dry_run (self σ) = true) (fun e => is_set e = false) σ
            Hdry); [|exact E].
  intros q v σa ra σb outb _ Ha Hstep. eapply pin_step_dry; eassumption.
Qed.

(** In dry-run mode the run up to any round of the loop writes nothing. *)
Lemma running_dry status_interval n σ r σ' out :
  dry_run (self σ) = true ->
  running env status_interval n σ = (r, σ', out) ->
  dry_run (self σ') = true /\ no_writes out.
Proof.
  intros Hdry E. unfold running, bind in E.
  destruct (startup_dry σ Hdry) as (σs & outs & Es & Est).
  destruct (seed_pins_spec MONITORED_PINS NoDup_MONITORED_PINS σ)
    as (σs' & outs' & Es' & Hd & _ & Hev & _).
  rewrite Es in Es'. injection Es' as <- <-.
  rewrite Est in E.
  destruct (loop env n status_interval (tick_now env σs) (ticked σs)) as [[r2 σ2] t2] eqn:E2.
  injection E as <- <- <-.
  assert (Hloop : dry_run (self σ2) = true /\ Forall (fun e => is_set e = false) t2).
  { eapply (loop_preserves (fun σ => dry_run (self σ) = true) (fun e => is_set e = false));
      [| | | |exact E2].
    - intros. eapply tick_dry; eassumption.
    - intros ? ? ? (-> & _). assumption.
    - intros [] He; try reflexivity; destruct He.
    - cbn. congruence. }
  destruct Hloop as [Hd2 Hw2].
  split; [exact Hd2|].
  unfold no_writes. cbn. repeat (apply List.Forall_cons; [reflexivity|]).
  rewrite ?app_nil_r. apply Forall_app_2; [|exact Hw2].
  eapply Forall_impl; [exact Hev|]. intros [] He; try reflexivity; destruct He.
Qed.

(** In dry-run mode [main] writes nothing. *)
Lemma main_dry status_interval n σ r σ' out :
  main env true status_interval n σ = (r, σ', out) -> no_writes out.
Proof.
  intros E. unfold main, bind in E. cbn in E.
  destruct (access_check_spec MONITORED_PINS NoDup_MONITORED_PINS true
              (with_self (fun _ => new_GPIOSafeguard true) σ))
    as (acc & σ1 & out1 & Ea & Hself & _ & _ & Hev & _).
  unfold with_self in Ea. rewrite Ea in E.
  assert (Hw1 : no_writes out1).
  { eapply Forall_impl; [exact Hev|]. intros [] He; try reflexivity; destruct He. }
  destruct acc; cbn in E.
  - unfold try_except, run_safeguard, bind in E.
    destruct (running env status_interval n σ1) as [[r2 σ2] t2] eqn:E2.
    destruct (running_dry status_interval n σ1 r2 σ2 t2) as [_ Hw2];
      [rewrite Hself; reflexivity|exact E2|].
    destruct r2 as [last|[k|code]]; cbn in E; injection E as <- <- <-;
      unfold no_writes in *; solve_class.
  - injection E as <- <- <-. unfold no_writes in *. solve_class.
Qed.

(** A tick that finds a monitored pin overdue and reads it at 0. *)
Lemma tick_overdue σ pin since max_allowed :
  tracked σ ->
  In pin MONITORED_PINS ->
  gpio_states (self σ) !! pin = Some (Some 0) ->
  gpio_timers (self σ) !! pin = Some (Some since) ->
  SAFETY_RULES !! pin = Some max_allowed ->
  tick_now env σ - since > max_allowed ->
  next_read env σ pin = Some 0 ->
  exists v σ' out b σx σ1 out1,
    check_safety_violations env σ = (Val v, σ', out) /\
    set_gpio env pin 1 σx = (Val b, σ1, out1) /\
    set_gpio_post env pin 1 σx b σ1 out1 /\
    dry_run (self σx) = dry_run (self σ) /\
    gets (world σx) pin = S (gets (world σ) pin) /\
    violations_count (self σ) < violations_count (self σ') /\
    In (EvLog WARNING (SafetyViolation pin (tick_now env σ - since) max_allowed)) out /\
    (forall e, In e out1 -> In e out) /\
    (if b
     then In (EvLog WARNING (ForcedToSafe pin)) out /\
          gpio_timers (self σ') !! pin = Some None /\
          gpio_states (self σ') !! pin = Some (Some 1) /\
          corrections_made (self σ) < corrections_made (self σ')
     else In (EvLog ERROR (CriticalFailedToCorrect pin)) out /\
          gpio_timers (self σ') !! pin = Some (Some since) /\
          gpio_states (self σ') !! pin = Some (Some 0)).
Proof.
  intros Htr Hin Hst Htm Hrule Hgt Hread.
  destruct (tick_returns σ Htr) as (v & σ' & out & E & _ & _).
  pose proof (tick_focus pin σ _ _ _ Hin E) as F.
  inversion F as [| |va σa ta vb σb tb r0 σ0 tc (A & B & C & _) Sa Hstep (A' & B' & _) Sb]; subst.
  cbn in A, B, C.
  destruct (pin_step_overdue (tick_now env σ) pin va σa (Val vb) σb tb since max_allowed)
    as (b & σ1 & out1 & Eset & Hpost & _ & -> & ->);
    [unfold next_read in *; rewrite C; exact Hread
    |congruence|congruence|exact Hrule|exact Hgt|exact Hstep|].
  exists v, σ', (ta ++ (read_events pin (raspi_gpio_get env pin (gets (world σa) pin)) ++
                  EvLog WARNING (SafetyViolation pin (tick_now env σ - since) max_allowed)
                  :: out1 ++
                     [if b then EvLog WARNING (ForcedToSafe pin)
                      else EvLog ERROR (CriticalFailedToCorrect pin)]) ++ tc),
    b, (with_self incr_violations (got pin σa)), σ1, out1.
  pose proof Hpost as ((Hself & _) & _).
  destruct Sa as (Da & _ & Va & Ca & _). destruct Sb as (_ & _ & Vb & Cb & _).
  cbn in Da, Va, Ca, Hself.
  split_and!; try assumption.
  - cbn. rewrite bump_same. congruence.
  - assert (violations_count (self σa) + 1 <= violations_count (self σ')); [|lia].
    destruct b; cbn in Vb; rewrite Hself in Vb; cbn in Vb; lia.
  - in_tac.
  - intros e He. in_tac.
  - destruct b; cbn in A', B', Cb; rewrite Hself in A', B', Cb; cbn in A', B', Cb.
    + rewrite lookup_insert_eq in A', B'. split_and!; try assumption; [in_tac|lia].
    + split_and!; [in_tac|congruence|congruence].
Qed.

(** The step of a pin keeps: a timer is set only for a pin tracked at 0. *)
Lemma pin_step_timer_low now q v σ r σ' out :
  pin_step env now q v σ r σ' out ->
  (forall p, timer_set (self σ) p -> tracked_low (self σ) p) ->
  forall p, timer_set (self σ') p -> tracked_low (self σ') p.
Proof.
  intros H I p. unfold timer_set, tracked_low in *.
  destruct (Z.eq_dec q p) as [->|Hne].
  - specialize (I p). revert I.
    step_cases H; cbn; rewrite ?Hself; cbn; rewrite ?lookup_insert_eq;
      intros I [t Ht]; try (apply I; eauto; fail); try congruence.
  - destruct (pin_step_apart now q v σ r σ' out p Hne H) as (-> & -> & _). apply I.
Qed.

(** The step of a pin keeps: a pin tracked at 0 has its timer set. *)
Lemma pin_step_low_timer now q v σ r σ' out :
  pin_step env now q v σ r σ' out ->
  (forall p, tracked_low (self σ) p -> timer_set (self σ) p) ->
  forall p, tracked_low (self σ') p -> timer_set (self σ') p.
Proof.
  intros H I p. unfold timer_set, tracked_low in *.
  destruct (Z.eq_dec q p) as [->|Hne].
  - specialize (I p). revert I.
    step_cases H; cbn; rewrite ?Hself; cbn; rewrite ?lookup_insert_eq;
      intros I Hst; try (apply I; assumption); try congruence; eauto.
  - destruct (pin_step_apart now q v σ r σ' out p Hne H) as (-> & -> & _). apply I.
Qed.

(** A pin whose timer is set, or that is tracked at 1, before a step has
    its timer set or is tracked at 1 after it: a timer is cleared only by a
    step that tracks the pin at 1. *)
Lemma pin_step_cleared now q v σ r σ' out pin :
  pin_step env now q v σ r σ' out ->
  (timer_set (self σ) pin -> tracked_low (self σ) pin) ->
  timer_set (self σ) pin \/ gpio_states (self σ) !! pin = Some (Some 1) ->
  timer_set (self σ') pin \/ gpio_states (self σ') !! pin = Some (Some 1).
Proof.
  intros H I Hor. unfold timer_set, tracked_low in *.
  destruct (Z.eq_dec q pin) as [->|Hne].
  - assert (Hcases :
      (gpio_states_get (self σ) pin = Some 0 /\ exists t, gpio_timers (self σ) !! pin = Some (Some t))
      \/ gpio_states_get (self σ) pin = Some 1).
    { destruct Hor as [Ht|Hs].
      - left. split; [apply gpio_states_get_0, I, Ht|exact Ht].
      - right. apply gpio_states_get_0, Hs. }
    clear I Hor.
    step_cases H; cbn; rewrite ?Hself; cbn; rewrite ?lookup_insert_eq; eauto;
      destruct Hcases as [[Hs [t Ht]]|Hs]; try congruence; eauto.
    all: right; apply gpio_states_get_0; assumption.
  - destruct (pin_step_apart now q v σ r σ' out pin Hne H) as (-> & -> & _). exact Hor.
Qed.

(** After [startup] from a new object no timer is set and, in live mode, no
    pin is tracked at 0. *)
Lemma startup_inv dry w r σ out :
  startup env {| self := new_GPIOSafeguard dry; world := w |} = (r, σ, out) ->
  dry_run (self σ) = dry /\
  (forall p, ~ timer_set (self σ) p) /\
  (dry = false -> forall p, ~ tracked_low (self σ) p).
Proof.
  set (σ0 := {| self := new_GPIOSafeguard dry; world := w |}).
  intros E. unfold timer_set, tracked_low.
  destruct dry.
  - destruct (startup_dry σ0 eq_refl) as (σs & outs & Es & Est).
    rewrite Est in E. injection E as <- <- <-.
    destruct (seed_pins_spec MONITORED_PINS NoDup_MONITORED_PINS σ0)
      as (σs' & outs' & Es' & Hd & _ & _ & Hout & Hin).
    rewrite Es in Es'. injection Es' as <- <-. cbn.
    split; [exact Hd|]. split; [|discriminate].
    intros p [t Ht].
    destruct (in_dec Z.eq_dec p MONITORED_PINS) as [Hp|Hp].
    + destruct (Hin p Hp) as (_ & Htm & _). congruence.
    + destruct (Hout p Hp) as (_ & Htm & _). rewrite Htm in Ht. cbn in Ht.
      rewrite lookup_empty in Ht. discriminate.
  - destruct (startup_live σ0 eq_refl) as (σi & outi & Ei & Est).
    rewrite Est in E. injection E as <- <- <-.
    destruct (initialize_pins_spec MONITORED_PINS NoDup_MONITORED_PINS σ0)
      as (σi' & outi' & Ei' & (Hd & _) & Hout & Hin).
    rewrite Ei in Ei'. injection Ei' as <- <-. cbn.
    split; [exact Hd|].
    assert (Hentries : forall p,
      (gpio_states (self σi) !! p = None /\ gpio_timers (self σi) !! p = None) \/
      (gpio_states (self σi) !! p = Some (Some 1) /\ gpio_timers (self σi) !! p = Some None)).
    { intros p. destruct (in_dec Z.eq_dec p MONITORED_PINS) as [Hp|Hp].
      - destruct (Hin p Hp) as [Hnone Hsome].
        destruct (next_read env σ0 p) eqn:Hr.
        + right. apply Hsome. discriminate.
        + left. destruct (Hnone eq_refl) as [-> ->]. cbn. rewrite !lookup_empty. tauto.
      - left. destruct (Hout p Hp) as (-> & -> & _). cbn. rewrite !lookup_empty. tauto. }
    split.
    + intros p [t Ht]. destruct (Hentries p) as [[_ H]|[_ H]]; congruence.
    + intros _ p Hs. destruct (Hentries p) as [[H _]|[H _]]; congruence.
Qed.

Lemma pin_step_timer_invariant now q v σ r σ' out :
  pin_step env now q v σ r σ' out -> timer_invariant σ -> timer_invariant σ'.
Proof.
  intros H [I1 I2]. split.
  - eapply pin_step_timer_low; eassumption.
  - intros Hlive. eapply pin_step_low_timer; [exact H|].
    apply I2. destruct (pin_step_steady _ _ _ _ _ _ _ H) as (<- & _). exact Hlive.
Qed.

Lemma tick_timer_invariant σ r σ' out :
  timer_invariant σ ->
  check_safety_violations env σ = (r, σ', out) ->
  timer_invariant σ'.
Proof.
  intros I E.
  assert (HP : timer_invariant σ' /\ Forall (fun _ => True) out); [|apply HP].
  eapply (tick_preserves timer_invariant (fun _ => True) σ I); [|exact E].
  intros q v σa ra σb outb _ Ia Hstep.
  split; [eapply pin_step_timer_invariant; eassumption|].
  apply Forall_forall; intros; constructor.
Qed.

(** The invariant holds in every state of the controller. *)
Lemma reachable_timer_invariant σ : reachable env σ -> timer_invariant σ.
Proof.
  intros (dry & w & si & n & r & out & E).
  unfold running, bind in E.
  destruct (startup env {| self := new_GPIOSafeguard dry; world := w |})
    as [[r1 σ1] t1] eqn:E1.
  destruct (startup_inv dry w r1 σ1 t1 E1) as (Hd & Hnone & Hlow).
  assert (I1 : timer_invariant σ1).
  { split.
    - intros p Hp. destruct (Hnone p Hp).
    - intros Hlive p Hp. destruct (Hlow ltac:(congruence) p Hp). }
  destruct r1 as [last|e].
  - destruct (loop env n si last σ1) as [[r2 σ2] t2] eqn:E2.
    injection E as <- <- <-.
    assert (Hloop : timer_invariant σ2 /\ Forall (fun _ => True) t2); [|apply Hloop].
    eapply (loop_preserves timer_invariant (fun _ => True)); [| | |exact I1|exact E2].
    + intros σa ra σb outb Ia Ea. split; [eapply tick_timer_invariant; eassumption|].
      apply Forall_forall; intros; constructor.
    + intros σa σb Ia (Hs & _). unfold timer_invariant. rewrite Hs. exact Ia.
    + intros; constructor.
  - injection E as <- <- <-. exact I1.
Qed.

(** Over a tick a timer that was set is still set, or the pin is tracked
    at 1. *)
Lemma tick_cleared σ r σ' out pin :
  timer_invariant σ ->
  check_safety_violations env σ = (r, σ', out) ->
  timer_set (self σ) pin ->
  timer_set (self σ') pin \/ gpio_states (self σ') !! pin = Some (Some 1).
Proof.
  intros I E Hset.
  set (P := fun σa : State =>
              timer_invariant σa /\
              (timer_set (self σa) pin \/ gpio_states (self σa) !! pin = Some (Some 1))).
  assert (HP : P σ' /\ Forall (fun _ => True) out); [|apply HP].
  eapply (tick_preserves P (fun _ => True) σ); [| |exact E].
  - split; [exact I|left; exact Hset].
  - intros q v σa ra σb outb _ [Ia Hor] Hstep. split; [split|].
    + eapply pin_step_timer_invariant; eassumption.
    + eapply pin_step_cleared; [exact Hstep| |exact Hor]. apply Ia.
    + apply Forall_forall; intros; constructor.
Qed.

Lemma silent_not_violation pin out : silent_on pin out -> Forall (not_violation_of pin) out.
Proof.
  intros H. eapply Forall_impl; [exact H|].
  intros e He el mx ->. apply He. reflexivity.
Qed.

Lemma read_events_not_violation pin q r : Forall (not_violation_of pin) (read_events q r).
Proof. destruct r; repeat constructor; intros el mx; discriminate. Qed.

(** The step of a pin that sets a timer that was not set: the pin was read
    at 0 and was not tracked at 0. *)
Lemma pin_step_started now pin v σ r σ' out :
  pin_step env now pin v σ r σ' out ->
  ~ timer_set (self σ) pin -> timer_set (self σ') pin ->
  ~ tracked_low (self σ) pin /\ tracked_low (self σ') pin /\
  next_read env σ pin = Some 0 /\ exists v', r = Val v'.
Proof.
  unfold timer_set, tracked_low, next_read. intros H Hno Hset.
  step_cases H; revert Hset; cbn; rewrite ?Hself; cbn; rewrite ?lookup_insert_eq;
    intros [t Ht]; try (exfalso; apply Hno; eauto; fail); try congruence.
  split_and!; eauto. intros Hlow. apply gpio_states_get_0 in Hlow. congruence.
Qed.

(** A tick sets the timer of a monitored pin only when it reads the pin at
    0 and the pin was not tracked at 0. *)
Lemma tick_timer_started σ r σ' out pin :
  In pin MONITORED_PINS ->
  check_safety_violations env σ = (r, σ', out) ->
  ~ timer_set (self σ) pin -> timer_set (self σ') pin ->
  ~ tracked_low (self σ) pin /\ tracked_low (self σ') pin /\ next_read env σ pin = Some 0.
Proof.
  intros Hin E Hno Hset.
  pose proof (tick_focus pin σ r σ' out Hin E) as F.
  unfold timer_set, tracked_low, next_read in *.
  destruct F as [e σ' out (A & B & C & _) _
                |va σa ta e σb tb (A & B & C & _) _ Hstep
                |va σa ta vb σb tb r σ' tc (A & B & C & _) _ Hstep (A' & B' & _) _];
    cbn in A, B, C.
  - exfalso. apply Hno. rewrite <- B. exact Hset.
  - destruct (pin_step_started _ _ _ _ _ _ _ Hstep) as (_ & _ & _ & v' & Hv);
      [unfold timer_set; rewrite B; exact Hno|exact Hset|discriminate].
  - destruct (pin_step_started _ _ _ _ _ _ _ Hstep) as (H1 & H2 & H3 & _);
      [unfold timer_set; rewrite B; exact Hno
      |unfold timer_set; rewrite <- B'; exact Hset|].
    unfold tracked_low, next_read in *. rewrite A in H1. rewrite C in H3. rewrite A'.
    split_and!; assumption.
Qed.

(** While a pin tracked at 0 with no timer reads 0, its step changes nothing
    and declares no violation. *)
Lemma pin_step_low_untimed now q v σ r σ' out pin k0 :
  (forall k, (k0 <= k)%nat -> read_level (raspi_gpio_get env pin k) = Some 0) ->
  pin_step env now q v σ r σ' out ->
  low_untimed pin k0 σ ->
  low_untimed pin k0 σ' /\ Forall (not_violation_of pin) out.
Proof.
  intros Hreads H (Hst & Htm & Hk). unfold low_untimed.
  destruct (Z.eq_dec q pin) as [->|Hne].
  - specialize (Hreads _ Hk). apply gpio_states_get_0 in Hst.
    destruct H; try congruence.
    cbn. rewrite bump_same. apply gpio_states_get_0 in Hst.
    split_and!; try assumption; [lia|apply read_events_not_violation].
  - destruct (pin_step_apart now q v σ r σ' out pin Hne H) as (-> & -> & -> & _ & Hsil).
    split_and!; try assumption. apply silent_not_violation, Hsil.
Qed.

(** The same over any number of rounds of the loop. *)
Lemma loop_low_untimed pin k0 n status_interval last σ r σ' out :
  (forall k, (k0 <= k)%nat -> read_level (raspi_gpio_get env pin k) = Some 0) ->
  low_untimed pin k0 σ ->
  loop env n status_interval last σ = (r, σ', out) ->
  low_untimed pin k0 σ' /\ Forall (not_violation_of pin) out.
Proof.
  intros Hreads Hlow E.
  eapply (loop_preserves (low_untimed pin k0) (not_violation_of pin)); [| | |exact Hlow|exact E].
  - intros σa ra σb outb Ha Ea.
    eapply (tick_preserves (low_untimed pin k0) (not_violation_of pin) σa); [exact Ha| |exact Ea].
    intros q v σc rc σd outd _ Hc Hstep. eapply pin_step_low_untimed; eassumption.
  - intros σa σb Ha (Hs & Hg & _). unfold low_untimed in *. rewrite Hs, Hg. exact Ha.
  - intros [] He el mx; try discriminate. destruct lvl, msg; try discriminate; destruct He.
Qed.





(** A tick removes no entry of [gpio_timers] and keeps the mode. *)
Lemma tick_keeps_tracked σ r σ' out :
  check_safety_violations env σ = (r, σ', out) ->
  dry_run (self σ') = dry_run (self σ) /\ (tracked σ -> tracked σ').
Proof.
  intros E.
  set (P := fun σa : State =>
              dry_run (self σa) = dry_run (self σ) /\ (tracked σ -> tracked σa)).
  assert (HP : P σ' /\ Forall (fun _ => True) out); [|apply HP].
  eapply (tick_preserves P (fun _ => True) σ); [| |exact E].
  - split; [reflexivity|intros H; exact H].
  - intros q v σa ra σb outb _ [Hd Htr] Hstep. split; [split|].
    + destruct (pin_step_steady _ _ _ _ _ _ _ Hstep) as (-> & _). exact Hd.
    + intros H p Hp. eapply pin_step_keeps_entries; [exact Hstep|]. apply Htr; assumption.
    + apply Forall_forall; intros; constructor.
Qed.

(** In dry-run mode every state of the controller has a timer entry for
    every monitored pin. *)
Lemma reachable_dry_tracked σ :
  reachable env σ -> dry_run (self σ) = true -> tracked σ.
Proof.
  intros (dry & w & si & n & r & out & E) Hdry.
  set (σ0 := {| self := new_GPIOSafeguard dry; world := w |}) in *.
  set (P := fun σa : State => dry_run (self σa) = dry /\ (dry = true -> tracked σa)).
  assert (HP : P σ); [|destruct HP as [<- HP]; apply HP, Hdry].
  unfold running, bind in E.
  destruct (startup env σ0) as [[r1 σ1] t1] eqn:E1.
  assert (HP1 : P σ1).
  { destruct (startup_inv dry w r1 σ1 t1 E1) as (Hd & _). split; [exact Hd|].
    intros ->.
    destruct (startup_dry σ0 eq_refl) as (σs & outs & Es & Est).
    destruct (seed_pins_spec MONITORED_PINS NoDup_MONITORED_PINS σ0)
      as (σs' & outs' & Es' & _ & _ & _ & _ & Hpins).
    rewrite Es in Es'. injection Es' as <- <-.
    rewrite Est in E1. injection E1 as <- <- <-.
    intros q Hq. destruct (Hpins q Hq) as (_ & Htm & _). cbn. rewrite Htm. eauto. }
  destruct r1 as [last|e].
  - destruct (loop env n si last σ1) as [[r2 σ2] t2] eqn:E2.
    injection E as <- <- <-.
    assert (Hloop : P σ2 /\ Forall (fun _ => True) t2); [|apply Hloop].
    eapply (loop_preserves P (fun _ => True)); [| | |exact HP1|exact E2].
    + intros σa ra σb outb [Hd Htr] Ea.
      destruct (tick_keeps_tracked σa ra σb outb Ea) as [Hd' Htr'].
      split; [split; [congruence|auto]|apply Forall_forall; intros; constructor].
    + intros σa σb [Hd Htr] L. split.
      * destruct L as (-> & _). exact Hd.
      * intros H. eapply tracked_later; [apply Htr, H|exact L].
    + intros; constructor.
  - injection E as <- <- <-. exact HP1.
Qed.

(** *** Substrings *)

Lemma prefix_append s1 s2 :
  String.prefix s1 s2 = true <-> exists post, s2 = String.append s1 post.
Proof.
  revert s2. induction s1 as [|a s1 IH]; intros s2.
  - destruct s2; cbn; split; eauto.
  - destruct s2 as [|b s2]; cbn.
    + split; [discriminate|intros [post H]; discriminate].
    + destruct (Ascii.ascii_dec a b) as [->|Hne].
      * rewrite IH. split; intros [post H]; exists post; [rewrite H; reflexivity|].
        injection H as H. exact H.
      * split; [discriminate|]. intros [post H]. injection H as H1 H2. congruence.
Qed.

Lemma contains_occurs needle hay : contains needle hay = true <-> occurs needle hay.
Proof.
  unfold occurs. induction hay as [|c hay IH].
  - cbn [contains]. rewrite orb_false_r, prefix_append. split.
    + intros [post H]. exists EmptyString, post. exact H.
    + intros (pre & post & H). destruct pre; cbn in H; [exists post; exact H|discriminate].
  - cbn [contains]. rewrite orb_true_iff, prefix_append, IH. split.
    + intros [[post H]|(pre & post & H)].
      * exists EmptyString, post. exact H.
      * exists (String c pre), post. cbn. rewrite H. reflexivity.
    + intros (pre & post & H). destruct pre as [|c' pre]; cbn in H.
      * left. exists post. exact H.
      * right. injection H as -> H. exists pre, post. exact H.
Qed.

(** *** The retry loop for any number of retries *)

Lemma writes_app t1 t2 : writes (t1 ++ t2) = (writes t1 + writes t2)%nat.
Proof. unfold writes. rewrite List.filter_app, List.length_app. reflexivity. Qed.

Lemma writes_io out : writes out = writes (io_events out).
Proof.
  unfold writes, io_events.
  induction out as [|e out IH]; [reflexivity|].
  destruct e; cbn; rewrite ?IH; reflexivity.
Qed.

Lemma write_of_io pin value out :
  (forall e, In e (io_events out) -> write_of pin value e) -> Forall (write_of pin value) out.
Proof.
  intros H. apply List.Forall_forall. intros e He.
  destruct e; try exact I.
  apply H, in_io_events. split; [exact He|reflexivity].
Qed.

(** One round of the loop runs one command, the command of the call. *)
Lemma set_gpio_attempt_writes pin value max_retries attempt σ :
  writes (set_gpio_attempt env pin value max_retries attempt σ).2 = 1%nat /\
  Forall (write_of pin value) (set_gpio_attempt env pin value max_retries attempt σ).2.
Proof.
  destruct (set_gpio_attempt_run pin value max_retries attempt σ) as (out & E & IO & _).
  rewrite E. cbn [snd]. split.
  - rewrite writes_io, IO.
    destruct (attempt_at env pin (drive_for value) (world σ)) as [|r];
      [|destruct (verified value (ReadBack r))];
      cbn; destruct (attempt <? max_retries - 1); reflexivity.
  - apply write_of_io. rewrite IO. intros e He.
    apply in_app_or in He as [He|He].
    + destruct (attempt_at env pin (drive_for value) (world σ)); cbn in He;
        repeat (destruct He as [<-|He]; [cbn; auto|]); destruct He.
    + destruct (verified value _); [destruct He|].
      destruct (attempt <? max_retries - 1); [|destruct He].
      destruct He as [<-|[]]. exact I.
Qed.

(** The loop over the attempts [i], ..., [i + m - 1], the last of which is
    attempt [max_retries - 1]. *)
Lemma set_gpio_loop_seq pin value max_retries m :
  forall i σ,
    Z.of_nat (i + m) = max_retries ->
    exists b σ' out,
      set_gpio_loop env pin value max_retries (map Z.of_nat (seq i m)) σ = (Val b, σ', out) /\
      io_on pin σ σ' /\
      Forall (write_of pin value) out /\
      (writes out <= m)%nat /\
      (b = false -> writes out = m) /\
      (b = true -> exists r, In (EvGet pin r) out /\ read_level r = Some value).
Proof.
  induction m as [|m IH]; intros i σ Hi.
  - exists false, σ, [].
    split_and!; try reflexivity; try discriminate;
      [apply io_on_refl|apply List.Forall_nil].
  - cbn [seq map]. rewrite set_gpio_loop_cons.
    destruct (set_gpio_attempt_writes pin value max_retries (Z.of_nat i) σ) as [W1 F1].
    destruct (set_gpio_attempt_run pin value max_retries (Z.of_nat i) σ) as (out1 & E1 & IO1 & _).
    rewrite E1 in W1, F1 |- *. cbn [snd] in W1, F1.
    pose proof (io_on_attempted pin (attempt_at env pin (drive_for value) (world σ)) σ) as Hio.
    set (a := attempt_at env pin (drive_for value) (world σ)) in *.
    destruct (verified value a) eqn:Hv.
    + exists true, (attempted pin a σ), (out1 ++ []). rewrite app_nil_r.
      split_and!; try assumption; try reflexivity; try lia; try discriminate.
      intros _. destruct a as [|r]; [discriminate|].
      exists r. cbn in Hv. apply option_Z_eqb_eq in Hv. split; [|exact Hv].
      apply (in_io_events (EvGet pin r) out1). rewrite IO1. cbn. tauto.
    + destruct (Z.of_nat i <? max_retries - 1) eqn:Hlt.
      * destruct (IH (S i) (attempted pin a σ)) as (b & σ' & out2 & E2 & Hio2 & F2 & W2 & Hf & Ht);
          [lia|].
        rewrite E2. exists b, σ', (out1 ++ out2).
        split_and!; try reflexivity.
        -- eapply io_on_trans; eassumption.
        -- apply Forall_app_2; assumption.
        -- rewrite writes_app. lia.
        -- intros Hb. rewrite writes_app, (Hf Hb). lia.
        -- intros Hb. destruct (Ht Hb) as (r & Hin & Hlvl). exists r. split; [|exact Hlvl].
           apply in_or_app. right. exact Hin.
      * apply Z.ltb_ge in Hlt.
        exists false, (attempted pin a σ), (out1 ++ []). rewrite app_nil_r.
        split_and!; try assumption; try reflexivity; try lia; try discriminate.
Qed.

(** [set_gpio] in live mode, for any [max_retries]. *)
Lemma set_gpio_retries_live pin value max_retries σ :
  dry_run (self σ) = false ->
  exists b σ' out,
    set_gpio_retries env pin value max_retries σ = (Val b, σ', out) /\
    io_on pin σ σ' /\
    Forall (write_of pin value) out /\
    (writes out <= Z.to_nat max_retries)%nat /\
    (b = false -> writes out = Z.to_nat max_retries) /\
    (b = true -> exists r, In (EvGet pin r) out /\ read_level r = Some value) /\
    (max_retries <= 0 -> b = false /\ out = []).
Proof.
  intros Hlive. unfold set_gpio_retries, range. unfold bind at 1. cbn. rewrite Hlive.
  destruct (Z.to_nat max_retries) as [|m] eqn:Hm.
  - exists false, σ, []. cbn.
    split_and!; try reflexivity; try discriminate; try tauto;
      [apply io_on_refl|apply List.Forall_nil].
  - destruct (set_gpio_loop_seq pin value max_retries (S m) 0%nat σ)
      as (b & σ' & out & E & Hio & F & W & Hf & Ht); [lia|].
    rewrite E. exists b, σ', out.
    split_and!; try assumption; try reflexivity. lia.
Qed.

(** The writes of [set_gpio] are the command of the call. *)
Lemma set_gpio_writes pin value σ r σ' out :
  set_gpio env pin value σ = (r, σ', out) -> Forall (write_of pin value) out.
Proof.
  intros E. destruct (dry_run (self σ)) eqn:Hmode.
  - rewrite set_gpio_dry in E by exact Hmode. injection E as <- <- <-.
    repeat constructor.
  - destruct (set_gpio_retries_live pin value 3 σ Hmode) as (b & σ1 & out1 & E1 & _ & F & _).
    unfold set_gpio in E. rewrite E1 in E. injection E as <- <- <-. exact F.
Qed.

(** *** The counters and the log *)

Lemma tally_app f t1 t2 : tally f (t1 ++ t2) = tally f t1 + tally f t2.
Proof. unfold tally. rewrite List.filter_app, List.length_app. lia. Qed.

Lemma tally_cons f e t : tally f (e :: t) = (if f e then 1 else 0) + tally f t.
Proof. unfold tally. cbn. destruct (f e); cbn [length]; lia. Qed.

Lemma tally_nonneg f t : 0 <= tally f t.
Proof. unfold tally. lia. Qed.

Lemma tally_uncounted out :
  Forall uncounted out -> violations_logged out = 0 /\ corrections_logged out = 0.
Proof.
  unfold violations_logged, corrections_logged.
  induction 1 as [|e out [Hv Hf] _ [IHv IHf]]; [split; reflexivity|].
  rewrite !tally_cons, Hv, Hf, IHv, IHf. split; reflexivity.
Qed.

Lemma correction_uncounted e : correction_event e -> uncounted e.
Proof. destruct e as [| | |[] []]; cbn; intros H; try destruct H; split; reflexivity. Qed.

Lemma access_uncounted e : access_event e -> uncounted e.
Proof. destruct e as [| | |[] []]; cbn; intros H; try destruct H; split; reflexivity. Qed.

Lemma seed_uncounted e : seed_event e -> uncounted e.
Proof. destruct e as [| | |[] []]; cbn; intros H; try destruct H; split; reflexivity. Qed.

Lemma idle_uncounted e : idle_event e -> uncounted e.
Proof. destruct e as [| | |[] []]; cbn; intros H; try destruct H; split; reflexivity. Qed.

Lemma read_events_uncounted pin r : Forall uncounted (read_events pin r).
Proof. destruct r; repeat constructor. Qed.

Lemma returned_log_uncounted now pin timer : Forall uncounted (returned_log now pin timer).
Proof. destruct timer; repeat constructor. Qed.

Lemma accounted_refl σ : accounted σ σ [].
Proof. unfold accounted, violations_logged, corrections_logged, tally. cbn. lia. Qed.

Lemma accounted_trans σ1 σ2 σ3 t1 t2 :
  accounted σ1 σ2 t1 -> accounted σ2 σ3 t2 -> accounted σ1 σ3 (t1 ++ t2).
Proof.
  unfold accounted, violations_logged, corrections_logged.
  rewrite !tally_app. lia.
Qed.

(** A run that leaves the counters alone and logs no violation and no
    correction. *)
Lemma accounted_quiet σ σ' out :
  violations_count (self σ') = violations_count (self σ) ->
  corrections_made (self σ') = corrections_made (self σ) ->
  Forall uncounted out ->
  accounted σ σ' out.
Proof.
  intros Hv Hc Hu. destruct (tally_uncounted out Hu) as [Ev Ec].
  unfold accounted. rewrite Ev, Ec. lia.
Qed.

Lemma tally_nil f : tally f [] = 0.
Proof. reflexivity. Qed.

Lemma set_gpio_uncounted pin value σ r σ' out :
  set_gpio env pin value σ = (r, σ', out) -> Forall uncounted out.
Proof.
  intros E. eapply Forall_impl; [eapply set_gpio_events; exact E|].
  exact correction_uncounted.
Qed.

(** The step of a pin adds to the counters what it logs, declares at most
    one violation, and turns [violations_detected] to true when it declares
    one. *)
Lemma pin_step_accounted now q v σ r σ' out :
  pin_step env now q v σ r σ' out ->
  accounted σ σ' out /\
  0 <= violations_logged out <= 1 /\
  (forall v', r = Val v' -> v' = v || (0 <? violations_logged out)).
Proof.
  intros H.
  destruct (tally_uncounted _ (read_events_uncounted q (raspi_gpio_get env q (gets (world σ) q))))
    as [Rv Rc].
  step_cases H;
    try destruct (tally_uncounted _ (returned_log_uncounted now q timer)) as [Tv Tc];
    try match goal with
        | Hs : set_gpio _ _ _ _ = _ |- _ =>
            destruct (tally_uncounted _ (set_gpio_uncounted _ _ _ _ _ _ Hs)) as [Sv Sc]
        end;
    unfold accounted, violations_logged, corrections_logged in *;
    rewrite ?tally_app, ?tally_cons, ?tally_app, ?tally_cons, ?tally_nil,
      ?Rv, ?Rc, ?Tv, ?Tc, ?Sv, ?Sc;
    cbn; rewrite ?Hself; cbn;
    (split_and!; try lia;
     intros v' Hv'; try discriminate; injection Hv' as <-;
     rewrite ?orb_false_r, ?orb_true_r; reflexivity).
Qed.

Lemma orb_tally v a b :
  0 <= a -> 0 <= b -> (v || (0 <? a)) || (0 <? b) = v || (0 <? a + b).
Proof.
  intros Ha Hb.
  destruct (Z.ltb_spec 0 a), (Z.ltb_spec 0 b), (Z.ltb_spec 0 (a + b)), v; try reflexivity; lia.
Qed.

(** The loop of a tick adds to the counters what it logs, declares at most
    one violation for each pin, and returns true exactly when it declared
    one. *)
Lemma check_pins_accounted now pins :
  (forall q, In q pins -> In q MONITORED_PINS) ->
  forall v σ r σ' out,
    check_pins env now pins v σ = (r, σ', out) ->
    accounted σ σ' out /\
    0 <= violations_logged out <= Z.of_nat (length pins) /\
    (forall v', r = Val v' -> v' = v || (0 <? violations_logged out)).
Proof.
  induction pins as [|q rest IH]; intros Hmon v σ r σ' out E.
  - cbn in E. injection E as <- <- <-.
    unfold violations_logged. rewrite tally_nil.
    split; [apply accounted_refl|]. split; [cbn; lia|].
    intros v' Hv'. injection Hv' as <-. cbn. rewrite orb_false_r. reflexivity.
  - rewrite check_pins_cons in E.
    destruct (monitored_rule q) as (mx & Hrule & Hpos); [apply Hmon; left; reflexivity|].
    destruct (check_pin_step now q v σ mx Hrule ltac:(lia)) as (r1 & σ1 & t1 & E1 & H1).
    rewrite E1 in E.
    destruct (pin_step_accounted _ _ _ _ _ _ _ H1) as (A1 & B1 & R1).
    destruct r1 as [v1|e].
    + destruct (check_pins env now rest v1 σ1) as [[r2 σ2] t2] eqn:E2.
      injection E as <- <- <-.
      destruct (IH ltac:(intros q' Hq'; apply Hmon; right; exact Hq') _ _ _ _ _ E2)
        as (A2 & B2 & R2).
      split; [eapply accounted_trans; eassumption|].
      unfold violations_logged in *. rewrite tally_app. cbn [length].
      split; [lia|].
      intros v' Hv'. rewrite (R2 v' Hv'), (R1 v1 eq_refl). apply orb_tally; lia.
    + injection E as <- <- <-. split; [exact A1|]. split; [cbn [length]; lia|].
      intros v' Hv'. discriminate.
Qed.

(** The same for a tick. *)
Lemma tick_accounted σ r σ' out :
  check_safety_violations env σ = (r, σ', out) ->
  accounted σ σ' out /\
  0 <= violations_logged out <= 4 /\
  (forall v, r = Val v -> v = (0 <? violations_logged out)).
Proof.
  intros E. rewrite check_safety_violations_run in E.
  destruct (check_pins_accounted _ MONITORED_PINS ltac:(auto) _ _ _ _ _ E) as (A & B & R).
  split; [exact A|]. split; [cbn in B; lia|exact R].
Qed.

Ltac solve_uncounted :=
  repeat first
    [ assumption
    | apply Forall_app_2
    | apply read_events_uncounted
    | apply returned_log_uncounted
    | eapply set_gpio_uncounted; eassumption
    | apply List.Forall_nil
    | apply List.Forall_cons; [split; reflexivity|]
    | match goal with
      | |- Forall uncounted (match ?r with Completed _ => _ | CalledProcessError => _ end) =>
          destruct r
      end ].

(** The body of the loop of [initialize_gpios] leaves the counters alone
    and logs no violation. *)
Lemma initialize_pin_quiet pin σ r σ' out :
  initialize_pin env pin σ = (r, σ', out) ->
  violations_count (self σ') = violations_count (self σ) /\
  corrections_made (self σ') = corrections_made (self σ) /\
  Forall uncounted out.
Proof.
  unfold initialize_pin, bind. rewrite read_gpio_run.
  destruct (read_level _) as [current|]; cbn.
  - destruct (current =? 1); cbn.
    + intros E. injection E as <- <- <-. cbn. split_and!; try reflexivity.
      solve_uncounted.
    + destruct (set_gpio_spec pin 1 (got pin σ)) as (b & σ1 & out1 & E1 & Hpost).
      rewrite E1. open_post Hpost. cbn in Hself.
      destruct b; cbn; intros E; injection E as <- <- <-;
        (cbn; rewrite ?Hself; split_and!; try reflexivity; solve_uncounted).
  - intros E. injection E as <- <- <-. cbn. split_and!; try reflexivity.
    solve_uncounted.
Qed.

Lemma initialize_pins_quiet pins :
  forall σ r σ' out,
    for_each (initialize_pin env) pins σ = (r, σ', out) ->
    violations_count (self σ') = violations_count (self σ) /\
    corrections_made (self σ') = corrections_made (self σ) /\
    Forall uncounted out.
Proof.
  induction pins as [|pin rest IH]; intros σ r σ' out E.
  - cbn in E. injection E as <- <- <-. split_and!; try reflexivity. constructor.
  - rewrite for_each_cons in E.
    destruct (initialize_pin env pin σ) as [[[[]|e] σ1] t1] eqn:E1;
      destruct (initialize_pin_quiet _ _ _ _ _ E1) as (V1 & C1 & U1).
    + destruct (for_each (initialize_pin env) rest σ1) as [[r2 σ2] t2] eqn:E2.
      injection E as <- <- <-.
      destruct (IH _ _ _ _ E2) as (V2 & C2 & U2).
      split_and!; try congruence. apply Forall_app_2; assumption.
    + injection E as <- <- <-. split_and!; assumption.
Qed.

Lemma initialize_pin_accounted pin σ r σ' out :
  initialize_pin env pin σ = (r, σ', out) -> accounted σ σ' out.
Proof.
  intros E. destruct (initialize_pin_quiet _ _ _ _ _ E) as (V & C & U).
  apply accounted_quiet; assumption.
Qed.

Lemma seed_pin_accounted pin σ r σ' out :
  seed_pin env pin σ = (r, σ', out) -> accounted σ σ' out.
Proof.
  rewrite seed_pin_run. intros E. injection E as <- <- <-.
  apply accounted_quiet; cbn; try reflexivity. solve_uncounted.
Qed.

Lemma for_each_accounted body pins :
  (forall pin σ r σ' out, body pin σ = (r, σ', out) -> accounted σ σ' out) ->
  forall σ r σ' out, for_each body pins σ = (r, σ', out) -> accounted σ σ' out.
Proof.
  intros Hbody. induction pins as [|pin rest IH]; intros σ r σ' out E.
  - cbn in E. injection E as <- <- <-. apply accounted_refl.
  - rewrite for_each_cons in E.
    destruct (body pin σ) as [[[[]|e] σ1] t1] eqn:E1.
    + destruct (for_each body rest σ1) as [[r2 σ2] t2] eqn:E2.
      injection E as <- <- <-.
      eapply accounted_trans; [eapply Hbody; exact E1|eapply IH; exact E2].
    + injection E as <- <- <-. eapply Hbody; exact E1.
Qed.

(** [startup] leaves the counters alone. *)
Lemma startup_accounted σ r σ' out :
  startup env σ = (r, σ', out) -> accounted σ σ' out.
Proof.
  intros E. destruct (dry_run (self σ)) eqn:Hmode.
  - destruct (startup_dry σ Hmode) as (σs & outs & Es & Est).
    rewrite Est in E. injection E as <- <- <-.
    pose proof (for_each_accounted _ _ seed_pin_accounted _ _ _ _ Es) as (Hv & Hc & Hle).
    unfold accounted, violations_logged, corrections_logged in *.
    unfold banner. cbn [app]. rewrite ?tally_cons, ?tally_app, ?tally_nil. cbn. lia.
  - destruct (startup_live σ Hmode) as (σi & outi & Ei & Est).
    rewrite Est in E. injection E as <- <- <-.
    pose proof (for_each_accounted _ _ initialize_pin_accounted _ _ _ _ Ei) as (Hv & Hc & Hle).
    unfold accounted, violations_logged, corrections_logged in *.
    unfold banner. cbn [app]. rewrite ?tally_cons, ?tally_app, ?tally_nil. cbn. lia.
Qed.

(** A round of the loop adds to the counters what it logs. *)
Lemma loop_body_accounted status_interval last σ r σ' out :
  loop_body env status_interval last σ = (r, σ', out) -> accounted σ σ' out.
Proof.
  intros E.
  destruct (loop_body_spec status_interval last σ) as (rt & σt & outt & Et & Hbody).
  destruct (tick_accounted _ _ _ _ Et) as (At & _).
  destruct rt as [v|e].
  - destruct Hbody as (r1 & σ1 & rest & E1 & (Hs & _) & Hrest & _).
    rewrite E1 in E. injection E as <- <- <-.
    eapply accounted_trans; [exact At|].
    apply accounted_quiet; rewrite ?Hs; try reflexivity.
    eapply Forall_impl; [exact Hrest|exact idle_uncounted].
  - rewrite Hbody in E. injection E as <- <- <-. exact At.
Qed.

Lemma loop_accounted n :
  forall status_interval last σ r σ' out,
    loop env n status_interval last σ = (r, σ', out) -> accounted σ σ' out.
Proof.
  induction n as [|n IH]; intros si last σ r σ' out E.
  - cbn in E. injection E as <- <- <-. apply accounted_refl.
  - rewrite loop_succ in E.
    destruct (loop_body env si last σ) as [[[last'|e] σ1] t1] eqn:E1.
    + destruct (loop env n si last' σ1) as [[r2 σ2] t2] eqn:E2.
      injection E as <- <- <-.
      eapply accounted_trans; [eapply loop_body_accounted; exact E1|eapply IH; exact E2].
    + injection E as <- <- <-. eapply loop_body_accounted; exact E1.
Qed.

(** The run up to any round of the loop adds to the counters what it logs. *)
Lemma running_accounted status_interval n σ r σ' out :
  running env status_interval n σ = (r, σ', out) -> accounted σ σ' out.
Proof.
  unfold running, bind. intros E.
  destruct (startup env σ) as [[[last|e] σ1] t1] eqn:E1.
  - destruct (loop env n status_interval last σ1) as [[r2 σ2] t2] eqn:E2.
    injection E as <- <- <-.
    eapply accounted_trans; [eapply startup_accounted; exact E1|eapply loop_accounted; exact E2].
  - injection E as <- <- <-. eapply startup_accounted; exact E1.
Qed.

(** *** The run of [main] *)

(** [main] is the access check, then [run_safeguard]: the run up to the
    interrupt and the final records, or the record of the exception that
    stopped it. *)
Lemma main_run dry status_interval n σ :
  exists acc σ1 out1,
    access_check env MONITORED_PINS true (with_self (fun _ => new_GPIOSafeguard dry) σ)
      = (Val acc, σ1, out1) /\
    self σ1 = new_GPIOSafeguard dry /\
    Forall access_event out1 /\
    (acc = true <-> forall p, In p MONITORED_PINS -> next_read env σ p <> None) /\
    if acc then
      exists r2 σ2 out2,
        running env status_interval n σ1 = (r2, σ2, out2) /\
        main env dry status_interval n σ =
          match r2 with
          | Val _ => (Val tt, σ2, out1 ++ out2 ++ final_log (self σ2))
          | Exc (KeyError key) =>
              (Exc (SystemExit 1), σ2,
               out1 ++ out2 ++ [EvLog ERROR (SafeguardFailed (KeyError key))])
          | Exc (SystemExit code) => (Exc (SystemExit code), σ2, out1 ++ out2)
          end
    else
      main env dry status_interval n σ =
        (Exc (SystemExit 1), σ1, out1 ++ [EvLog ERROR AccessFailed]).
Proof.
  destruct (access_check_spec MONITORED_PINS NoDup_MONITORED_PINS true
              (with_self (fun _ => new_GPIOSafeguard dry) σ))
    as (acc & σ1 & out1 & Ea & Hself & _ & _ & Hev & Hiff).
  exists acc, σ1, out1. split; [exact Ea|]. split; [exact Hself|]. split; [exact Hev|].
  split; [rewrite Hiff; tauto|].
  unfold main, bind. cbn. unfold with_self in Ea. rewrite Ea.
  destruct acc; cbn; [|reflexivity].
  unfold try_except, run_safeguard, bind.
  destruct (running env status_interval n σ1) as [[r2 σ2] out2] eqn:E2.
  exists r2, σ2, out2. split; [reflexivity|].
  destruct r2 as [last|[key|code]]; cbn; rewrite ?app_nil_r; reflexivity.
Qed.

(** *** What the program does to the pins *)

Lemma read_events_safe pin r : In pin MONITORED_PINS -> Forall safe_io (read_events pin r).
Proof.
  intros Hin. destruct r; unfold read_events;
    repeat (apply List.Forall_cons; [first [exact Hin|exact I]|]); apply List.Forall_nil.
Qed.

Lemma returned_log_safe now pin timer : Forall safe_io (returned_log now pin timer).
Proof. destruct timer; repeat constructor. Qed.

(** [set_gpio(pin, 1)] reads [pin] and drives it high, nothing else. *)
Lemma set_gpio_safe pin σ r σ' out :
  In pin MONITORED_PINS ->
  set_gpio env pin 1 σ = (r, σ', out) -> Forall safe_io out.
Proof.
  intros Hin E.
  pose proof (set_gpio_writes _ _ _ _ _ _ E) as Hw.
  destruct (set_gpio_spec pin 1 σ) as (b & σ1 & out1 & E1 & _ & Hab & _).
  rewrite E1 in E. injection E as <- <- <-.
  unfold only_about in Hab. rewrite List.Forall_forall in Hw, Hab |- *.
  intros [q r|q d ok| |] He; cbn; try exact I.
  - rewrite (Hab _ He q eq_refl). exact Hin.
  - destruct (Hw _ He) as [-> ->]. split; [exact Hin|reflexivity].
Qed.

Ltac solve_safe :=
  repeat first
    [ assumption
    | apply Forall_app_2
    | apply read_events_safe; assumption
    | apply returned_log_safe
    | eapply set_gpio_safe; eassumption
    | apply List.Forall_nil
    | apply List.Forall_cons; [exact I|] ].

(** The step of a monitored pin reads it and, at most, drives it high. *)
Lemma pin_step_safe now q v σ r σ' out :
  In q MONITORED_PINS -> pin_step env now q v σ r σ' out -> Forall safe_io out.
Proof. intros Hin H. destruct H; solve_safe. Qed.

Lemma tick_safe σ r σ' out :
  check_safety_violations env σ = (r, σ', out) -> Forall safe_io out.
Proof.
  intros E.
  assert (HP : True /\ Forall safe_io out); [|apply HP].
  eapply (tick_preserves (fun _ => True) safe_io σ I); [|exact E].
  intros q v σa ra σb outb Hq _ Hstep. split; [exact I|].
  eapply pin_step_safe; eassumption.
Qed.

Lemma loop_safe n status_interval last σ r σ' out :
  loop env n status_interval last σ = (r, σ', out) -> Forall safe_io out.
Proof.
  intros E.
  assert (HP : True /\ Forall safe_io out); [|apply HP].
  eapply (loop_preserves (fun _ => True) safe_io); [| | |exact I|exact E].
  - intros σa ra σb outb _ Ea. split; [exact I|]. eapply tick_safe; exact Ea.
  - intros; exact I.
  - intros [] He; try exact I; destruct He.
Qed.

Lemma initialize_pin_safe pin σ :
  In pin MONITORED_PINS -> Forall safe_io (initialize_pin env pin σ).2.
Proof.
  intros Hin. unfold initialize_pin, bind. rewrite read_gpio_run.
  pose proof (read_events_safe pin (raspi_gpio_get env pin (gets (world σ) pin)) Hin) as Hr.
  destruct (read_level _) as [current|]; cbn.
  - destruct (current =? 1); cbn; [solve_safe|].
    destruct (set_gpio env pin 1 (got pin σ)) as [[[b|e] σ1] out1] eqn:E1.
    + destruct b; cbn; solve_safe.
    + cbn. solve_safe.
  - solve_safe.
Qed.

Lemma seed_pin_safe pin σ :
  In pin MONITORED_PINS -> Forall safe_io (seed_pin env pin σ).2.
Proof. intros Hin. rewrite seed_pin_run. cbn. solve_safe. Qed.

Lemma for_each_events (φ : Event -> Prop) body pins :
  (forall pin σ, In pin pins -> Forall φ (body pin σ).2) ->
  forall σ, Forall φ (for_each body pins σ).2.
Proof.
  induction pins as [|pin rest IH]; intros Hbody σ.
  - constructor.
  - rewrite for_each_cons.
    pose proof (Hbody pin σ (or_introl eq_refl)) as H1.
    destruct (body pin σ) as [[[[]|e] σ1] t1]; cbn in *; [|exact H1].
    specialize (IH (fun p σ' Hp => Hbody p σ' (or_intror Hp)) σ1).
    destruct (for_each body rest σ1) as [[r2 σ2] t2]; cbn in *.
    apply Forall_app_2; assumption.
Qed.

Lemma access_check_safe pins :
  (forall q, In q pins -> In q MONITORED_PINS) ->
  forall acc σ, Forall safe_io (access_check env pins acc σ).2.
Proof.
  induction pins as [|pin rest IH]; intros Hmon acc σ.
  - constructor.
  - rewrite access_check_cons.
    pose proof (read_events_safe pin (raspi_gpio_get env pin (gets (world σ) pin))
                  (Hmon pin (or_introl eq_refl))) as Hr.
    assert (Hrest : forall q, In q rest -> In q MONITORED_PINS)
      by (intros q Hq; apply Hmon; right; exact Hq).
    destruct (next_read env σ pin).
    + pose proof (IH Hrest acc (got pin σ)) as H2.
      destruct (access_check env rest acc (got pin σ)) as [[r2 σ2] t2]; cbn in *. solve_safe.
    + pose proof (IH Hrest false (got pin σ)) as H2.
      destruct (access_check env rest false (got pin σ)) as [[r2 σ2] t2]; cbn in *. solve_safe.
Qed.

Lemma startup_safe σ : Forall safe_io (startup env σ).2.
Proof.
  destruct (dry_run (self σ)) eqn:Hmode.
  - destruct (startup_dry σ Hmode) as (σs & outs & Es & ->). cbn.
    pose proof (for_each_events safe_io (seed_pin env) MONITORED_PINS
                  (fun p σ' Hp => seed_pin_safe p σ' Hp) σ) as H.
    rewrite Es in H. cbn in H. solve_safe.
  - destruct (startup_live σ Hmode) as (σi & outi & Ei & ->). cbn.
    pose proof (for_each_events safe_io (initialize_pin env) MONITORED_PINS
                  (fun p σ' Hp => initialize_pin_safe p σ' Hp) σ) as H.
    rewrite Ei in H. cbn in H. solve_safe.
Qed.

Lemma running_safe status_interval n σ : Forall safe_io (running env status_interval n σ).2.
Proof.
  unfold running, bind.
  pose proof (startup_safe σ) as H1.
  destruct (startup env σ) as [[[last|e] σ1] t1]; cbn in *; [|exact H1].
  destruct (loop env n status_interval last σ1) as [[r2 σ2] t2] eqn:E2. cbn.
  apply Forall_app_2; [exact H1|]. eapply loop_safe; exact E2.
Qed.

(** *** What a tick declares, writes and raises *)

Lemma uncounted_not_violation pin el mx t :
  Forall uncounted t -> ~ In (EvLog WARNING (SafetyViolation pin el mx)) t.
Proof.
  intros Ht Hi. rewrite List.Forall_forall in Ht. destruct (Ht _ Hi) as [Hv _]. discriminate.
Qed.

(** The step of a pin that declares a violation of it. *)
Lemma pin_step_violation now pin v σ r σ' out el mx :
  In (EvLog WARNING (SafetyViolation pin el mx)) out ->
  pin_step env now pin v σ r σ' out ->
  exists since,
    gpio_states (self σ) !! pin = Some (Some 0) /\
    gpio_timers (self σ) !! pin = Some (Some since) /\
    SAFETY_RULES !! pin = Some mx /\
    el = now - since /\ now - since > mx /\
    next_read env σ pin = Some 0 /\
    r = Val true.
Proof.
  intros Hin H. unfold next_read.
  destruct H;
    try (exfalso; eapply uncounted_not_violation; [|exact Hin]; solve_uncounted; fail).
  - apply in_app_or in Hin as [Hin|Hin];
      [exfalso; eapply uncounted_not_violation; [|exact Hin]; solve_uncounted|].
    destruct Hin as [Heq|Hin].
    + injection Heq as <- <-. exists since. apply gpio_states_get_0 in H0.
      split_and!; try assumption; reflexivity.
    + exfalso. apply in_app_or in Hin as [Hin|[Hin|[]]]; [|discriminate].
      eapply uncounted_not_violation; [|exact Hin]. solve_uncounted.
  - apply in_app_or in Hin as [Hin|Hin];
      [exfalso; eapply uncounted_not_violation; [|exact Hin]; solve_uncounted|].
    destruct Hin as [Heq|Hin].
    + injection Heq as <- <-. exists since. apply gpio_states_get_0 in H0.
      split_and!; try assumption; reflexivity.
    + exfalso. apply in_app_or in Hin as [Hin|[Hin|[]]]; [|discriminate].
      eapply uncounted_not_violation; [|exact Hin]. solve_uncounted.
Qed.

Lemma no_writes_not_set pin d ok t : no_writes t -> ~ In (EvSet pin d ok) t.
Proof.
  intros Ht Hi. unfold no_writes in Ht. rewrite List.Forall_forall in Ht.
  specialize (Ht _ Hi). discriminate.
Qed.

(** The step of a pin that writes to it: in live mode, after it declared a
    violation of the pin. *)
Lemma pin_step_write now pin v σ r σ' out d ok :
  In (EvSet pin d ok) out ->
  pin_step env now pin v σ r σ' out ->
  dry_run (self σ) = false /\
  exists el mx t1 t2,
    out = t1 ++ EvLog WARNING (SafetyViolation pin el mx) :: t2 /\ In (EvSet pin d ok) t2.
Proof.
  intros Hin H.
  assert (Hmode : forall σ1 out1 b,
            set_gpio_post env pin 1 (with_self incr_violations (got pin σ)) b σ1 out1 ->
            In (EvSet pin d ok) out1 -> dry_run (self σ) = false).
  { intros σ1 out1 b (_ & _ & _ & _ & Hm) Hi. cbn in Hm.
    destruct (dry_run (self σ)); [|reflexivity].
    destruct Hm as [-> _]. destruct Hi as [Hi|[]]. discriminate. }
  destruct H;
    try (exfalso; eapply no_writes_not_set; [|exact Hin]; unfold no_writes; solve_class; fail).
  - apply in_app_or in Hin as [Hin|Hin];
      [exfalso; eapply no_writes_not_set; [|exact Hin]; apply read_events_no_writes|].
    destruct Hin as [Heq|Hin]; [discriminate|].
    split.
    + apply in_app_or in Hin as [Hin|[Hin|[]]]; [|discriminate].
      eapply Hmode; eassumption.
    + do 4 eexists. split; [reflexivity|exact Hin].
  - apply in_app_or in Hin as [Hin|Hin];
      [exfalso; eapply no_writes_not_set; [|exact Hin]; apply read_events_no_writes|].
    destruct Hin as [Heq|Hin]; [discriminate|].
    split.
    + apply in_app_or in Hin as [Hin|[Hin|[]]]; [|discriminate].
      eapply Hmode; eassumption.
    + do 4 eexists. split; [reflexivity|exact Hin].
Qed.

Lemma silent_not_in pin e t : silent_on pin t -> event_pin e = Some pin -> ~ In e t.
Proof.
  intros Ht He Hi. unfold silent_on in Ht. rewrite List.Forall_forall in Ht.
  apply (Ht _ Hi). exact He.
Qed.

(** The events of a tick are about monitored pins. *)
Lemma tick_about σ r σ' out e q :
  check_safety_violations env σ = (r, σ', out) ->
  In e out -> event_pin e = Some q -> In q MONITORED_PINS.
Proof.
  intros E Hin He.
  assert (HP : True /\ Forall (fun e => forall q, event_pin e = Some q -> In q MONITORED_PINS) out).
  { eapply (tick_preserves (fun _ => True) _ σ I); [|exact E].
    intros p v σa ra σb outb Hp _ Hstep. split; [exact I|].
    eapply Forall_impl; [eapply pin_step_about; exact Hstep|].
    cbn. intros e' H' q' Hq'. rewrite (H' q' Hq'). exact Hp. }
  destruct HP as [_ HP]. rewrite List.Forall_forall in HP. eapply HP; eassumption.
Qed.

(** The step of a pin that raises: [KeyError] for the pin, which has no
    entry in [gpio_timers]. *)
Lemma pin_step_raises now pin v σ e σ' out :
  pin_step env now pin v σ (Exc e) σ' out ->
  e = KeyError pin /\
  gpio_timers (self σ) !! pin = None /\
  gpio_timers (self σ') !! pin = None /\
  next_read env σ pin <> None.
Proof.
  intros H. unfold next_read. remember (Exc e) as r eqn:Hr.
  destruct H; try discriminate; injection Hr as ->; cbn;
    (split_and!; [reflexivity|assumption|assumption|congruence]).
Qed.

(** The loop of a tick raises only at a pin without entry in
    [gpio_timers], when it reads the pin at a level. *)
Lemma check_pins_raises now pins :
  NoDup pins -> (forall q, In q pins -> In q MONITORED_PINS) ->
  forall v σ e σ' out,
    check_pins env now pins v σ = (Exc e, σ', out) ->
    exists q, In q pins /\ e = KeyError q /\
      gpio_timers (self σ) !! q = None /\
      gpio_timers (self σ') !! q = None /\
      next_read env σ q <> None.
Proof.
  induction pins as [|p rest IH]; intros Hnd Hmon v σ e σ' out E; [discriminate|].
  rewrite check_pins_cons in E.
  destruct (monitored_rule p) as (mx & Hrule & Hpos); [apply Hmon; left; reflexivity|].
  destruct (check_pin_step now p v σ mx Hrule ltac:(lia)) as (r1 & σ1 & t1 & E1 & Hstep).
  rewrite E1 in E.
  apply NoDup_cons in Hnd as [Hp Hnd]. rewrite list_elem_of_In in Hp.
  destruct r1 as [v1|e1].
  - destruct (check_pins env now rest v1 σ1) as [[r2 σ2] t2] eqn:E2.
    injection E as -> <- <-.
    destruct (IH Hnd ltac:(intros q' Hq'; apply Hmon; right; exact Hq') _ _ _ _ _ E2)
      as (q & Hq & He & Ht & Ht' & Hread).
    exists q. assert (Hne : p <> q) by (intros ->; contradiction).
    destruct (pin_step_apart _ _ _ _ _ _ _ q Hne Hstep) as (_ & Etm & Eg & _).
    split_and!; try assumption; [right; exact Hq|congruence|].
    unfold next_read in *. rewrite <- Eg. exact Hread.
  - injection E as <- <- <-.
    destruct (pin_step_raises _ _ _ _ _ _ _ Hstep) as (He & Ht & Ht' & Hread).
    exists p. split_and!; try assumption. left. reflexivity.
Qed.

(** The step of a pin reads it: the next result of its script, first. *)
Lemma pin_step_reads now pin v σ r σ' out :
  pin_step env now pin v σ r σ' out ->
  (gets (world σ) pin < gets (world σ') pin)%nat /\
  In (EvGet pin (raspi_gpio_get env pin (gets (world σ) pin))) out.
Proof.
  intros H.
  assert (Hr : forall t, In (EvGet pin (raspi_gpio_get env pin (gets (world σ) pin)))
                          (read_events pin (raspi_gpio_get env pin (gets (world σ) pin)) ++ t))
    by (intros t; apply in_or_app; left; left; reflexivity).
  assert (Hr0 : In (EvGet pin (raspi_gpio_get env pin (gets (world σ) pin)))
                   (read_events pin (raspi_gpio_get env pin (gets (world σ) pin))))
    by (left; reflexivity).
  step_cases H; cbn; rewrite ?bump_same; (split; [|first [exact Hr0|apply Hr]]); try lia.
  all: cbn in Hgets; rewrite bump_same in Hgets; lia.
Qed.

(** *** The status summary *)

Lemma status_of_widen σa σ σ' σb pin part :
  later σa σ -> later σ' σb ->
  status_of env σ σ' pin part -> status_of env σa σb pin part.
Proof.
  intros (Hs & _ & _ & Hn) (_ & _ & _ & Hn') (H1 & H2 & H3).
  unfold status_of. rewrite <- Hs. split; [exact H1|]. split; [exact H2|].
  destruct (part.2) as [[elapsed max_allowed]|]; [|exact H3].
  destruct H3 as (Hlow & Hrule & since & k & Ht & Hk & He).
  split_and!; try assumption. exists since, k. split_and!; try assumption; lia.
Qed.

(** One part of the summary. *)
Lemma status_part_shape pin σ :
  exists r σ',
    status_part env pin σ = (r, σ', []) /\ later σ σ' /\
    match r with
    | Val part => status_of env σ σ' pin part
    | Exc e =>
        e = KeyError pin /\ tracked_low (self σ) pin /\
        (gpio_timers (self σ) !! pin = None \/ SAFETY_RULES !! pin = None)
    end.
Proof.
  unfold status_part, gpio_timers_at, safety_rule, bind, status_of, tracked_low, timer_set. cbn.
  destruct (gpio_states (self σ) !! pin) as [[[|?|?]|]|] eqn:Hst; cbn;
    try (do 2 eexists; split; [reflexivity|]; split; [apply later_refl|]; cbn;
         split_and!; try reflexivity; intros [? _]; congruence).
  destruct (gpio_timers (self σ) !! pin) as [[since|]|] eqn:Ht; cbn.
  - destruct (SAFETY_RULES !! pin) as [mx|] eqn:Hrule; cbn.
    + do 2 eexists; split; [reflexivity|]; split; [apply (later_ticked σ)|]. cbn.
      split_and!; try reflexivity. exists since, (nows (world σ)).
      split_and!; try reflexivity; lia.
    + do 2 eexists; split; [reflexivity|]; split; [apply (later_ticked σ)|]. tauto.
  - do 2 eexists; split; [reflexivity|]; split; [apply later_refl|]. cbn.
    split_and!; try reflexivity. intros [_ [t Heq]]. congruence.
  - do 2 eexists; split; [reflexivity|]; split; [apply later_refl|]. tauto.
Qed.

(** The parts of the summary, one for each pin, in order. *)
Lemma status_parts_shape pins :
  forall σ,
  exists r σ',
    status_parts env pins σ = (r, σ', []) /\ later σ σ' /\
    match r with
    | Val parts => Forall2 (status_of env σ σ') pins parts
    | Exc e =>
        exists q, In q pins /\ e = KeyError q /\ tracked_low (self σ) q /\
          (gpio_timers (self σ) !! q = None \/ SAFETY_RULES !! q = None)
    end.
Proof.
  induction pins as [|pin rest IH]; intros σ.
  - do 2 eexists. split; [reflexivity|]. split; [apply later_refl|]. constructor.
  - rewrite status_parts_cons.
    destruct (status_part_shape pin σ) as (r1 & σ1 & E1 & L1 & H1). rewrite E1.
    destruct r1 as [part|e].
    + destruct (IH σ1) as (r2 & σ2 & E2 & L2 & H2). rewrite E2.
      destruct r2 as [parts|e]; do 2 eexists; (split; [reflexivity|]);
        (split; [eapply later_trans; eassumption|]).
      * constructor.
        -- eapply status_of_widen; [apply later_refl|exact L2|exact H1].
        -- eapply Forall2_impl; [exact H2|].
           intros p part' Hp. eapply status_of_widen; [exact L1|apply later_refl|exact Hp].
      * destruct H2 as (q & Hq & He & Hlow & Hor). exists q.
        destruct L1 as (Hs & _). unfold tracked_low in *. rewrite <- Hs.
        split_and!; try assumption. right. exact Hq.
    + do 2 eexists. split; [reflexivity|]. split; [exact L1|].
      destruct H1 as (He & Hlow & Hor). exists pin.
      split_and!; try assumption. left. reflexivity.
Qed.

(** *** Runs that return, runs that raise *)

(** The access check reads each pin once. *)
Lemma access_check_gets pins :
  NoDup pins ->
  forall acc σ r σ' out,
    access_check env pins acc σ = (r, σ', out) ->
    forall p, In p pins -> gets (world σ') p = S (gets (world σ) p).
Proof.
  induction pins as [|pin rest IH]; intros Hnd acc σ r σ' out E p Hp; [destruct Hp|].
  apply NoDup_cons in Hnd as [Hnotin Hnd]. rewrite list_elem_of_In in Hnotin.
  rewrite access_check_cons in E.
  assert (Hrest : forall acc0 r0 σ0 out0,
            access_check env rest acc0 (got pin σ) = (r0, σ0, out0) ->
            gets (world σ0) p = S (gets (world σ) p)).
  { intros acc0 r0 σ0 out0 E0. destruct Hp as [<-|Hp].
    - destruct (access_check_spec rest Hnd acc0 (got pin σ))
        as (acc' & σ'' & out'' & E' & _ & _ & Hg & _).
      rewrite E0 in E'. injection E' as _ <- _.
      rewrite (Hg pin Hnotin). cbn. apply bump_same.
    - rewrite (IH Hnd _ _ _ _ _ E0 p Hp). cbn. rewrite bump_other; [reflexivity|].
      intros ->. contradiction. }
  destruct (next_read env σ pin).
  - destruct (access_check env rest acc (got pin σ)) as [[r2 σ2] t2] eqn:E2.
    injection E as <- <- <-. eapply Hrest; exact E2.
  - destruct (access_check env rest false (got pin σ)) as [[r2 σ2] t2] eqn:E2.
    injection E as <- <- <-. eapply Hrest; exact E2.
Qed.

(** [startup] returns; in dry-run mode, and in live mode when the
    initializer can read every monitored pin, it leaves an entry in
    [gpio_timers] for every monitored pin. *)
Lemma startup_returns σ :
  exists last σ' out,
    startup env σ = (Val last, σ', out) /\
    ((dry_run (self σ) = false ->
      forall p, In p MONITORED_PINS -> next_read env σ p <> None) ->
     tracked σ').
Proof.
  destruct (dry_run (self σ)) eqn:Hmode.
  - destruct (startup_dry σ Hmode) as (σs & outs & Es & Est).
    destruct (seed_pins_spec MONITORED_PINS NoDup_MONITORED_PINS σ)
      as (σs' & outs' & Es' & _ & _ & _ & _ & Hpins).
    rewrite Es in Es'. injection Es' as <- <-.
    do 3 eexists. split; [exact Est|].
    intros _ q Hq. destruct (Hpins q Hq) as (_ & Htm & _). cbn. rewrite Htm. eauto.
  - destruct (startup_live σ Hmode) as (σi & outi & Ei & Est).
    destruct (initialize_pins_spec MONITORED_PINS NoDup_MONITORED_PINS σ)
      as (σi' & outi' & Ei' & _ & _ & Hpins).
    rewrite Ei in Ei'. injection Ei' as <- <-.
    do 3 eexists. split; [exact Est|].
    intros Hread q Hq. destruct (Hpins q Hq) as [_ Hsome].
    destruct (Hsome (Hread eq_refl q Hq)) as [_ Htm]. cbn. rewrite Htm. eauto.
Qed.

(** The run up to any round of the loop returns from such a start. *)
Lemma running_returns status_interval n σ :
  (dry_run (self σ) = false -> forall p, In p MONITORED_PINS -> next_read env σ p <> None) ->
  exists last σ' out,
    running env status_interval n σ = (Val last, σ', out) /\ tracked σ'.
Proof.
  intros Hread. unfold running, bind.
  destruct (startup_returns σ) as (last & σ1 & t1 & E1 & Htr). rewrite E1.
  destruct (loop_returns n status_interval last σ1 (Htr Hread)) as (last' & σ' & t2 & E2 & Htr').
  rewrite E2. do 3 eexists. split; [reflexivity|exact Htr'].
Qed.

(** A round of the loop raises only [KeyError] for a monitored pin that has
    no entry in [gpio_timers]. *)
Lemma loop_body_raises status_interval last σ e σ' out :
  loop_body env status_interval last σ = (Exc e, σ', out) ->
  exists q, In q MONITORED_PINS /\ e = KeyError q /\ gpio_timers (self σ') !! q = None.
Proof.
  unfold loop_body, bind.
  destruct (check_safety_violations env σ) as [[[v|et] σt] outt] eqn:Et.
  - cbn.
    destruct (wall_clock env (nows (world σt)) - last >=? status_interval * 1000000); cbn;
      [|discriminate].
    unfold get_status_summary.
    destruct (status_parts_shape MONITORED_PINS (ticked σt)) as (r & σs & Es & (Hs & _) & Hr).
    unfold ticked in Es. rewrite Es.
    destruct r as [parts|es]; cbn; [discriminate|].
    intros E. injection E as <- <- <-.
    destruct Hr as (q & Hq & He & _ & Hor). exists q.
    split; [exact Hq|]. split; [exact He|].
    rewrite Hs. cbn.
    destruct Hor as [Ht|Hrule]; [exact Ht|].
    destruct (monitored_rule q Hq) as (mx & Hmx & _). congruence.
  - intros E. injection E as <- <- <-.
    rewrite check_safety_violations_run in Et.
    destruct (check_pins_raises _ MONITORED_PINS NoDup_MONITORED_PINS ltac:(auto) _ _ _ _ _ Et)
      as (q & Hq & He & _ & Ht & _).
    exists q. split_and!; assumption.
Qed.

Lemma loop_raises n :
  forall status_interval last σ e σ' out,
    loop env n status_interval last σ = (Exc e, σ', out) ->
    exists q, In q MONITORED_PINS /\ e = KeyError q /\ gpio_timers (self σ') !! q = None.
Proof.
  induction n as [|n IH]; intros si last σ e σ' out E; [discriminate|].
  rewrite loop_succ in E.
  destruct (loop_body env si last σ) as [[[last'|e1] σ1] t1] eqn:E1.
  - destruct (loop env n si last' σ1) as [[r2 σ2] t2] eqn:E2.
    injection E as -> <- <-. eapply IH; exact E2.
  - injection E as <- <- <-. eapply loop_body_raises; exact E1.
Qed.

(** The run raises only in live mode, and only [KeyError] for a monitored
    pin that has no entry in [gpio_timers]. *)
Lemma running_raises status_interval n σ e σ' out :
  running env status_interval n σ = (Exc e, σ', out) ->
  dry_run (self σ) = false /\
  exists q, In q MONITORED_PINS /\ e = KeyError q /\ gpio_timers (self σ') !! q = None.
Proof.
  intros E. split.
  - destruct (dry_run (self σ)) eqn:Hmode; [|reflexivity].
    destruct (running_returns status_interval n σ) as (last & σ1 & t1 & E1 & _);
      [congruence|]. congruence.
  - unfold running, bind in E.
    destruct (startup_returns σ) as (last & σ1 & t1 & E1 & _). rewrite E1 in E.
    destruct (loop env n status_interval last σ1) as [[r2 σ2] t2] eqn:E2.
    injection E as -> <- <-. eapply loop_raises; exact E2.
Qed.

(** *** The writes of the initializer *)

(** The body of the loop of [initialize_gpios] writes to the pin exactly
    when it reads it at 0. *)
Lemma initialize_pin_writes pin σ :
  dry_run (self σ) = false ->
  (exists d ok, In (EvSet pin d ok) (initialize_pin env pin σ).2) <->
  next_read env σ pin = Some 0.
Proof.
  intros Hlive. unfold initialize_pin, bind, next_read. rewrite read_gpio_run.
  set (fresh := raspi_gpio_get env pin (gets (world σ) pin)).
  pose proof (read_events_no_writes pin fresh) as Hr.
  destruct (read_level_cases fresh) as [Hl|[Hl|Hl]]; rewrite Hl; cbn.
  - split; [|discriminate]. intros (d & ok & Hin). exfalso.
    eapply no_writes_not_set; [|exact Hin]. unfold no_writes in *. solve_class.
  - split; [reflexivity|]. intros _.
    destruct (set_gpio_spec pin 1 (got pin σ)) as (b & σ1 & out1 & E1 & _ & _ & _ & _ & Hm).
    cbn in Hm. rewrite Hlive in Hm. destruct Hm as [ok Hok].
    rewrite E1.
    exists (drive_for 1), ok. destruct b; cbn; in_tac.
  - split; [|discriminate]. intros (d & ok & Hin). exfalso.
    eapply no_writes_not_set; [|exact Hin]. unfold no_writes in *. solve_class.
Qed.

(** The loop of [initialize_gpios] writes to the pins it reads at 0, and to
    no other. *)
Lemma initialize_pins_writes pins :
  NoDup pins ->
  forall σ, dry_run (self σ) = false ->
  forall pin,
    (exists d ok, In (EvSet pin d ok) (for_each (initialize_pin env) pins σ).2) <->
    In pin pins /\ next_read env σ pin = Some 0.
Proof.
  induction pins as [|h rest IH]; intros Hnd σ Hlive pin.
  - cbn. split; [intros (d & ok & [])|intros [[] _]].
  - apply NoDup_cons in Hnd as [Hnotin Hnd]. rewrite list_elem_of_In in Hnotin.
    rewrite for_each_cons.
    pose proof (initialize_pin_writes h σ Hlive) as W1.
    destruct (initialize_pin_spec h σ) as (σ1 & t1 & E1 & A1 & (Hd & _) & _).
    rewrite E1 in W1 |- *. cbn [snd] in W1.
    assert (Hlive1 : dry_run (self σ1) = false) by congruence.
    specialize (IH Hnd σ1 Hlive1 pin).
    destruct (initialize_pins_spec rest Hnd σ1) as (σ' & t2 & E2 & _ & A2 & _).
    rewrite E2 in IH |- *. cbn [snd] in IH |- *.
    destruct (Z.eq_dec pin h) as [->|Hne].
    + destruct (A2 h Hnotin) as (_ & _ & _ & _ & Hsil).
      split.
      * intros (d & ok & Hin). split; [left; reflexivity|].
        apply in_app_or in Hin as [Hin|Hin]; [apply W1; eauto|].
        exfalso. eapply silent_not_in; [exact Hsil| |exact Hin]. reflexivity.
      * intros [_ Hread]. destruct W1 as [_ W1]. destruct (W1 Hread) as (d & ok & Hin).
        exists d, ok. apply in_or_app. left. exact Hin.
    + destruct (A1 pin Hne) as (_ & _ & Eg & _ & Hsil).
      assert (Hnext : next_read env σ1 pin = next_read env σ pin)
        by (unfold next_read; rewrite Eg; reflexivity).
      rewrite Hnext in IH.
      split.
      * intros (d & ok & Hin).
        apply in_app_or in Hin as [Hin|Hin].
        -- exfalso. eapply silent_not_in; [exact Hsil| |exact Hin]. reflexivity.
        -- destruct IH as [IH _]. destruct IH as [Hp Hread]; [eauto|].
           split; [right; exact Hp|exact Hread].
      * intros [[Heq|Hp] Hread]; [congruence|].
        destruct IH as [_ IH]. destruct (IH (conj Hp Hread)) as (d & ok & Hin).
        exists d, ok. apply in_or_app. right. exact Hin.
Qed.

(** *** The keys and the levels of the dictionaries *)

(** What the step of a pin does to the entries of the pin: the tracked
    level stays or becomes 0 or 1, and the timer entry stays unless the
    level has an entry. *)
Lemma pin_step_own now q v σ r σ' out :
  pin_step env now q v σ r σ' out ->
  (gpio_states (self σ') !! q = gpio_states (self σ) !! q \/
   exists lv, (lv = 0 \/ lv = 1) /\ gpio_states (self σ') !! q = Some (Some lv)) /\
  (gpio_timers (self σ') !! q = gpio_timers (self σ) !! q \/
   is_Some (gpio_states (self σ') !! q)).
Proof.
  intros H.
  step_cases H; cbn; rewrite ?Hself; cbn; rewrite ?lookup_insert_eq;
    try (split; left; reflexivity);
    (split; [right; eexists; split; [|reflexivity]; lia|]);
    first [left; reflexivity|right; eauto].
Qed.

Lemma pin_step_well_keyed now q v σ r σ' out :
  In q MONITORED_PINS ->
  pin_step env now q v σ r σ' out -> well_keyed σ -> well_keyed σ'.
Proof.
  intros Hq H (K1 & K2 & K3 & K4).
  pose proof (pin_step_steady _ _ _ _ _ _ _ H) as (Hd & _).
  destruct (pin_step_own _ _ _ _ _ _ _ H) as [Hst Htm].
  assert (Hother : forall p, q <> p ->
            gpio_states (self σ') !! p = gpio_states (self σ) !! p /\
            gpio_timers (self σ') !! p = gpio_timers (self σ) !! p).
  { intros p Hne. destruct (pin_step_apart _ _ _ _ _ _ _ p Hne H) as (Es & Et & _). tauto. }
  unfold well_keyed. split_and!.
  - intros p Hp. destruct (Z.eq_dec q p) as [<-|Hne]; [exact Hq|].
    destruct (Hother p Hne) as [Es _]. rewrite Es in Hp. apply K1, Hp.
  - intros p Hp. destruct (Z.eq_dec q p) as [<-|Hne].
    + destruct Htm as [Et|Hs]; [|exact Hs]. rewrite Et in Hp.
      destruct Hst as [Es|(lv & _ & Es)]; rewrite Es; [apply K2, Hp|eauto].
    + destruct (Hother p Hne) as [Es Et]. rewrite Es. rewrite Et in Hp. apply K2, Hp.
  - intros p lv Hp. destruct (Z.eq_dec q p) as [<-|Hne].
    + destruct Hst as [Es|(lv0 & Hlv & Es)]; rewrite Es in Hp; [eapply K3; exact Hp|].
      injection Hp as <-. exact Hlv.
    + destruct (Hother p Hne) as [Es _]. rewrite Es in Hp. eapply K3; exact Hp.
  - intros Hlive p Hp. rewrite Hd in Hlive. destruct (Z.eq_dec q p) as [<-|Hne].
    + destruct Hst as [Es|(lv0 & Hlv & Es)]; rewrite Es in Hp; [eapply K4; eassumption|].
      discriminate.
    + destruct (Hother p Hne) as [Es _]. rewrite Es in Hp. eapply K4; eassumption.
Qed.

Lemma startup_well_keyed dry w r σ out :
  startup env {| self := new_GPIOSafeguard dry; world := w |} = (r, σ, out) ->
  well_keyed σ.
Proof.
  set (σ0 := {| self := new_GPIOSafeguard dry; world := w |}).
  intros E. destruct (startup_inv dry w r σ out E) as (Hmode & _).
  unfold well_keyed. rewrite Hmode. clear Hmode.
  destruct dry.
  - destruct (startup_dry σ0 eq_refl) as (σs & outs & Es & Est).
    rewrite Est in E. injection E as <- <- <-.
    destruct (seed_pins_spec MONITORED_PINS NoDup_MONITORED_PINS σ0)
      as (σs' & outs' & Es' & _ & _ & _ & Hout & Hin).
    rewrite Es in Es'. injection Es' as <- <-. cbn.
    assert (Hempty : forall p, ~ In p MONITORED_PINS ->
              gpio_states (self σs) !! p = None /\ gpio_timers (self σs) !! p = None).
    { intros p Hp. destruct (Hout p Hp) as (-> & -> & _). cbn. rewrite !lookup_empty. tauto. }
    split_and!.
    + intros p [x Hp]. destruct (in_dec Z.eq_dec p MONITORED_PINS) as [Hm|Hm]; [exact Hm|].
      destruct (Hempty p Hm) as [Hs _]. congruence.
    + intros p [x Hp]. destruct (in_dec Z.eq_dec p MONITORED_PINS) as [Hm|Hm].
      * destruct (Hin p Hm) as (-> & _). eauto.
      * destruct (Hempty p Hm) as [_ Ht]. congruence.
    + intros p lv Hp. destruct (in_dec Z.eq_dec p MONITORED_PINS) as [Hm|Hm].
      * destruct (Hin p Hm) as (Hs & _). rewrite Hs in Hp. injection Hp as Hp.
        unfold next_read in Hp.
        destruct (read_level_cases (raspi_gpio_get env p (gets (world σ0) p))) as [H|[H|H]];
          rewrite H in Hp; [discriminate|injection Hp as <-; tauto|injection Hp as <-; tauto].
      * destruct (Hempty p Hm) as [Hs _]. congruence.
    + discriminate.
  - destruct (startup_live σ0 eq_refl) as (σi & outi & Ei & Est).
    rewrite Est in E. injection E as <- <- <-.
    destruct (initialize_pins_spec MONITORED_PINS NoDup_MONITORED_PINS σ0)
      as (σi' & outi' & Ei' & _ & Hout & Hin).
    rewrite Ei in Ei'. injection Ei' as <- <-. cbn.
    assert (Hentries : forall p,
      (gpio_states (self σi) !! p = None /\ gpio_timers (self σi) !! p = None) \/
      (In p MONITORED_PINS /\ gpio_states (self σi) !! p = Some (Some 1))).
    { intros p. destruct (in_dec Z.eq_dec p MONITORED_PINS) as [Hp|Hp].
      - destruct (Hin p Hp) as [Hnone Hsome].
        destruct (next_read env σ0 p) eqn:Hr.
        + right. split; [exact Hp|]. apply Hsome. discriminate.
        + left. destruct (Hnone eq_refl) as [-> ->]. cbn. rewrite !lookup_empty. tauto.
      - left. destruct (Hout p Hp) as (-> & -> & _). cbn. rewrite !lookup_empty. tauto. }
    split_and!.
    + intros p [x Hp]. destruct (Hentries p) as [[Hs _]|[Hm _]]; [congruence|exact Hm].
    + intros p [x Hp]. destruct (Hentries p) as [[_ Ht]|[_ Hs]]; [congruence|eauto].
    + intros p lv Hp. destruct (Hentries p) as [[Hs _]|[_ Hs]]; [congruence|].
      rewrite Hs in Hp. injection Hp as <-. tauto.
    + intros _ p Hp. destruct (Hentries p) as [[Hs _]|[_ Hs]]; congruence.
Qed.

(** Every state of the controller is well keyed. *)
Lemma running_well_keyed dry w status_interval n r σ out :
  running env status_interval n {| self := new_GPIOSafeguard dry; world := w |} = (r, σ, out) ->
  well_keyed σ.
Proof.
  intros E. unfold running, bind in E.
  destruct (startup env {| self := new_GPIOSafeguard dry; world := w |})
    as [[r1 σ1] t1] eqn:E1.
  pose proof (startup_well_keyed dry w r1 σ1 t1 E1) as K1.
  destruct r1 as [last|e].
  - destruct (loop env n status_interval last σ1) as [[r2 σ2] t2] eqn:E2.
    injection E as <- <- <-.
    assert (Hloop : well_keyed σ2 /\ Forall (fun _ => True) t2); [|apply Hloop].
    eapply (loop_preserves well_keyed (fun _ => True)); [| | |exact K1|exact E2].
    + intros σa ra σb outb Ka Ea.
      eapply (tick_preserves well_keyed (fun _ => True) σa); [exact Ka| |exact Ea].
      intros q v σc rc σd outd Hq Kc Hstep. split.
      * eapply pin_step_well_keyed; eassumption.
      * apply Forall_forall; intros; constructor.
    + intros σa σb Ka (Hs & _). unfold well_keyed. rewrite Hs. exact Ka.
    + intros; constructor.
  - injection E as <- <- <-. exact K1.
Qed.

(** *** The records of a tick and the object *)

Lemma read_events_unchanging pin r : unchanging (read_events pin r).
Proof. destruct r; repeat constructor. Qed.

Lemma returned_log_unchanging now pin timer : unchanging (returned_log now pin timer).
Proof. destruct timer; repeat constructor. Qed.

Lemma set_gpio_unchanging pin value σ r σ' out :
  set_gpio env pin value σ = (r, σ', out) -> unchanging out.
Proof.
  intros E. eapply Forall_impl; [eapply set_gpio_events; exact E|].
  intros [| | |[] []]; cbn; intros H; try destruct H; reflexivity.
Qed.

Lemma unchanging_not_in e t : unchanging t -> is_change e = true -> ~ In e t.
Proof.
  intros Ht He Hi. unfold unchanging in Ht. rewrite List.Forall_forall in Ht.
  rewrite (Ht _ Hi) in He. discriminate.
Qed.

(** The step of a pin that logs no state change and no violation leaves the
    object as it is and writes nothing. *)
Lemma pin_step_unchanged now q v σ r σ' out :
  pin_step env now q v σ r σ' out ->
  unchanging out ->
  self σ' = self σ /\ no_writes out /\ (forall v', r = Val v' -> v' = v).
Proof.
  intros H Hq.
  pose proof (read_events_no_writes q (raspi_gpio_get env q (gets (world σ) q))) as Hr.
  destruct H;
    try (split; [reflexivity|]; split; [exact Hr|]; intros v' Hv'; congruence);
    exfalso;
    match type of Hq with
    | unchanging (_ ++ ?e :: _) => apply (unchanging_not_in e _ Hq); [reflexivity|in_tac]
    end.
Qed.

Lemma check_pins_unchanged now pins :
  (forall q, In q pins -> In q MONITORED_PINS) ->
  forall v σ r σ' out,
    check_pins env now pins v σ = (r, σ', out) ->
    unchanging out ->
    self σ' = self σ /\ no_writes out /\ (forall v', r = Val v' -> v' = v).
Proof.
  induction pins as [|q rest IH]; intros Hmon v σ r σ' out E Hq.
  - cbn in E. injection E as <- <- <-.
    split; [reflexivity|]. split; [constructor|]. intros v' Hv'. congruence.
  - rewrite check_pins_cons in E.
    destruct (monitored_rule q) as (mx & Hrule & Hpos); [apply Hmon; left; reflexivity|].
    destruct (check_pin_step now q v σ mx Hrule ltac:(lia)) as (r1 & σ1 & t1 & E1 & H1).
    rewrite E1 in E.
    destruct r1 as [v1|e].
    + destruct (check_pins env now rest v1 σ1) as [[r2 σ2] t2] eqn:E2.
      injection E as <- <- <-.
      apply Forall_app in Hq as [Hq1 Hq2].
      destruct (pin_step_unchanged _ _ _ _ _ _ _ H1 Hq1) as (S1 & W1 & R1).
      destruct (IH ltac:(intros q' Hq'; apply Hmon; right; exact Hq') _ _ _ _ _ E2 Hq2)
        as (S2 & W2 & R2).
      split; [congruence|]. split; [apply Forall_app_2; assumption|].
      intros v' Hv'. rewrite (R2 v' Hv'). apply R1. reflexivity.
    + injection E as <- <- <-.
      destruct (pin_step_unchanged _ _ _ _ _ _ _ H1 Hq) as (S1 & W1 & R1).
      split; [exact S1|]. split; [exact W1|]. intros v' Hv'. discriminate.
Qed.

(** The step of a pin that logs a state change of it. *)
Lemma pin_step_change now pin v σ r σ' out lvl prev cur :
  In (EvLog lvl (StateChange pin prev cur)) out ->
  pin_step env now pin v σ r σ' out ->
  prev = gpio_states_get (self σ) pin /\
  next_read env σ pin = Some cur /\
  prev <> Some cur /\
  gpio_states (self σ') !! pin = Some (Some cur) /\
  (cur = 0 -> gpio_timers (self σ') !! pin = Some (Some now)) /\
  (cur = 1 -> forall v', r = Val v' -> gpio_timers (self σ') !! pin = Some None).
Proof.
  intros Hin H. unfold next_read.
  pose proof (read_events_unchanging pin (raspi_gpio_get env pin (gets (world σ) pin))) as Hr.
  assert (Hno : forall t, unchanging t -> ~ In (EvLog lvl (StateChange pin prev cur)) t)
    by (intros t Ht; apply unchanging_not_in; [exact Ht|reflexivity]).
  destruct H;
    try (exfalso; apply (Hno _ Hr); exact Hin).
  - apply in_app_or in Hin as [Hin|[Heq|[]]]; [destruct (Hno _ Hr Hin)|].
    injection Heq as <- <- <-. cbn. rewrite lookup_insert_eq.
    split_and!; try assumption; try reflexivity; try discriminate.
  - apply in_app_or in Hin as [Hin|[Heq|Hin]]; [destruct (Hno _ Hr Hin)| |].
    + injection Heq as <- <- <-. cbn. rewrite !lookup_insert_eq.
      split_and!; try assumption; try reflexivity; try discriminate.
    + destruct (Hno _ (returned_log_unchanging now pin timer) Hin).
  - apply in_app_or in Hin as [Hin|[Heq|[Heq|[]]]]; [destruct (Hno _ Hr Hin)| |discriminate].
    injection Heq as <- <- <-. cbn. rewrite !lookup_insert_eq.
    split_and!; try assumption; try reflexivity; try discriminate.
  - exfalso. apply in_app_or in Hin as [Hin|[Heq|Hin]];
      [destruct (Hno _ Hr Hin)|discriminate|].
    apply in_app_or in Hin as [Hin|[Heq|[]]]; [|discriminate].
    eapply Hno; [eapply set_gpio_unchanging; eassumption|exact Hin].
  - exfalso. apply in_app_or in Hin as [Hin|[Heq|Hin]];
      [destruct (Hno _ Hr Hin)|discriminate|].
    apply in_app_or in Hin as [Hin|[Heq|[]]]; [|discriminate].
    eapply Hno; [eapply set_gpio_unchanging; eassumption|exact Hin].
Qed.

(** *** Dry-run mode, the tracked level, the access check *)

(** In dry-run mode the step of a pin adds as much to one counter as to the
    other. *)
Lemma pin_step_dry_counts now q v σ r σ' out :
  dry_run (self σ) = true ->
  pin_step env now q v σ r σ' out ->
  corrections_made (self σ') - violations_count (self σ') =
  corrections_made (self σ) - violations_count (self σ).
Proof.
  intros Hdry H.
  step_cases H; cbn; rewrite ?Hself; cbn; try lia.
  exfalso.
  match goal with
  | Hiff : false = true <-> _ |- _ =>
      assert (false = true) by (apply Hiff; left; exact Hdry)
  end.
  discriminate.
Qed.

(** In dry-run mode the run up to any round of the loop counts as many
    corrections as violations. *)
Lemma running_dry_counts status_interval n σ r σ' out :
  dry_run (self σ) = true ->
  running env status_interval n σ = (r, σ', out) ->
  corrections_made (self σ') - violations_count (self σ') =
  corrections_made (self σ) - violations_count (self σ).
Proof.
  intros Hdry E. unfold running, bind in E.
  destruct (startup_dry σ Hdry) as (σs & outs & Es & Est).
  destruct (seed_pins_spec MONITORED_PINS NoDup_MONITORED_PINS σ)
    as (σs' & outs' & Es' & Hd & _ & Hev & _).
  rewrite Es in Es'. injection Es' as <- <-.
  pose proof (for_each_accounted _ _ seed_pin_accounted _ _ _ _ Es) as (Hv & Hc & _).
  destruct (tally_uncounted outs) as [Hv0 Hc0];
    [eapply Forall_impl; [exact Hev|exact seed_uncounted]|].
  rewrite Est in E.
  set (P := fun σa : State =>
              dry_run (self σa) = true /\
              corrections_made (self σa) - violations_count (self σa) =
              corrections_made (self σ) - violations_count (self σ)).
  assert (HP1 : P (ticked σs)) by (split; cbn; [congruence|lia]).
  destruct (loop env n status_interval (tick_now env σs) (ticked σs)) as [[r2 σ2] t2] eqn:E2.
  injection E as <- <- <-.
  assert (Hloop : P σ2 /\ Forall (fun _ => True) t2); [|apply Hloop].
  eapply (loop_preserves P (fun _ => True)); [| | |exact HP1|exact E2].
  - intros σa ra σb outb [Ha Hca] Ea.
    eapply (tick_preserves P (fun _ => True) σa); [split; [exact Ha|exact Hca]| |exact Ea].
    intros q v σc rc σd outd _ [Hcd Hcc] Hstep. split; [split|].
    + destruct (pin_step_steady _ _ _ _ _ _ _ Hstep) as (-> & _). exact Hcd.
    + rewrite (pin_step_dry_counts _ _ _ _ _ _ _ Hcd Hstep). exact Hcc.
    + apply Forall_forall; intros; constructor.
  - intros σa σb Ha (Hs & _). unfold P. rewrite Hs. exact Ha.
  - intros; constructor.
Qed.

(** After the step of a pin that returns, the pin is tracked at the level
    the step read, unless the step corrected it. *)
Lemma pin_step_tracks now pin v σ v' σ' out lv :
  next_read env σ pin = Some lv ->
  pin_step env now pin v σ (Val v') σ' out ->
  gpio_states (self σ') !! pin = Some (Some lv) \/
  (lv = 0 /\ In (EvLog WARNING (ForcedToSafe pin)) out /\
   gpio_states (self σ') !! pin = Some (Some 1) /\
   gpio_timers (self σ') !! pin = Some None).
Proof.
  unfold next_read. intros Hread H.
  remember (Val v') as r eqn:Hr.
  step_cases H; try discriminate; cbn; rewrite ?Hself; cbn; rewrite ?lookup_insert_eq;
    try (left; first [congruence | apply gpio_states_get_0; congruence]).
  right. split_and!; try reflexivity; [congruence|in_tac].
Qed.

Lemma read_events_no_report pin r p :
  ~ In (EvLog ERROR (CannotAccess p)) (read_events pin r).
Proof. destruct r; unfold read_events; cbn; intuition discriminate. Qed.

(** The access check reports the pins it cannot read, all of them. *)
Lemma access_check_reports pins :
  NoDup pins ->
  forall acc σ p,
    In (EvLog ERROR (CannotAccess p)) (access_check env pins acc σ).2 <->
    In p pins /\ next_read env σ p = None.
Proof.
  induction pins as [|pin rest IH]; intros Hnd acc σ p.
  - unfold access_check. cbn. tauto.
  - apply NoDup_cons in Hnd as [Hnotin Hnd]. rewrite list_elem_of_In in Hnotin.
    rewrite access_check_cons.
    assert (Hnext : p <> pin -> next_read env (got pin σ) p = next_read env σ p)
      by (intros Hne; unfold next_read, got; cbn; rewrite bump_other by exact Hne; reflexivity).
    pose proof (read_events_no_report pin (raspi_gpio_get env pin (gets (world σ) pin)) p) as Hr.
    destruct (next_read env σ pin) eqn:Hl.
    + specialize (IH Hnd acc (got pin σ) p).
      destruct (access_check env rest acc (got pin σ)) as [[r2 σ2] t2]. cbn [snd] in *.
      rewrite in_app_iff, IH. split.
      * intros [Hin|[Hp Hn]]; [contradiction|].
        split; [right; exact Hp|]. rewrite <- Hnext; [exact Hn|]. intros ->. contradiction.
      * intros [[<-|Hp] Hn]; [congruence|]. right. split; [exact Hp|].
        rewrite Hnext; [exact Hn|]. intros ->. contradiction.
    + specialize (IH Hnd false (got pin σ) p).
      destruct (access_check env rest false (got pin σ)) as [[r2 σ2] t2]. cbn [snd] in *.
      rewrite in_app_iff. cbn [In]. rewrite IH. split.
      * intros [Hin|[Heq|[Hp Hn]]]; [contradiction| |].
        -- injection Heq as <-. split; [left; reflexivity|exact Hl].
        -- split; [right; exact Hp|]. rewrite <- Hnext; [exact Hn|]. intros ->. contradiction.
      * intros [[<-|Hp] Hn]; [right; left; reflexivity|]. right. right. split; [exact Hp|].
        rewrite Hnext; [exact Hn|]. intros ->. contradiction.
Qed.

(** The run up to any round of the loop keeps the mode. *)
Lemma running_mode status_interval n σ r σ' out :
  running env status_interval n σ = (r, σ', out) ->
  dry_run (self σ') = dry_run (self σ).
Proof.
  intros E. unfold running, bind in E.
  destruct (startup env σ) as [[r1 σ1] t1] eqn:E1.
  assert (H1 : dry_run (self σ1) = dry_run (self σ)).
  { destruct (dry_run (self σ)) eqn:Hmode.
    - destruct (startup_dry σ Hmode) as (σs & outs & Es & Est).
      destruct (seed_pins_spec MONITORED_PINS NoDup_MONITORED_PINS σ)
        as (σs' & outs' & Es' & Hd & _).
      rewrite Es in Es'. injection Es' as <- <-.
      rewrite Est in E1. injection E1 as <- <- <-. cbn. congruence.
    - destruct (startup_live σ Hmode) as (σi & outi & Ei & Est).
      destruct (initialize_pins_spec MONITORED_PINS NoDup_MONITORED_PINS σ)
        as (σi' & outi' & Ei' & (Hd & _) & _).
      rewrite Ei in Ei'. injection Ei' as <- <-.
      rewrite Est in E1. injection E1 as <- <- <-. cbn. congruence. }
  destruct r1 as [last|e].
  - destruct (loop env n status_interval last σ1) as [[r2 σ2] t2] eqn:E2.
    injection E as <- <- <-.
    set (P := fun σa : State => dry_run (self σa) = dry_run (self σ)).
    assert (Hloop : P σ2 /\ Forall (fun _ => True) t2); [|apply Hloop].
    eapply (loop_preserves P (fun _ => True)); [| | |exact H1|exact E2].
    + intros σa ra σb outb Ha Ea.
      destruct (tick_keeps_tracked σa ra σb outb Ea) as [Hd _].
      split; [unfold P in *; congruence|apply Forall_forall; intros; constructor].
    + intros σa σb Ha (Hs & _). unfold P. rewrite Hs. exact Ha.
    + intros; constructor.
  - injection E as <- <- <-. exact H1.
Qed.

(** *** The causes of a violation record and of a write in a tick *)

(** A tick logs a violation of a pin only for a monitored pin tracked at 0
    with its timer set, overdue at the instant of the tick, that the tick
    reads at 0. *)
Lemma tick_violation_cause σ r σ' out pin elapsed max_allowed :
  check_safety_violations env σ = (r, σ', out) ->
  In (EvLog WARNING (SafetyViolation pin elapsed max_allowed)) out ->
  In pin MONITORED_PINS /\
  exists since,
    gpio_states (self σ) !! pin = Some (Some 0) /\
    gpio_timers (self σ) !! pin = Some (Some since) /\
    SAFETY_RULES !! pin = Some max_allowed /\
    elapsed = tick_now env σ - since /\
    elapsed > max_allowed /\
    next_read env σ pin = Some 0.
Proof.
  intros E Hin.
  assert (Hmon : In pin MONITORED_PINS)
    by (eapply tick_about; [exact E|exact Hin|reflexivity]).
  split; [exact Hmon|].
  pose proof (tick_focus pin σ r σ' out Hmon E) as F.
  assert (Hsil : forall t, silent_on pin t ->
                   ~ In (EvLog WARNING (SafetyViolation pin elapsed max_allowed)) t)
    by (intros t Ht; eapply silent_not_in; [exact Ht|reflexivity]).
  assert (Hstep : forall va σa vb σb tb,
            gpio_states (self σa) !! pin = gpio_states (self (ticked σ)) !! pin ->
            gpio_timers (self σa) !! pin = gpio_timers (self (ticked σ)) !! pin ->
            gets (world σa) pin = gets (world (ticked σ)) pin ->
            pin_step env (tick_now env σ) pin va σa vb σb tb ->
            In (EvLog WARNING (SafetyViolation pin elapsed max_allowed)) tb ->
            exists since,
              gpio_states (self σ) !! pin = Some (Some 0) /\
              gpio_timers (self σ) !! pin = Some (Some since) /\
              SAFETY_RULES !! pin = Some max_allowed /\
              elapsed = tick_now env σ - since /\
              elapsed > max_allowed /\
              next_read env σ pin = Some 0).
  { intros va σa vb σb tb A B C Hs Hi. cbn in A, B, C.
    destruct (pin_step_violation _ _ _ _ _ _ _ _ _ Hi Hs)
      as (since & Hst & Htm & Hrule & Hel & Hgt & Hread & _).
    exists since. unfold next_read in *. rewrite <- A, <- B, <- C.
    split_and!; try assumption. rewrite Hel. exact Hgt. }
  destruct F as [e σ' out (_ & _ & _ & _ & Sil) _
                |va σa ta e σb tb (A & B & C & _ & Sil) _ Hs
                |va σa ta vb σb tb r σ' tc (A & B & C & _ & Sil) _ Hs
                   (_ & _ & _ & _ & Sil') _].
  - destruct (Hsil _ Sil Hin).
  - apply in_app_or in Hin as [Hin|Hin]; [destruct (Hsil _ Sil Hin)|].
    eapply Hstep; eassumption.
  - apply in_app_or in Hin as [Hin|Hin]; [destruct (Hsil _ Sil Hin)|].
    apply in_app_or in Hin as [Hin|Hin]; [|destruct (Hsil _ Sil' Hin)].
    eapply Hstep; eassumption.
Qed.

(** A tick writes to a pin only in live mode, after a violation record of
    the pin. *)
Lemma tick_write_cause σ r σ' out pin d ok :
  check_safety_violations env σ = (r, σ', out) ->
  In (EvSet pin d ok) out ->
  In pin MONITORED_PINS /\ d = DriveHigh /\ dry_run (self σ) = false /\
  exists elapsed max_allowed t1 t2,
    out = t1 ++ EvLog WARNING (SafetyViolation pin elapsed max_allowed) :: t2 /\
    In (EvSet pin d ok) t2.
Proof.
  intros E Hin.
  pose proof (tick_safe _ _ _ _ E) as Hsafe. rewrite List.Forall_forall in Hsafe.
  destruct (Hsafe _ Hin) as [Hmon ->].
  split; [exact Hmon|]. split; [reflexivity|].
  pose proof (tick_focus pin σ r σ' out Hmon E) as F.
  assert (Hsil : forall t, silent_on pin t -> ~ In (EvSet pin DriveHigh ok) t)
    by (intros t Ht; eapply silent_not_in; [exact Ht|reflexivity]).
  destruct F as [e σ' out (_ & _ & _ & _ & Sil) _
                |va σa ta e σb tb (_ & _ & _ & _ & Sil) (Da & _) Hstep
                |va σa ta vb σb tb r σ' tc (_ & _ & _ & _ & Sil) (Da & _) Hstep
                   (_ & _ & _ & _ & Sil') _];
    try cbn in Da.
  - destruct (Hsil _ Sil Hin).
  - apply in_app_or in Hin as [Hin|Hin]; [destruct (Hsil _ Sil Hin)|].
    destruct (pin_step_write _ _ _ _ _ _ _ _ _ Hin Hstep)
      as (Hd & el & mx & t1 & t2 & -> & Hin2).
    split; [congruence|]. exists el, mx, (ta ++ t1), t2.
    split; [rewrite <- app_assoc; reflexivity|exact Hin2].
  - apply in_app_or in Hin as [Hin|Hin]; [destruct (Hsil _ Sil Hin)|].
    apply in_app_or in Hin as [Hin|Hin]; [|destruct (Hsil _ Sil' Hin)].
    destruct (pin_step_write _ _ _ _ _ _ _ _ _ Hin Hstep)
      as (Hd & el & mx & t1 & t2 & -> & Hin2).
    split; [congruence|]. exists el, mx, (ta ++ t1), (t2 ++ tc).
    split; [|apply in_or_app; left; exact Hin2].
    rewrite <- !app_assoc. reflexivity.
Qed.

(** *** Pins tracked at 0 without a timer *)

Lemma seeded_low_unchanged_got w pin σ :
  seeded_low_unchanged env w σ pin ->
  read_level (raspi_gpio_get env pin (gets (world σ) pin)) <> Some 1 ->
  seeded_low_unchanged env w (got pin σ) pin.
Proof.
  intros [H0 Hk] Hfresh. split; [exact H0|].
  intros k Hr. cbn in Hr. rewrite bump_same in Hr.
  destruct (Nat.eq_dec k (gets (world σ) pin)) as [->|Hne]; [exact Hfresh|].
  apply Hk. lia.
Qed.

Lemma pin_step_untimed_only now q v σ r σ' out w pin :
  pin_step env now q v σ r σ' out ->
  untimed_only_if_seeded env w pin σ -> untimed_only_if_seeded env w pin σ'.
Proof.
  intros H IH. unfold untimed_only_if_seeded, tracked_low, timer_set in *.
  destruct (Z.eq_dec q pin) as [->|Hne].
  - step_cases H; cbn; rewrite ?Hself; cbn; rewrite ?lookup_insert_eq;
      intros Hlow Hno; try discriminate;
      try (exfalso; apply Hno; eauto; fail);
      destruct (IH Hlow Hno) as [Htm Hun];
      (split; [exact Htm|]); apply seeded_low_unchanged_got; try exact Hun;
      try congruence.
    apply gpio_states_get_0 in H0. congruence.
  - destruct (pin_step_apart now q v σ r σ' out pin Hne H) as (Es & Et & Eg & _).
    rewrite Es, Et. intros Hlow Hno. destruct (IH Hlow Hno) as [Htm [H0 Hk]].
    split; [exact Htm|]. split; [exact H0|]. rewrite Eg. exact Hk.
Qed.

Lemma pin_step_seeded_stays now q v σ r σ' out w pin :
  pin_step env now q v σ r σ' out ->
  seeded_stays_untimed env w pin σ -> seeded_stays_untimed env w pin σ'.
Proof.
  intros H [Hg IH]. unfold seeded_stays_untimed, tracked_low in *.
  pose proof (pin_step_steady _ _ _ _ _ _ _ H) as (_ & _ & _ & _ & Hle).
  specialize (Hle pin).
  split; [lia|].
  destruct (Z.eq_dec q pin) as [->|Hne].
  - destruct (pin_step_reads _ _ _ _ _ _ _ H) as [Hlt _].
    intros [H0 Hk].
    destruct IH as [Hlow Htm]; [split; [exact H0|]; intros k Hr; apply Hk; lia|].
    assert (Hfresh : read_level (raspi_gpio_get env pin (gets (world σ) pin)) <> Some 1)
      by (apply Hk; lia).
    apply gpio_states_get_0 in Hlow.
    destruct H; try congruence; cbn; split; try assumption;
      apply gpio_states_get_0; assumption.
  - destruct (pin_step_apart now q v σ r σ' out pin Hne H) as (Es & Et & Eg & _).
    rewrite Es, Et. intros [H0 Hk]. apply IH. split; [exact H0|].
    rewrite <- Eg. exact Hk.
Qed.

(** In every state of the controller a pin is tracked at 0 with no timer
    set only in dry-run mode and only if it was seeded at 0 and not read at 1
    since; and in dry-run mode a monitored pin seeded at 0 and not read at 1
    since is tracked at 0 with its timer at None. *)
Lemma running_seeded dry w status_interval n r σ out pin :
  running env status_interval n {| self := new_GPIOSafeguard dry; world := w |} = (r, σ, out) ->
  untimed_only_if_seeded env w pin σ /\
  (dry = true -> In pin MONITORED_PINS -> seeded_stays_untimed env w pin σ).
Proof.
  set (σ0 := {| self := new_GPIOSafeguard dry; world := w |}).
  intros E. unfold running, bind in E.
  set (P := fun σa : State =>
              untimed_only_if_seeded env w pin σa /\
              (dry = true -> In pin MONITORED_PINS -> seeded_stays_untimed env w pin σa)).
  destruct (startup env σ0) as [[r1 σ1] t1] eqn:E1.
  assert (HP1 : P σ1).
  { unfold P, untimed_only_if_seeded, seeded_stays_untimed, seeded_low_unchanged,
      tracked_low, timer_set.
    destruct dry.
    - destruct (startup_dry σ0 eq_refl) as (σs & outs & Es & Est).
      rewrite Est in E1. injection E1 as <- <- <-.
      destruct (seed_pins_spec MONITORED_PINS NoDup_MONITORED_PINS σ0)
        as (σs' & outs' & Es' & _ & _ & _ & Hout & Hin).
      rewrite Es in Es'. injection Es' as <- <-. cbn.
      split.
      + intros Hlow Hno.
        destruct (in_dec Z.eq_dec pin MONITORED_PINS) as [Hm|Hm].
        * destruct (Hin pin Hm) as (Hst & Htm & Hg).
          rewrite Hst in Hlow. injection Hlow as Hlow. unfold next_read in Hlow. cbn in Hlow.
          split; [exact Htm|]. split; [exact Hlow|]. intros k Hk. rewrite Hg in Hk. cbn in Hk. lia.
        * destruct (Hout pin Hm) as (Hst & _). rewrite Hst in Hlow. cbn in Hlow.
          rewrite lookup_empty in Hlow. discriminate.
      + intros _ Hm. destruct (Hin pin Hm) as (Hst & Htm & Hg).
        split; [rewrite Hg; cbn; lia|].
        intros [H0 _]. split; [|exact Htm].
        rewrite Hst. unfold next_read. cbn. rewrite H0. reflexivity.
    - split; [|discriminate].
      intros Hlow _. exfalso.
      destruct (startup_inv false w r1 σ1 t1 E1) as (_ & _ & Hnolow).
      apply (Hnolow eq_refl pin). exact Hlow. }
  destruct r1 as [last|e].
  - destruct (loop env n status_interval last σ1) as [[r2 σ2] t2] eqn:E2.
    injection E as <- <- <-.
    assert (Hloop : P σ2 /\ Forall (fun _ => True) t2); [|apply Hloop].
    eapply (loop_preserves P (fun _ => True)); [| | |exact HP1|exact E2].
    + intros σa ra σb outb Ha Ea.
      eapply (tick_preserves P (fun _ => True) σa); [| |exact Ea].
      * destruct Ha as [Ha1 Ha2]. split; [exact Ha1|exact Ha2].
      * intros q v σc rc σd outd _ [Hc1 Hc2] Hstep. split; [split|].
        -- eapply pin_step_untimed_only; eassumption.
        -- intros Hd Hm. eapply pin_step_seeded_stays; [exact Hstep|apply Hc2; assumption].
        -- apply Forall_forall; intros; constructor.
    + intros σa σb Ha (Hs & Hg & _).
      unfold P, untimed_only_if_seeded, seeded_stays_untimed, seeded_low_unchanged in *.
      rewrite Hs, Hg. exact Ha.
    + intros; constructor.
  - injection E as <- <- <-. exact HP1.
Qed.

(** The step of a pin read at 0 that was not tracked at 0 tracks it at 0 and
    starts its timer at the instant of the tick. *)
Lemma pin_step_enters now pin v σ r σ' out :
  next_read env σ pin = Some 0 -> ~ tracked_low (self σ) pin ->
  pin_step env now pin v σ r σ' out ->
  r = Val v /\ tracked_low (self σ') pin /\ gpio_timers (self σ') !! pin = Some (Some now).
Proof.
  unfold next_read, tracked_low. intros Hread Hno H.
  destruct H; try congruence;
    try (exfalso; apply Hno; apply gpio_states_get_0; assumption).
  cbn. rewrite !lookup_insert_eq. split_and!; reflexivity.
Qed.

(** The same for a tick that returns. *)
Lemma tick_enters_low σ v σ' out pin :
  check_safety_violations env σ = (Val v, σ', out) ->
  In pin MONITORED_PINS ->
  next_read env σ pin = Some 0 -> ~ tracked_low (self σ) pin ->
  tracked_low (self σ') pin /\
  gpio_timers (self σ') !! pin = Some (Some (tick_now env σ)).
Proof.
  intros E Hmon Hread Hno.
  pose proof (tick_focus pin σ _ _ _ Hmon E) as F.
  inversion F as [| |va σa ta vb σb tb r0 σ0 tc (A & _ & C & _) _ Hstep (A' & B' & _) _];
    subst.
  cbn in A, C.
  destruct (pin_step_enters (tick_now env σ) pin va σa (Val vb) σb tb) as (_ & Hlow & Htm).
  - unfold next_read in *. rewrite C. exact Hread.
  - unfold tracked_low in *. rewrite A. exact Hno.
  - exact Hstep.
  - unfold tracked_low in *. rewrite A', B'. split; assumption.
Qed.

(** *** Reads that fail during startup *)

Lemma initialize_pin_unreadable pin σ :
  next_read env σ pin = None ->
  In (EvLog ERROR (CannotReadDuringInit pin)) (initialize_pin env pin σ).2.
Proof.
  unfold next_read. intros Hread.
  unfold initialize_pin, bind. rewrite read_gpio_run, Hread. cbn. in_tac.
Qed.

(** The initializer logs every pin it cannot read. *)
Lemma initialize_pins_unreadable pins :
  NoDup pins ->
  forall σ p, In p pins -> next_read env σ p = None ->
    In (EvLog ERROR (CannotReadDuringInit p)) (for_each (initialize_pin env) pins σ).2.
Proof.
  induction pins as [|h rest IH]; intros Hnd σ p Hp Hread; [destruct Hp|].
  apply NoDup_cons in Hnd as [Hnotin Hnd]. rewrite list_elem_of_In in Hnotin.
  rewrite for_each_cons.
  pose proof (initialize_pin_unreadable h σ) as H1.
  destruct (initialize_pin_spec h σ) as (σ1 & t1 & E1 & A1 & _).
  rewrite E1 in H1 |- *. cbn [snd] in H1.
  destruct (for_each (initialize_pin env) rest σ1) as [[r2 σ2] t2] eqn:E2. cbn [snd].
  destruct Hp as [<-|Hp].
  - apply in_or_app. left. apply H1, Hread.
  - assert (Hne : p <> h) by (intros ->; contradiction).
    destruct (A1 p Hne) as (_ & _ & Eg & _).
    specialize (IH Hnd σ1 p Hp). rewrite E2 in IH. cbn [snd] in IH.
    apply in_or_app. right. apply IH. unfold next_read in *. rewrite Eg. exact Hread.
Qed.

(** The dry-run seeding logs the state it read for every pin. *)
Lemma seed_pins_logged pins :
  NoDup pins ->
  forall σ p, In p pins ->
    In (EvLog INFO (CurrentState p (next_read env σ p))) (for_each (seed_pin env) pins σ).2.
Proof.
  induction pins as [|h rest IH]; intros Hnd σ p Hp; [destruct Hp|].
  apply NoDup_cons in Hnd as [Hnotin Hnd]. rewrite list_elem_of_In in Hnotin.
  rewrite for_each_cons, seed_pin_run.
  set (σ1 := with_self (set_timer h None)
               (with_self (set_state h (next_read env σ h)) (got h σ))).
  specialize (IH Hnd σ1 p).
  destruct (for_each (seed_pin env) rest σ1) as [[r2 σ2] t2]. cbn [snd] in *.
  destruct Hp as [<-|Hp].
  - in_tac.
  - assert (Hne : p <> h) by (intros ->; contradiction).
    assert (Hnext : next_read env σ1 p = next_read env σ p)
      by (unfold next_read; subst σ1; cbn; rewrite bump_other by exact Hne; reflexivity).
    rewrite Hnext in IH. apply in_or_app. right. apply IH, Hp.
Qed.

(** When the access check reads every monitored pin, [main] is the access
    check, [startup], which returns, and the loop from the state [startup]
    leaves. *)
Lemma main_loop_run dry status_interval σ :
  (forall q, In q MONITORED_PINS -> next_read env σ q <> None) ->
  exists σ1 out1 last_status σs outs,
    access_check env MONITORED_PINS true (with_self (fun _ => new_GPIOSafeguard dry) σ)
      = (Val true, σ1, out1) /\
    self σ1 = new_GPIOSafeguard dry /\
    (forall p, In p MONITORED_PINS -> gets (world σ1) p = S (gets (world σ) p)) /\
    startup env σ1 = (Val last_status, σs, outs) /\
    forall iterations,
      main env dry status_interval iterations σ =
        match loop env iterations status_interval last_status σs with
        | (Val _, σ2, t2) => (Val tt, σ2, out1 ++ outs ++ t2 ++ final_log (self σ2))
        | (Exc (KeyError key), σ2, t2) =>
            (Exc (SystemExit 1), σ2,
             out1 ++ outs ++ t2 ++ [EvLog ERROR (SafeguardFailed (KeyError key))])
        | (Exc (SystemExit code), σ2, t2) => (Exc (SystemExit code), σ2, out1 ++ outs ++ t2)
        end.
Proof.
  intros Hall.
  destruct (access_check_spec MONITORED_PINS NoDup_MONITORED_PINS true
              (with_self (fun _ => new_GPIOSafeguard dry) σ))
    as (acc & σ1 & out1 & Ea & Hself & _ & _ & _ & Hiff).
  assert (acc = true) as -> by (apply Hiff; split; [reflexivity|exact Hall]).
  destruct (startup_returns σ1) as (last_status & σs & outs & Es & _).
  exists σ1, out1, last_status, σs, outs.
  split; [exact Ea|]. split; [exact Hself|].
  split.
  { intros p Hp.
    rewrite (access_check_gets MONITORED_PINS NoDup_MONITORED_PINS _ _ _ _ _ Ea p Hp).
    reflexivity. }
  split; [exact Es|].
  intros n.
  destruct (main_run dry status_interval n σ) as (acc' & σ1' & out1' & Ea' & _ & _ & _ & Hmain).
  rewrite Ea in Ea'. injection Ea' as <- <- <-.
  destruct Hmain as (r2 & σ2 & out2 & E2 & ->).
  unfold running, bind in E2. rewrite Es in E2.
  destruct (loop env n status_interval last_status σs) as [[r σ'] t2].
  injection E2 as <- <- <-.
  destruct r as [x|[key|code]]; rewrite <- ?app_assoc; reflexivity.
Qed.

(** *** The violations of one pin in a tick *)

Lemma tally_le f g t :
  (forall e, f e = true -> g e = true) -> tally f t <= tally g t.
Proof.
  intros Hfg. induction t as [|e t IH]; [rewrite !tally_nil; lia|].
  rewrite !tally_cons. specialize (Hfg e).
  destruct (f e); [rewrite Hfg by reflexivity; lia|destruct (g e); lia].
Qed.

Lemma is_violation_of_violation pin e : is_violation_of pin e = true -> is_violation e = true.
Proof. destruct e as [| | |[] []]; cbn; congruence. Qed.

Lemma silent_violations_of pin t : silent_on pin t -> violations_logged_of pin t = 0.
Proof.
  unfold violations_logged_of, silent_on.
  induction 1 as [|e t He _ IH]; [reflexivity|].
  rewrite tally_cons, IH.
  destruct e as [| | |[] []]; cbn; try reflexivity.
  cbn in He. destruct (Z.eqb_spec pin0 pin) as [->|]; [congruence|reflexivity].
Qed.

(** A tick declares at most one violation of each pin, and none of a pin
    that is not monitored. *)
Lemma tick_violations_of σ r σ' out pin :
  check_safety_violations env σ = (r, σ', out) ->
  0 <= violations_logged_of pin out <= 1 /\
  (~ In pin MONITORED_PINS -> violations_logged_of pin out = 0).
Proof.
  intros E.
  assert (Hnn : 0 <= violations_logged_of pin out) by apply tally_nonneg.
  assert (Hstep : forall va σa r1 σb tb,
            pin_step env (tick_now env σ) pin va σa r1 σb tb ->
            violations_logged_of pin tb <= 1).
  { intros va σa r1 σb tb Hs.
    destruct (pin_step_accounted _ _ _ _ _ _ _ Hs) as (_ & Hb & _).
    pose proof (tally_le (is_violation_of pin) is_violation tb (is_violation_of_violation pin)).
    unfold violations_logged_of, violations_logged in *. lia. }
  destruct (in_dec Z.eq_dec pin MONITORED_PINS) as [Hmon|Hout].
  - split; [|contradiction]. split; [exact Hnn|].
    pose proof (tick_focus pin σ r σ' out Hmon E) as F.
    destruct F as [e σ' out (_ & _ & _ & _ & Sil) _
                  |va σa ta e σb tb (_ & _ & _ & _ & Sil) _ Hs
                  |va σa ta vb σb tb r σ' tc (_ & _ & _ & _ & Sil) _ Hs
                     (_ & _ & _ & _ & Sil') _].
    + rewrite (silent_violations_of _ _ Sil). lia.
    + unfold violations_logged_of in *. rewrite tally_app.
      pose proof (silent_violations_of _ _ Sil) as H1.
      pose proof (Hstep _ _ _ _ _ Hs) as H2.
      unfold violations_logged_of in *. lia.
    + unfold violations_logged_of in *. rewrite !tally_app.
      pose proof (silent_violations_of _ _ Sil) as H1.
      pose proof (silent_violations_of _ _ Sil') as H3.
      pose proof (Hstep _ _ _ _ _ Hs) as H2.
      unfold violations_logged_of in *. lia.
  - rewrite check_safety_violations_run in E.
    destruct (check_pins_apart _ pin MONITORED_PINS Hout ltac:(auto) _ _ _ _ _ E)
      as [(_ & _ & _ & _ & Sil) _].
    rewrite (silent_violations_of _ _ Sil). split; [lia|reflexivity].
Qed.

End Facts.

(** ** Runs against the example scripts *)

Example read_level_high : read_level level1 = Some 1.
Proof. reflexivity. Qed.

Example read_level_low : read_level level0 = Some 0.
Proof. reflexivity. Qed.

Example read_level_unknown :
  read_level garbled = None /\ read_level CalledProcessError = None.
Proof. split; reflexivity. Qed.

(** With every pin at 1 nothing is declared and nothing is written. *)
Example quiet_run :
  (main env_quiet false 30 3 (start false)).1.1 = Val tt /\
  violations_count (self (state_after env_quiet false 3)) = 0 /\
  List.filter is_set (main env_quiet false 30 3 (start false)).2 = [].
Proof. vm_compute. repeat split. Qed.

(** Pin 4 stuck at 0 in live mode: the initializer fails to raise it and
    tracks it at 1 all the same; the first tick starts its timer at 1.1 s;
    from the twelfth round on every round declares a violation and no
    correction is verified. *)
Example stuck_pin_run :
  gpio_timers (self (state_after env_stuck4 false 11)) !! 4 = Some (Some 1100000) /\
  violations_count (self (state_after env_stuck4 false 11)) = 0 /\
  violations_count (self (state_after env_stuck4 false 15)) = 4 /\
  corrections_made (self (state_after env_stuck4 false 15)) = 0.
Proof. vm_compute. repeat split. Qed.

(** A pin without tracked entries (its read failed in the initializer) that
    a tick reads at 1: [gpio_timers[pin]] raises KeyError, which [main]
    turns into exit status 1. *)
Example untracked_pin_read_high_raises :
  (main env_recovers2 false 30 1 (start false)).1.1 = Exc (SystemExit 1) /\
  last (main env_recovers2 false 30 1 (start false)).2 = Some (EvLog ERROR (SafeguardFailed (KeyError 2))) /\
  gpio_timers (self (main env_recovers2 false 30 1 (start false)).1.2) !! 2 = None.
Proof. vm_compute. repeat split. Qed.

Lemma state_after_reachable env dry n : reachable env (state_after env dry n).
Proof.
  unfold reachable, state_after, start.
  exists dry, world0, 30, n.
  destruct (running env 30 n {| self := new_GPIOSafeguard dry; world := world0 |})
    as [[r σ] out].
  exists r, out. reflexivity.
Qed.

(** ** The claims *)




(** Claim C2, as amended.  In every state of the controller (the state a
    run from a new object is in after its initialization and any number of
    rounds of its loop) and for every pin: the timer is set only if the pin
    is tracked at level 0; in live mode a pin tracked at level 0 has its
    timer set; in dry-run mode a monitored pin is tracked at level 0 with no
    timer set exactly when the seeding read it at 0 and no read of it since
    gave 1, and its timer is then None, so that every other pin tracked at 0
    has its timer set.  Over a tick, in both modes: a timer that was set is
    cleared only if the pin is then tracked at level 1; a pin tracked at
    level 1 after the tick has no timer set; and a tick that returns and
    reads at 0 a monitored pin that was not tracked at 0 tracks it at 0 and
    sets its timer to the instant of the tick. *)
Theorem timer_set_only_while_low env dry w status_interval iterations r σ out :
  running env status_interval iterations {| self := new_GPIOSafeguard dry; world := w |}
    = (r, σ, out) ->
  forall pin,
    (timer_set (self σ) pin -> tracked_low (self σ) pin) /\
    (dry_run (self σ) = false -> tracked_low (self σ) pin -> timer_set (self σ) pin) /\
    (dry_run (self σ) = true -> In pin MONITORED_PINS ->
     (tracked_low (self σ) pin /\ ~ timer_set (self σ) pin <->
      seeded_low_unchanged env w σ pin) /\
     (seeded_low_unchanged env w σ pin -> gpio_timers (self σ) !! pin = Some None)) /\
    (forall r' σ' out',
       check_safety_violations env σ = (r', σ', out') ->
       (timer_set (self σ) pin -> ~ timer_set (self σ') pin ->
        gpio_states (self σ') !! pin = Some (Some 1)) /\
       (gpio_states (self σ') !! pin = Some (Some 1) -> ~ timer_set (self σ') pin) /\
       (In pin MONITORED_PINS -> next_read env σ pin = Some 0 ->
        ~ tracked_low (self σ) pin ->
        forall v, r' = Val v ->
          tracked_low (self σ') pin /\
          gpio_timers (self σ') !! pin = Some (Some (tick_now env σ)))).
Proof.
  intros E pin.
  assert (Hreach : reachable env σ) by (exists dry, w, status_interval, iterations, r, out; exact E).
  pose proof (reachable_timer_invariant env σ Hreach) as Hinv.
  pose proof (running_mode env _ _ _ _ _ _ E) as Hmode. cbn in Hmode.
  destruct (running_seeded env dry w status_interval iterations r σ out pin E) as [Hun Hst].
  destruct Hinv as [I1 I2]. split_and!.
  - apply I1.
  - intros Hlive. apply I2, Hlive.
  - intros Hdry Hmon.
    assert (dry = true) as -> by congruence.
    destruct (Hst eq_refl Hmon) as [_ Hstay].
    split; [split|].
    + intros [Hlow Hno]. apply Hun; assumption.
    + intros Hs. destruct (Hstay Hs) as [Hlow Htm]. split; [exact Hlow|].
      intros [t Ht]. congruence.
    + intros Hs. apply Hstay, Hs.
  - intros r' σ' out' E'. split_and!.
    + intros Hset Hclear.
      destruct (tick_cleared env σ r' σ' out' pin (conj I1 I2) E' Hset) as [H|H];
        [contradiction|exact H].
    + intros Hhigh Hset.
      destruct (tick_timer_invariant env σ r' σ' out' (conj I1 I2) E') as [I1' _].
      specialize (I1' pin Hset). unfold tracked_low in I1'. congruence.
    + intros Hmon Hread Hno v ->.
      eapply tick_enters_low; eassumption.
Qed.

Lemma timer_set_only_while_low_witness :
  let o := running env_falls4 30 11 {| self := new_GPIOSafeguard true; world := world0 |} in
  let σ := o.1.2 in
  (timer_set (self σ) 4 -> tracked_low (self σ) 4) /\
  (dry_run (self σ) = false -> tracked_low (self σ) 4 -> timer_set (self σ) 4) /\
  (dry_run (self σ) = true -> In 4 MONITORED_PINS ->
   (tracked_low (self σ) 4 /\ ~ timer_set (self σ) 4 <->
    seeded_low_unchanged env_falls4 world0 σ 4) /\
   (seeded_low_unchanged env_falls4 world0 σ 4 -> gpio_timers (self σ) !! 4 = Some None)) /\
  (forall r' σ' out',
     check_safety_violations env_falls4 σ = (r', σ', out') ->
     (timer_set (self σ) 4 -> ~ timer_set (self σ') 4 ->
      gpio_states (self σ') !! 4 = Some (Some 1)) /\
     (gpio_states (self σ') !! 4 = Some (Some 1) -> ~ timer_set (self σ') 4) /\
     (In 4 MONITORED_PINS -> next_read env_falls4 σ 4 = Some 0 ->
      ~ tracked_low (self σ) 4 ->
      forall v, r' = Val v ->
        tracked_low (self σ') 4 /\
        gpio_timers (self σ') !! 4 = Some (Some (tick_now env_falls4 σ)))).
Proof.
  intros o σ.
  apply (timer_set_only_while_low env_falls4 true world0 30 11 o.1.1 σ o.2).
  unfold σ, o.
  destruct (running env_falls4 30 11 {| self := new_GPIOSafeguard true; world := world0 |})
    as [[r σ'] out].
  reflexivity.
Defined.

(** Claim C2 as worded fails: in dry-run mode against [env_stuck4] pin 4
    reads 0 at startup, and after three rounds it is tracked at level 0 with
    no timer set. *)
Lemma seeded_low_pin_has_no_timer :
  ~ (forall σ, reachable env_stuck4 σ -> timer_iff_low σ).
Proof.
  intros H.
  specialize (H (state_after env_stuck4 true 3) (state_after_reachable env_stuck4 true 3)).
  destruct (H 4) as [_ Hlow]; [cbn; tauto|].
  destruct Hlow as [t Ht]; [vm_compute; reflexivity|].
  vm_compute in Ht. discriminate.
Qed.

(** Claim C3, as amended.  In live mode [set_gpio(pin, value)] returns after
    one to three attempts, 50 ms of backoff between two of them.  An attempt
    is a write; when the command succeeds it is followed by the 10 ms settle
    delay and a read-back, and when the command fails the attempt has no
    read-back and counts as failed.  The result is success exactly when some
    attempt read the target value back, and that attempt is the last one; a
    read-back that is unknown and one that is a wrong value are the same
    failed attempt; failure is returned only when all three attempts are
    used. *)
Theorem set_gpio_bounded_verified_retry env σ pin value :
  dry_run (self σ) = false ->
  exists attempts b σ' out,
    set_gpio env pin value σ = (Val b, σ', out) /\
    io_events out = attempts_io pin (drive_for value) attempts /\
    (1 <= length attempts <= 3)%nat /\
    b = existsb (verified value) attempts /\
    (forall i a, attempts !! i = Some a -> verified value a = true ->
                 S i = length attempts) /\
    (b = false -> length attempts = 3%nat).
Proof.
  intros Hlive.
  destruct (set_gpio_live env pin value σ Hlive)
    as (attempts & b & σ' & out & E & _ & _ & IO & Hlen & Hb & Hlast & Hfail & _).
  exists attempts, b, σ', out. split_and!; try assumption; lia.
Qed.

Lemma set_gpio_bounded_verified_retry_witness :
  exists attempts b σ' out,
    set_gpio env_stuck4 4 1 (start false) = (Val b, σ', out) /\
    io_events out = attempts_io 4 (drive_for 1) attempts /\
    (1 <= length attempts <= 3)%nat /\
    b = existsb (verified 1) attempts /\
    (forall i a, attempts !! i = Some a -> verified 1 a = true ->
                 S i = length attempts) /\
    (b = false -> length attempts = 3%nat).
Proof.
  apply (set_gpio_bounded_verified_retry env_stuck4 (start false) 4 1).
  reflexivity.
Defined.

(** Claim C3 as worded fails: when the write command itself fails, the
    attempt has no settle delay and no read-back. *)
Lemma failed_write_has_no_read_back :
  ~ every_attempt_reads_back env_no_write (start false) 4 1.
Proof.
  unfold every_attempt_reads_back.
  destruct (set_gpio env_no_write 4 1 (start false)) as [[r σ'] out] eqn:E.
  vm_compute in E. injection E as <- <- <-.
  intros (_ & H & _).
  destruct (H [] DriveHigh false
              [EvSleep 50000; EvSet 4 DriveHigh false; EvSleep 50000;
               EvSet 4 DriveHigh false]) as (rb & rest & Heq).
  - reflexivity.
  - discriminate.
Qed.

(** Claim C4.  When the loop body of a tick handles a violation for a pin
    (the pin is read at 0, is tracked at 0, and its timer has run for more
    than the rule allows), [violations_count] grows by one and [set_gpio(pin,
    1)] is called once, with result [b].  [b] is success exactly in dry-run
    mode or when a read-back of the pin gave 1.  On success the timer of the
    pin is cleared, its tracked level is 1 and [corrections_made] grows by
    one; on failure [gpio_timers], [gpio_states] and [corrections_made] are
    as they were. *)
Theorem violation_outcome env now pin v σ since max_allowed :
  next_read env σ pin = Some 0 ->
  gpio_states (self σ) !! pin = Some (Some 0) ->
  gpio_timers (self σ) !! pin = Some (Some since) ->
  SAFETY_RULES !! pin = Some max_allowed ->
  now - since > max_allowed ->
  exists b σ1 out1 σ' out,
    check_pin env now pin v σ = (Val true, σ', out) /\
    set_gpio env pin 1 (with_self incr_violations (got pin σ)) = (Val b, σ1, out1) /\
    (b = true <->
       dry_run (self σ) = true \/
       exists r, In (EvGet pin r) out /\ read_level r = Some 1) /\
    violations_count (self σ') = violations_count (self σ) + 1 /\
    (if b
     then gpio_timers (self σ') !! pin = Some None /\
          gpio_states (self σ') !! pin = Some (Some 1) /\
          corrections_made (self σ') = corrections_made (self σ) + 1
     else gpio_timers (self σ') = gpio_timers (self σ) /\
          gpio_states (self σ') = gpio_states (self σ) /\
          corrections_made (self σ') = corrections_made (self σ)).
Proof.
  intros Hread Hst Htm Hrule Hgt.
  assert (Hmax : 0 <= max_allowed).
  { assert (In pin MONITORED_PINS) as Hin.
    { unfold SAFETY_RULES in Hrule. cbn.
      destruct (Z.eq_dec pin 2) as [->|?]; [tauto|].
      destruct (Z.eq_dec pin 3) as [->|?]; [tauto|].
      destruct (Z.eq_dec pin 4) as [->|?]; [tauto|].
      destruct (Z.eq_dec pin 10) as [->|?]; [tauto|].
      rewrite !lookup_insert_ne, lookup_empty in Hrule by congruence. discriminate. }
    destruct (monitored_rule pin Hin) as (mx & Hmx & Hpos). assert (mx = max_allowed) by congruence. lia. }
  destruct (check_pin_step env now pin v σ max_allowed Hrule Hmax) as (r & σ' & out & E & Hstep).
  destruct (pin_step_overdue env now pin v σ r σ' out since max_allowed
              Hread Hst Htm Hrule Hgt Hstep)
    as (b & σ1 & out1 & Eset & Hpost & -> & -> & ->).
  exists b, σ1, out1, (if b then with_self (set_timer pin None)
                         (with_self (set_state pin (Some 1)) (with_self incr_corrections σ1))
                  else σ1).
  eexists. split; [exact E|]. split; [exact Eset|].
  destruct Hpost as ((Hself & _) & _ & Hiff & _ & _).
  cbn in Hself, Hiff.
  split_and!.
  - rewrite Hiff. split; (intros [Hd|(rb & Hin & Hlvl)]; [left; exact Hd|right; exists rb]).
    + split; [in_tac|exact Hlvl].
    + split; [|exact Hlvl].
      apply in_app_or in Hin as [Hin|Hin].
      * unfold next_read in Hread. unfold read_events in Hin.
        destruct (raspi_gpio_get env pin (gets (world σ) pin)) eqn:Hfresh;
          cbn in Hin; destruct Hin as [Hin|Hin]; try (exfalso; congruence);
          try destruct Hin as [Hin|[]]; try discriminate; try contradiction.
      * destruct Hin as [Hin|Hin]; [discriminate|].
        apply in_app_or in Hin as [Hin|Hin]; [exact Hin|].
        destruct b; destruct Hin as [Hin|[]]; discriminate.
  - destruct b; cbn; rewrite Hself; reflexivity.
  - destruct b; cbn; rewrite Hself; cbn.
    + rewrite !lookup_insert_eq. split_and!; reflexivity.
    + split_and!; reflexivity.
Qed.

Lemma violation_outcome_witness :
  let σ := state_after env_stuck4 false 11 in
  exists b σ1 out1 σ' out,
    check_pin env_stuck4 3300000 4 false σ = (Val true, σ', out) /\
    set_gpio env_stuck4 4 1 (with_self incr_violations (got 4 σ)) = (Val b, σ1, out1) /\
    (b = true <->
       dry_run (self σ) = true \/
       exists r, In (EvGet 4 r) out /\ read_level r = Some 1) /\
    violations_count (self σ') = violations_count (self σ) + 1 /\
    (if b
     then gpio_timers (self σ') !! 4 = Some None /\
          gpio_states (self σ') !! 4 = Some (Some 1) /\
          corrections_made (self σ') = corrections_made (self σ) + 1
     else gpio_timers (self σ') = gpio_timers (self σ) /\
          gpio_states (self σ') = gpio_states (self σ) /\
          corrections_made (self σ') = corrections_made (self σ)).
Proof.
  intros σ.
  apply (violation_outcome env_stuck4 3300000 4 false σ 1100000 2000000);
    vm_compute; reflexivity.
Defined.




(** Claim C6.  If the read of a monitored pin by a tick is unknown (the
    command fails or prints no level), the tick leaves both tracked entries
    of that pin, [gpio_states[pin]] and [gpio_timers[pin]], as they were:
    a failed read is not a return to the safe level. *)
Theorem unknown_read_leaves_pin_state env σ pin r σ' out :
  In pin MONITORED_PINS ->
  next_read env σ pin = None ->
  check_safety_violations env σ = (r, σ', out) ->
  gpio_states (self σ') !! pin = gpio_states (self σ) !! pin /\
  gpio_timers (self σ') !! pin = gpio_timers (self σ) !! pin.
Proof.
  intros Hin Hread E.
  pose proof (tick_focus env pin σ r σ' out Hin E) as F.
  destruct F as [e σ' out (A & B & C & _) _
                |va σa ta e σb tb (A & B & C & _) _ Hstep
                |va σa ta vb σb tb r σ' tc (A & B & C & _) _ Hstep (A' & B' & _) _];
    cbn in A, B, C.
  - split; assumption.
  - apply pin_step_unknown in Hstep as [Hr _]; [discriminate|].
    unfold next_read in *. rewrite C. exact Hread.
  - apply pin_step_unknown in Hstep as [_ ->];
      [|unfold next_read in *; rewrite C; exact Hread].
    cbn in A', B'. split; congruence.
Qed.

Lemma unknown_read_leaves_pin_state_witness :
  let '(r, σ', out) := check_safety_violations env_lost4 (state_after env_lost4 false 11) in
  gpio_states (self σ') !! 4 = gpio_states (self (state_after env_lost4 false 11)) !! 4 /\
  gpio_timers (self σ') !! 4 = gpio_timers (self (state_after env_lost4 false 11)) !! 4.
Proof.
  destruct (check_safety_violations env_lost4 (state_after env_lost4 false 11))
    as [[r σ'] out] eqn:E.
  apply (unknown_read_leaves_pin_state env_lost4 _ 4 r σ' out);
    [cbn; tauto | vm_compute; reflexivity | exact E].
Defined.

(** Claim C7, as amended.  If a monitored pin cannot be read by the access
    check of [main] (the first read of each pin), the process logs that it
    cannot access the pin, logs the access failure as its last record and
    exits with status 1: [run_safeguard] is not called (its first record is
    not logged, the clock is never read, the object is as [__init__] made
    it).  A read that fails later during startup is not fatal: when the
    access check reads every monitored pin, [startup] returns and [main]
    goes on with the loop from the state [startup] leaves, whatever the
    initializer or the dry-run seeding read.  A pin the initializer cannot
    read (the second read of the pin) is logged and left without entry in
    [gpio_states] and [gpio_timers]; a pin the dry-run seeding cannot read
    is logged with state None and tracked at None, its timer None. *)
Theorem unreadable_pin_at_access_check_is_fatal env dry status_interval σ :
  (forall pin iterations,
     In pin MONITORED_PINS ->
     next_read env σ pin = None ->
     exists σ' out,
       main env dry status_interval iterations σ = (Exc (SystemExit 1), σ', out) /\
       self σ' = new_GPIOSafeguard dry /\
       nows (world σ') = nows (world σ) /\
       ~ In (EvLog INFO (Starting dry)) out /\
       In (EvLog ERROR (CannotAccess pin)) out /\
       last out = Some (EvLog ERROR AccessFailed)) /\
  ((forall q, In q MONITORED_PINS -> next_read env σ q <> None) ->
   exists σ1 out1 last_status σs outs,
     access_check env MONITORED_PINS true (with_self (fun _ => new_GPIOSafeguard dry) σ)
       = (Val true, σ1, out1) /\
     startup env σ1 = (Val last_status, σs, outs) /\
     (forall iterations,
        main env dry status_interval iterations σ =
          match loop env iterations status_interval last_status σs with
          | (Val _, σ2, t2) => (Val tt, σ2, out1 ++ outs ++ t2 ++ final_log (self σ2))
          | (Exc (KeyError key), σ2, t2) =>
              (Exc (SystemExit 1), σ2,
               out1 ++ outs ++ t2 ++ [EvLog ERROR (SafeguardFailed (KeyError key))])
          | (Exc (SystemExit code), σ2, t2) =>
              (Exc (SystemExit code), σ2, out1 ++ outs ++ t2)
          end) /\
     forall p, In p MONITORED_PINS ->
       read_level (raspi_gpio_get env p (S (gets (world σ) p))) = None ->
       if dry
       then In (EvLog INFO (CurrentState p None)) outs /\
            gpio_states (self σs) !! p = Some None /\
            gpio_timers (self σs) !! p = Some None
       else In (EvLog ERROR (CannotReadDuringInit p)) outs /\
            gpio_states (self σs) !! p = None /\
            gpio_timers (self σs) !! p = None).
Proof.
  split.
  - intros pin iterations Hin Hread.
    destruct (main_run env dry status_interval iterations σ)
      as (acc & σ1 & out1 & E & Hself & Hev & Hiff & Hmain).
    destruct (access_check_spec env MONITORED_PINS NoDup_MONITORED_PINS true
                (with_self (fun _ => new_GPIOSafeguard dry) σ))
      as (acc' & σ1' & out1' & E' & _ & Hnows & _).
    rewrite E in E'. injection E' as <- <- <-.
    assert (acc = false) as ->.
    { destruct acc; [|reflexivity]. exfalso.
      destruct Hiff as [Hiff _]. apply (Hiff eq_refl pin Hin). exact Hread. }
    pose proof (access_check_reports env MONITORED_PINS NoDup_MONITORED_PINS true
                  (with_self (fun _ => new_GPIOSafeguard dry) σ) pin) as Hrep.
    rewrite E in Hrep. cbn [snd] in Hrep.
    exists σ1, (out1 ++ [EvLog ERROR AccessFailed]). split_and!.
    + exact Hmain.
    + exact Hself.
    + exact Hnows.
    + intros Hstart. apply in_app_or in Hstart as [Hstart|[Hstart|[]]]; [|discriminate].
      rewrite Forall_forall in Hev. apply list_elem_of_In, Hev in Hstart. exact Hstart.
    + apply in_or_app. left. apply Hrep. split; [exact Hin|exact Hread].
    + apply last_snoc.
  - intros Hall.
    destruct (main_loop_run env dry status_interval σ Hall)
      as (σ1 & out1 & last_status & σs & outs & Ea & Hself & Hgets & Es & Hmain).
    exists σ1, out1, last_status, σs, outs.
    split; [exact Ea|]. split; [exact Es|]. split; [exact Hmain|].
    intros p Hp Hsecond.
    assert (Hread : next_read env σ1 p = None)
      by (unfold next_read; rewrite (Hgets p Hp); exact Hsecond).
    destruct dry.
    + destruct (startup_dry env σ1) as (σd & outd & Ed & Est); [rewrite Hself; reflexivity|].
      rewrite Est in Es. injection Es as <- <- <-.
      destruct (seed_pins_spec env MONITORED_PINS NoDup_MONITORED_PINS σ1)
        as (σd' & outd' & Ed' & _ & _ & _ & _ & Hpins).
      rewrite Ed in Ed'. injection Ed' as <- <-.
      destruct (Hpins p Hp) as (Hst & Htm & _). rewrite Hread in Hst.
      pose proof (seed_pins_logged env MONITORED_PINS NoDup_MONITORED_PINS σ1 p Hp) as Hlog.
      rewrite Ed, Hread in Hlog. cbn [snd] in Hlog.
      split_and!; [unfold banner; cbn [app]; do 4 right; apply in_or_app; left; exact Hlog
                  |exact Hst|exact Htm].
    + destruct (startup_live env σ1) as (σi & outi & Ei & Est); [rewrite Hself; reflexivity|].
      rewrite Est in Es. injection Es as <- <- <-.
      destruct (initialize_pins_spec env MONITORED_PINS NoDup_MONITORED_PINS σ1)
        as (σi' & outi' & Ei' & _ & _ & Hpins).
      rewrite Ei in Ei'. injection Ei' as <- <-.
      destruct (Hpins p Hp) as [Hnone _]. destruct (Hnone Hread) as [Hst Htm].
      rewrite Hself in Hst, Htm. cbn in Hst, Htm. rewrite lookup_empty in Hst, Htm.
      pose proof (initialize_pins_unreadable env MONITORED_PINS NoDup_MONITORED_PINS σ1 p Hp
                    Hread) as Hlog.
      rewrite Ei in Hlog. cbn [snd] in Hlog.
      split_and!; [unfold banner; cbn [app]; do 5 right; apply in_or_app; left; exact Hlog
                  |exact Hst|exact Htm].
Qed.

Lemma unreadable_pin_at_access_check_is_fatal_witness :
  (exists σ' out,
     main env_unreadable2 false 30 5 (start false) = (Exc (SystemExit 1), σ', out) /\
     self σ' = new_GPIOSafeguard false /\
     nows (world σ') = nows (world (start false)) /\
     ~ In (EvLog INFO (Starting false)) out /\
     In (EvLog ERROR (CannotAccess 2)) out /\
     last out = Some (EvLog ERROR AccessFailed)) /\
  (exists σ1 out1 last_status σs outs,
     access_check env_late_unreadable2 MONITORED_PINS true
       (with_self (fun _ => new_GPIOSafeguard false) (start false)) = (Val true, σ1, out1) /\
     startup env_late_unreadable2 σ1 = (Val last_status, σs, outs) /\
     (forall iterations,
        main env_late_unreadable2 false 30 iterations (start false) =
          match loop env_late_unreadable2 iterations 30 last_status σs with
          | (Val _, σ2, t2) => (Val tt, σ2, out1 ++ outs ++ t2 ++ final_log (self σ2))
          | (Exc (KeyError key), σ2, t2) =>
              (Exc (SystemExit 1), σ2,
               out1 ++ outs ++ t2 ++ [EvLog ERROR (SafeguardFailed (KeyError key))])
          | (Exc (SystemExit code), σ2, t2) =>
              (Exc (SystemExit code), σ2, out1 ++ outs ++ t2)
          end) /\
     forall p, In p MONITORED_PINS ->
       read_level (raspi_gpio_get env_late_unreadable2 p (S (gets (world (start false)) p)))
         = None ->
       In (EvLog ERROR (CannotReadDuringInit p)) outs /\
       gpio_states (self σs) !! p = None /\
       gpio_timers (self σs) !! p = None).
Proof.
  split.
  - apply (proj1 (unreadable_pin_at_access_check_is_fatal env_unreadable2 false 30 (start false))
             2 5%nat).
    + cbn; tauto.
    + vm_compute; reflexivity.
  - apply (proj2 (unreadable_pin_at_access_check_is_fatal env_late_unreadable2 false 30
                    (start false))).
    intros q [<-|[<-|[<-|[<-|[]]]]]; vm_compute; discriminate.
Defined.

(** Claim C7 as worded fails: in live mode the access check reads pin 2,
    the initializer then cannot read it, logs the error and goes on, and the
    run enters the loop and ends with status 0 when interrupted. *)
Lemma unreadable_pin_at_initialization_is_not_fatal :
  ~ startup_read_failure_is_fatal env_late_unreadable2 false 30 3 (start false).
Proof.
  unfold startup_read_failure_is_fatal. intros H.
  destruct H as (code & σ' & out & E & _).
  - exists 2, garbled. split; [cbn; tauto|]. split; [|reflexivity].
    apply (nth_error_In _ 9). vm_compute. reflexivity.
  - assert (Hres : (main env_late_unreadable2 false 30 3 (start false)).1.1 = Val tt)
      by (vm_compute; reflexivity).
    rewrite E in Hres. discriminate.
Qed.

(** Claim C8.  In dry-run mode no run of [main] ever executes
    [raspi-gpio set]; and a tick of a dry-run run that finds the timer of a
    monitored pin run for more than its rule, and reads the pin at 0, still
    declares the violation ([violations_count] grows, the violation is
    logged), logs the intended write and treats the correction as verified:
    [corrections_made] grows, the timer of the pin is cleared and its tracked
    level is 1, as after a verified correction in live mode. *)
Theorem dry_run_never_writes_and_still_counts env :
  (forall status_interval iterations σ r σ' out,
     main env true status_interval iterations σ = (r, σ', out) -> no_writes out) /\
  (forall σ pin since max_allowed,
     reachable env σ ->
     dry_run (self σ) = true ->
     In pin MONITORED_PINS ->
     gpio_timers (self σ) !! pin = Some (Some since) ->
     SAFETY_RULES !! pin = Some max_allowed ->
     tick_now env σ - since > max_allowed ->
     next_read env σ pin = Some 0 ->
     exists v σ' out,
       check_safety_violations env σ = (Val v, σ', out) /\
       no_writes out /\
       violations_count (self σ) < violations_count (self σ') /\
       corrections_made (self σ) < corrections_made (self σ') /\
       In (EvLog WARNING (SafetyViolation pin (tick_now env σ - since) max_allowed)) out /\
       In (EvLog INFO (DryRunWouldSet pin 1)) out /\
       In (EvLog WARNING (ForcedToSafe pin)) out /\
       gpio_timers (self σ') !! pin = Some None /\
       gpio_states (self σ') !! pin = Some (Some 1)).
Proof.
  split.
  - intros si n σ r σ' out E. eapply main_dry. exact E.
  - intros σ pin since max_allowed Hreach Hdry Hin Htm Hrule Hgt Hread.
    pose proof (reachable_dry_tracked env σ Hreach Hdry) as Htr.
    assert (Hst : gpio_states (self σ) !! pin = Some (Some 0)).
    { destruct (reachable_timer_invariant env σ Hreach) as [Hlow _].
      apply Hlow. exists since. exact Htm. }
    destruct (tick_overdue env σ pin since max_allowed Htr Hin Hst Htm Hrule Hgt Hread)
      as (v & σ' & out & b & σx & σ1 & out1 & E & Eset & Hpost & Hd & _ & Hv & Hlog & Hsub & Hb).
    destruct Hpost as (_ & _ & Hiff & _ & Hmode).
    rewrite Hd, Hdry in Hmode, Hiff. destruct Hmode as [-> _].
    assert (b = true) as -> by (apply Hiff; left; reflexivity).
    destruct Hb as (Hforced & Ht & Hs & Hc).
    exists v, σ', out. split_and!; try assumption.
    + destruct (tick_dry env σ _ _ _ Hdry E) as [_ Hw]. exact Hw.
    + apply Hsub. left. reflexivity.
Qed.

Lemma dry_run_never_writes_and_still_counts_witness :
  no_writes (main env_falls4 true 30 20 (start true)).2 /\
  let σ := state_after env_falls4 true 11 in
  exists v σ' out,
    check_safety_violations env_falls4 σ = (Val v, σ', out) /\
    no_writes out /\
    violations_count (self σ) < violations_count (self σ') /\
    corrections_made (self σ) < corrections_made (self σ') /\
    In (EvLog WARNING (SafetyViolation 4 (tick_now env_falls4 σ - 1100000) 2000000)) out /\
    In (EvLog INFO (DryRunWouldSet 4 1)) out /\
    In (EvLog WARNING (ForcedToSafe 4)) out /\
    gpio_timers (self σ') !! 4 = Some None /\
    gpio_states (self σ') !! 4 = Some (Some 1).
Proof.
  split.
  - destruct (main env_falls4 true 30 20 (start true)) as [[r σ'] out] eqn:E.
    exact (proj1 (dry_run_never_writes_and_still_counts env_falls4) 30 20%nat _ r σ' out E).
  - intros σ.
    apply (proj2 (dry_run_never_writes_and_still_counts env_falls4) σ 4 1100000 2000000).
    + apply state_after_reachable.
    + vm_compute; reflexivity.
    + cbn; tauto.
    + vm_compute; reflexivity.
    + vm_compute; reflexivity.
    + vm_compute; reflexivity.
    + vm_compute; reflexivity.
Defined.

(** Claim C9, as amended.  [initialize_gpios] returns, and afterwards every
    monitored pin whose startup read gave a level is tracked at level 1 with
    no timer, whether or not the corrective write was verified; a pin whose
    startup read was unknown is skipped and keeps the entries it had (none,
    for a new object). *)
Theorem initializer_resets_readable_pins env σ :
  exists σ' out,
    initialize_gpios env σ = (Val tt, σ', out) /\
    forall pin, In pin MONITORED_PINS ->
      (next_read env σ pin <> None ->
         gpio_states (self σ') !! pin = Some (Some 1) /\
         gpio_timers (self σ') !! pin = Some None) /\
      (next_read env σ pin = None ->
         gpio_states (self σ') !! pin = gpio_states (self σ) !! pin /\
         gpio_timers (self σ') !! pin = gpio_timers (self σ) !! pin).
Proof.
  destruct (initialize_pins_spec env MONITORED_PINS (NoDup_MONITORED_PINS) σ)
    as (σ' & out & E & _ & _ & Hpins).
  exists σ', (EvLog INFO InitializingGpios :: out). split.
  - unfold initialize_gpios, bind. cbn. rewrite E. reflexivity.
  - intros pin Hin. destruct (Hpins pin Hin) as [Hnone Hsome]. split; assumption.
Qed.

Lemma initializer_resets_readable_pins_witness :
  exists σ' out,
    initialize_gpios env_unreadable2 (start false) = (Val tt, σ', out) /\
    forall pin, In pin MONITORED_PINS ->
      (next_read env_unreadable2 (start false) pin <> None ->
         gpio_states (self σ') !! pin = Some (Some 1) /\
         gpio_timers (self σ') !! pin = Some None) /\
      (next_read env_unreadable2 (start false) pin = None ->
         gpio_states (self σ') !! pin = gpio_states (self (start false)) !! pin /\
         gpio_timers (self σ') !! pin = gpio_timers (self (start false)) !! pin).
Proof.
  apply (initializer_resets_readable_pins env_unreadable2 (start false)).
Defined.

(** Claim C9 as worded fails: pin 2 cannot be read, and the initializer
    leaves it without any tracked entry. *)
Lemma unreadable_pin_is_not_assumed_safe :
  ~ initializer_assumes_safe env_unreadable2 (start false).
Proof.
  unfold initializer_assumes_safe.
  pose (o := initialize_gpios env_unreadable2 (start false)).
  assert (Hst : gpio_states (self o.1.2) !! 2 = None) by (vm_compute; reflexivity).
  fold o. destruct o as [[r σ'] out]. cbn in Hst.
  intros H. destruct (H 2) as [H2 _]; [cbn; tauto|]. congruence.
Qed.

(** Claim C10.  A tick sets the timer of a pin only when it reads the pin
    at 0 while the pin is not tracked at 0, whatever the state, the mode and
    the outside world: timing starts only on an observed transition of the
    tracked level to 0.  Hence in dry-run mode, where the tracked level is
    seeded with the first read and the timer with None, a monitored pin that
    reads 0 at startup and on every later read is, after any number of
    rounds of the loop, still tracked at 0 with no timer, and no violation
    of it has been declared. *)
Theorem low_at_startup_is_never_timed env pin :
  (forall σ r σ' out,
     check_safety_violations env σ = (r, σ', out) ->
     ~ timer_set (self σ) pin -> timer_set (self σ') pin ->
     ~ tracked_low (self σ) pin /\ tracked_low (self σ') pin /\
     next_read env σ pin = Some 0) /\
  (forall w status_interval iterations,
     In pin MONITORED_PINS ->
     (forall k, (gets w pin <= k)%nat -> read_level (raspi_gpio_get env pin k) = Some 0) ->
     exists last σ out,
       running env status_interval iterations
         {| self := new_GPIOSafeguard true; world := w |} = (Val last, σ, out) /\
       gpio_states (self σ) !! pin = Some (Some 0) /\
       gpio_timers (self σ) !! pin = Some None /\
       Forall (not_violation_of pin) out).
Proof.
  split.
  - intros σ r σ' out E Hno Hset.
    destruct (in_dec Z.eq_dec pin MONITORED_PINS) as [Hin|Hout].
    + apply (tick_timer_started env σ r σ' out pin Hin E Hno Hset).
    + exfalso. rewrite check_safety_violations_run in E.
      destruct (check_pins_apart env _ pin MONITORED_PINS Hout ltac:(auto) _ _ _ _ _ E)
        as [(_ & Et & _) _].
      apply Hno. unfold timer_set in *. cbn in Et. rewrite <- Et. exact Hset.
  - intros w status_interval iterations Hin Hreads.
    set (σ0 := {| self := new_GPIOSafeguard true; world := w |}).
    destruct (startup_dry env σ0 eq_refl) as (σs & outs & Es & Est).
    destruct (seed_pins_spec env MONITORED_PINS NoDup_MONITORED_PINS σ0)
      as (σs' & outs' & Es' & _ & _ & Hev & _ & Hpins).
    rewrite Es in Es'. injection Es' as <- <-.
    assert (Htr : tracked (ticked σs)).
    { intros q Hq. destruct (Hpins q Hq) as (_ & Htm & _). cbn. rewrite Htm. eauto. }
    destruct (loop_returns env iterations status_interval (tick_now env σs) (ticked σs) Htr)
      as (last & σ & out & E & _).
    assert (Hlow : low_untimed pin (gets w pin) (ticked σs)).
    { destruct (Hpins pin Hin) as (Hst & Htm & Hg). unfold low_untimed. cbn.
      split_and!; [|exact Htm|rewrite Hg; cbn; lia].
      rewrite Hst. unfold next_read. cbn. rewrite Hreads by lia. reflexivity. }
    destruct (loop_low_untimed env pin (gets w pin) _ _ _ _ _ _ _ Hreads Hlow E)
      as ((Hst & Htm & _) & Hout).
    exists last, σ, (banner true ++ outs ++ out).
    split_and!; try assumption.
    + unfold running, bind. rewrite Est, E. rewrite app_nil_r, <- app_assoc. reflexivity.
    + apply Forall_app_2; [repeat constructor; intros el mx; discriminate|].
      apply Forall_app_2; [|exact Hout].
      eapply Forall_impl; [exact Hev|].
      intros [] He el mx; try discriminate. destruct lvl, msg; try discriminate; destruct He.
Qed.

Lemma low_at_startup_is_never_timed_witness :
  (let σ := state_after env_falls4 false 0 in
   let o := check_safety_violations env_falls4 σ in
   ~ tracked_low (self σ) 4 /\ tracked_low (self o.1.2) 4 /\
   next_read env_falls4 σ 4 = Some 0) /\
  (exists last σ out,
     running env_stuck4 30 40 {| self := new_GPIOSafeguard true; world := world0 |}
       = (Val last, σ, out) /\
     gpio_states (self σ) !! 4 = Some (Some 0) /\
     gpio_timers (self σ) !! 4 = Some None /\
     Forall (not_violation_of 4) out).
Proof.
  split.
  - intros σ o.
    apply (proj1 (low_at_startup_is_never_timed env_falls4 4) σ o.1.1 o.1.2 o.2).
    + unfold o. destruct (check_safety_violations env_falls4 σ) as [[r σ'] out]. reflexivity.
    + intros [t Ht]. vm_compute in Ht. discriminate.
    + exists 1100000. vm_compute. reflexivity.
  - apply (proj2 (low_at_startup_is_never_timed env_stuck4 4) world0 30 40%nat).
    + cbn; tauto.
    + intros k _. reflexivity.
Defined.

(** ** Further properties of the code *)

(** Property X1.  [read_gpio] runs one [raspi-gpio get] of the pin and
    changes nothing else.  It returns 1 exactly when the command succeeds
    and its output contains "level=1"; 0 exactly when the output contains
    "level=0" and not "level=1"; and None otherwise, that is when the
    command fails (the only case with a warning) or its output contains
    neither. *)
Theorem read_gpio_parses_level env pin σ :
  let r := raspi_gpio_get env pin (gets (world σ) pin) in
  exists lvl,
    read_gpio env pin σ = (Val lvl, got pin σ, read_events pin r) /\
    (lvl = Some 1 <-> exists output, r = Completed output /\ occurs "level=1" output) /\
    (lvl = Some 0 <->
       exists output,
         r = Completed output /\ occurs "level=0" output /\ ~ occurs "level=1" output) /\
    (lvl = None <->
       r = CalledProcessError \/
       exists output,
         r = Completed output /\ ~ occurs "level=0" output /\ ~ occurs "level=1" output).
Proof.
  intros r. exists (read_level r). split; [apply read_gpio_run|].
  destruct r as [output|]; cbn [read_level].
  - pose proof (contains_occurs "level=1" output) as H1.
    pose proof (contains_occurs "level=0" output) as H0.
    assert (N1 : contains "level=1" output = false -> ~ occurs "level=1" output)
      by (intros Hc Ho; apply H1 in Ho; congruence).
    assert (N0 : contains "level=0" output = false -> ~ occurs "level=0" output)
      by (intros Hc Ho; apply H0 in Ho; congruence).
    destruct (contains "level=1" output); [|destruct (contains "level=0" output)].
    + split_and!.
      * split; [intros _; exists output; split; [reflexivity|apply H1; reflexivity]|reflexivity].
      * split; [discriminate|]. intros (o & Ho & _ & Hn). injection Ho as <-.
        destruct Hn. apply H1. reflexivity.
      * split; [discriminate|]. intros [Hf|(o & Ho & _ & Hn)]; [discriminate|].
        injection Ho as <-. destruct Hn. apply H1. reflexivity.
    + split_and!.
      * split; [discriminate|]. intros (o & Ho & Hy). injection Ho as <-.
        destruct (N1 eq_refl Hy).
      * split; [|reflexivity]. intros _. exists output.
        split_and!; [reflexivity|apply H0; reflexivity|apply N1; reflexivity].
      * split; [discriminate|]. intros [Hf|(o & Ho & Hn & _)]; [discriminate|].
        injection Ho as <-. destruct Hn. apply H0. reflexivity.
    + split_and!.
      * split; [discriminate|]. intros (o & Ho & Hy). injection Ho as <-.
        destruct (N1 eq_refl Hy).
      * split; [discriminate|]. intros (o & Ho & Hy & _). injection Ho as <-.
        destruct (N0 eq_refl Hy).
      * split; [|reflexivity]. intros _. right. exists output.
        split_and!; [reflexivity|apply N0; reflexivity|apply N1; reflexivity].
  - split_and!.
    + split; [discriminate|]. intros (o & Ho & _). discriminate.
    + split; [discriminate|]. intros (o & Ho & _). discriminate.
    + split; [|reflexivity]. intros _. left. reflexivity.
Qed.

(** Property X2.  [set_gpio] with any [max_retries] returns a boolean and
    leaves the object as it is, and every command it runs is
    [raspi-gpio set pin op dh] when the value is 1 and
    [raspi-gpio set pin op dl] otherwise.  In dry-run mode it only logs the
    intended write and returns True.  In live mode it runs at most
    [max_retries] commands, all of them before it returns False; it returns
    True only after reading the value back; and with [max_retries <= 0] it
    returns False without running or logging anything. *)
Theorem set_gpio_retries_bounded env pin value max_retries σ :
  exists b σ' out,
    set_gpio_retries env pin value max_retries σ = (Val b, σ', out) /\
    self σ' = self σ /\
    Forall (write_of pin value) out /\
    if dry_run (self σ)
    then b = true /\ σ' = σ /\ out = [EvLog INFO (DryRunWouldSet pin value)]
    else
      (writes out <= Z.to_nat max_retries)%nat /\
      (b = false -> writes out = Z.to_nat max_retries) /\
      (b = true -> exists r, In (EvGet pin r) out /\ read_level r = Some value) /\
      (max_retries <= 0 -> b = false /\ out = []).
Proof.
  destruct (dry_run (self σ)) eqn:Hmode.
  - exists true, σ, [EvLog INFO (DryRunWouldSet pin value)].
    split_and!; try reflexivity; [|repeat constructor].
    unfold set_gpio_retries, bind. cbn. rewrite Hmode. reflexivity.
  - destruct (set_gpio_retries_live env pin value max_retries σ Hmode)
      as (b & σ' & out & E & (Hself & _) & F & W & Hf & Ht & Hz).
    exists b, σ', out. split_and!; assumption.
Qed.

(** Property X3.  In live mode [set_gpio] called with a value other than 0
    and 1 cannot succeed: it runs [raspi-gpio set pin op dl] three times,
    drives no other pin, and returns False. *)
Theorem set_gpio_other_value_fails env pin value σ :
  dry_run (self σ) = false -> value <> 0 -> value <> 1 ->
  exists σ' out,
    set_gpio env pin value σ = (Val false, σ', out) /\
    writes out = 3%nat /\
    forall p d ok, In (EvSet p d ok) out -> p = pin /\ d = DriveLow.
Proof.
  intros Hlive H0 H1.
  destruct (set_gpio_retries_live env pin value 3 σ Hlive)
    as (b & σ' & out & E & _ & F & _ & Hf & Ht & _).
  assert (Hb : b = false).
  { destruct b; [|reflexivity]. destruct (Ht eq_refl) as (r & _ & Hr).
    destruct (read_level_cases r) as [H|[H|H]]; congruence. }
  subst b. exists σ', out. split; [exact E|]. split; [apply Hf; reflexivity|].
  intros p d ok Hin. rewrite List.Forall_forall in F.
  destruct (F _ Hin) as [-> ->]. split; [reflexivity|].
  unfold drive_for. destruct (Z.eqb_spec value 1); [contradiction|reflexivity].
Qed.

Lemma set_gpio_other_value_fails_witness :
  exists σ' out,
    set_gpio env_quiet 4 2 (start false) = (Val false, σ', out) /\
    writes out = 3%nat /\
    forall p d ok, In (EvSet p d ok) out -> p = 4 /\ d = DriveLow.
Proof.
  apply (set_gpio_other_value_fails env_quiet 4 2 (start false)).
  - reflexivity.
  - lia.
  - lia.
Defined.

(** Property X4.  Whatever the mode and the outside world, a run of [main]
    reads monitored pins only, and the only command it ever runs on a pin is
    [raspi-gpio set pin op dh] on a monitored pin: no pin is driven low. *)
Theorem main_reads_and_drives_high_only env dry status_interval iterations σ :
  Forall safe_io (main env dry status_interval iterations σ).2.
Proof.
  destruct (main_run env dry status_interval iterations σ)
    as (acc & σ1 & out1 & Ea & _ & _ & _ & Hmain).
  pose proof (access_check_safe env MONITORED_PINS ltac:(auto) true
                (with_self (fun _ => new_GPIOSafeguard dry) σ)) as H1.
  rewrite Ea in H1. cbn [snd] in H1.
  destruct acc.
  - destruct Hmain as (r2 & σ2 & out2 & E2 & ->).
    pose proof (running_safe env status_interval iterations σ1) as H2.
    rewrite E2 in H2. cbn [snd] in H2.
    destruct r2 as [last|[key|code]]; cbn [snd]; unfold final_log;
      repeat first [assumption | apply Forall_app_2
                   | apply List.Forall_cons; [exact I|] | apply List.Forall_nil].
  - rewrite Hmain. cbn [snd].
    apply Forall_app_2; [exact H1|]. repeat constructor.
Qed.

(** Property X5.  A tick writes to a pin only in live mode and only after
    it has logged a safety violation of that pin in the same tick; the pin
    is a monitored one and the command drives it high. *)
Theorem tick_writes_only_after_violation env σ r σ' out pin d ok :
  check_safety_violations env σ = (r, σ', out) ->
  In (EvSet pin d ok) out ->
  In pin MONITORED_PINS /\ d = DriveHigh /\ dry_run (self σ) = false /\
  exists elapsed max_allowed t1 t2,
    out = t1 ++ EvLog WARNING (SafetyViolation pin elapsed max_allowed) :: t2 /\
    In (EvSet pin d ok) t2.
Proof. intros E Hin. eapply tick_write_cause; eassumption. Qed.

Lemma tick_writes_only_after_violation_witness :
  let σ := state_after env_stuck4 false 11 in
  let o := check_safety_violations env_stuck4 σ in
  In 4 MONITORED_PINS /\ DriveHigh = DriveHigh /\ dry_run (self σ) = false /\
  exists elapsed max_allowed t1 t2,
    o.2 = t1 ++ EvLog WARNING (SafetyViolation 4 elapsed max_allowed) :: t2 /\
    In (EvSet 4 DriveHigh true) t2.
Proof.
  intros σ o.
  apply (tick_writes_only_after_violation env_stuck4 σ o.1.1 o.1.2 o.2 4 DriveHigh true).
  - unfold o. destruct (check_safety_violations env_stuck4 σ) as [[r σ'] out]. reflexivity.
  - apply (nth_error_In _ 4). vm_compute. reflexivity.
Defined.

(** Property X6.  A tick adds to [violations_count] the number of
    violations it logs and to [corrections_made] the number of corrections
    it logs; it logs at most one violation of each pin and none of a pin
    that is not monitored, so four at most, and no more corrections than
    violations; and when it returns, its result is True exactly when it
    logged a violation. *)
Theorem tick_result_and_counters env σ :
  exists r σ' out,
    check_safety_violations env σ = (r, σ', out) /\
    violations_count (self σ') = violations_count (self σ) + violations_logged out /\
    corrections_made (self σ') = corrections_made (self σ) + corrections_logged out /\
    0 <= corrections_logged out <= violations_logged out /\
    violations_logged out <= 4 /\
    (forall pin, 0 <= violations_logged_of pin out <= 1) /\
    (forall pin, ~ In pin MONITORED_PINS -> violations_logged_of pin out = 0) /\
    forall v, r = Val v -> v = (0 <? violations_logged out).
Proof.
  destruct (check_safety_violations env σ) as [[r σ'] out] eqn:E.
  exists r, σ', out. split; [reflexivity|].
  destruct (tick_accounted env _ _ _ _ E) as ((Hv & Hc & Hle) & Hb & Hr).
  split_and!; try assumption; try lia.
  - apply tally_nonneg.
  - intros pin. apply (tick_violations_of env _ _ _ _ pin E).
  - intros pin. apply (tick_violations_of env _ _ _ _ pin E).
Qed.

(** Property X7.  Take a run of [main] that the user interrupts between
    two rounds of the loop (as [run_safeguard] is embedded: the interrupt
    arrives once a round, its sleep included, is done) and that ends
    normally.  The run ends with the final statistics, and the totals it
    reports there (the counters of the object) are the number of safety
    violations and the number of corrections logged during the run.  (An
    interrupt inside a round, between the increment of a counter and its
    record, is outside this statement.) *)
Theorem final_statistics_match_log env dry status_interval iterations σ σ' out :
  main env dry status_interval iterations σ = (Val tt, σ', out) ->
  exists body,
    out = body ++
          [EvLog INFO StoppedByUser; EvLog INFO FinalStatistics;
           EvLog INFO (TotalViolations (violations_logged body));
           EvLog INFO (TotalCorrections (corrections_logged body));
           EvLog INFO StoppedBanner] /\
    violations_count (self σ') = violations_logged body /\
    corrections_made (self σ') = corrections_logged body.
Proof.
  intros E.
  destruct (main_run env dry status_interval iterations σ)
    as (acc & σ1 & out1 & Ea & Hself & Hev & _ & Hmain).
  destruct acc; [|congruence].
  destruct Hmain as (r2 & σ2 & out2 & E2 & Em). rewrite Em in E.
  destruct r2 as [last|[key|code]]; try discriminate.
  injection E as <- <-.
  destruct (running_accounted env _ _ _ _ _ _ E2) as (Hv & Hc & _).
  rewrite Hself in Hv, Hc. cbn in Hv, Hc.
  destruct (tally_uncounted out1) as [Hv1 Hc1];
    [eapply Forall_impl; [exact Hev|exact access_uncounted]|].
  assert (Hvb : violations_logged (out1 ++ out2) = violations_count (self σ2))
    by (unfold violations_logged in *; rewrite tally_app; lia).
  assert (Hcb : corrections_logged (out1 ++ out2) = corrections_made (self σ2))
    by (unfold corrections_logged in *; rewrite tally_app; lia).
  exists (out1 ++ out2). rewrite Hvb, Hcb.
  split; [rewrite <- app_assoc; reflexivity|]. split; reflexivity.
Qed.

Lemma final_statistics_match_log_witness :
  let o := main env_stuck4 false 30 15 (start false) in
  exists body,
    o.2 = body ++
          [EvLog INFO StoppedByUser; EvLog INFO FinalStatistics;
           EvLog INFO (TotalViolations (violations_logged body));
           EvLog INFO (TotalCorrections (corrections_logged body));
           EvLog INFO StoppedBanner] /\
    violations_count (self o.1.2) = violations_logged body /\
    corrections_made (self o.1.2) = corrections_logged body.
Proof.
  intros o.
  apply (final_statistics_match_log env_stuck4 false 30 15 (start false) o.1.2 o.2).
  transitivity (o.1.1, o.1.2, o.2).
  - unfold o. destruct (main env_stuck4 false 30 15 (start false)) as [[r σ'] out].
    reflexivity.
  - assert (H : o.1.1 = Val tt) by (vm_compute; reflexivity).
    rewrite <- H. reflexivity.
Defined.

(** Property X8.  In every state of the controller both counters are
    non-negative and [corrections_made] is at most [violations_count]. *)
Theorem corrections_never_exceed_violations env σ :
  reachable env σ ->
  0 <= corrections_made (self σ) <= violations_count (self σ).
Proof.
  intros (dry & w & si & n & r & out & E).
  destruct (running_accounted env _ _ _ _ _ _ E) as (Hv & Hc & Hle).
  cbn in Hv, Hc.
  pose proof (tally_nonneg is_forced out) as Hn.
  unfold corrections_logged, violations_logged in *. lia.
Qed.

Lemma corrections_never_exceed_violations_witness :
  let σ := state_after env_stuck4 false 15 in
  0 <= corrections_made (self σ) <= violations_count (self σ).
Proof.
  intros σ. apply (corrections_never_exceed_violations env_stuck4 σ).
  apply state_after_reachable.
Defined.

(** Property X9.  A tick raises nothing but [KeyError], and only for a
    monitored pin that has no entry in [gpio_timers] and that the tick reads
    at a level; the entry is still missing when the exception leaves the
    tick. *)
Theorem tick_raises_only_for_untracked_pin env σ e σ' out :
  check_safety_violations env σ = (Exc e, σ', out) ->
  exists q,
    In q MONITORED_PINS /\ e = KeyError q /\
    gpio_timers (self σ) !! q = None /\
    gpio_timers (self σ') !! q = None /\
    next_read env σ q <> None.
Proof.
  intros E. rewrite check_safety_violations_run in E.
  destruct (check_pins_raises env _ MONITORED_PINS NoDup_MONITORED_PINS ltac:(auto) _ _ _ _ _ E)
    as (q & Hq & He & Ht & Ht' & Hread).
  exists q. split_and!; assumption.
Qed.

Lemma tick_raises_only_for_untracked_pin_witness :
  let σ := (startup env_recovers2 (got 2 (start false))).1.2 in
  let o := check_safety_violations env_recovers2 σ in
  exists q,
    In q MONITORED_PINS /\ KeyError 2 = KeyError q /\
    gpio_timers (self σ) !! q = None /\
    gpio_timers (self o.1.2) !! q = None /\
    next_read env_recovers2 σ q <> None.
Proof.
  intros σ o.
  apply (tick_raises_only_for_untracked_pin env_recovers2 σ (KeyError 2) o.1.2 o.2).
  transitivity (o.1.1, o.1.2, o.2).
  - unfold o. destruct (check_safety_violations env_recovers2 σ) as [[r σ'] out].
    reflexivity.
  - assert (H : o.1.1 = Exc (KeyError 2)) by (vm_compute; reflexivity).
    rewrite <- H. reflexivity.
Defined.

(** Property X10.  [get_status_summary] logs nothing, runs no command and
    changes no field of the object: it only reads the clock.  When it
    returns, its parts are those of the monitored pins, in order: each
    carries the entry of [gpio_states] of its pin, and the elapsed time and
    the allowed maximum exactly when the pin is tracked at 0 with its timer
    set.  It raises only [KeyError], for a monitored pin tracked at 0 that
    has no entry in [gpio_timers]. *)
Theorem status_summary_reads_only env σ :
  exists r σ',
    get_status_summary env σ = (r, σ', []) /\
    later σ σ' /\
    match r with
    | Val parts => Forall2 (status_of env σ σ') MONITORED_PINS parts
    | Exc e =>
        exists q, In q MONITORED_PINS /\ e = KeyError q /\
          tracked_low (self σ) q /\ gpio_timers (self σ) !! q = None
    end.
Proof.
  unfold get_status_summary.
  destruct (status_parts_shape env MONITORED_PINS σ) as (r & σ' & E & L & H).
  exists r, σ'. split; [exact E|]. split; [exact L|].
  destruct r as [parts|e]; [exact H|].
  destruct H as (q & Hq & He & Hlow & Hor). exists q.
  split_and!; try assumption.
  destruct Hor as [Ht|Hrule]; [exact Ht|].
  destruct (monitored_rule q Hq) as (mx & Hmx & _). congruence.
Qed.

(** Property X11.  When the access check of [main] can read every
    monitored pin and, in live mode, the initializer can read every
    monitored pin too (the second read of each pin), [main] runs all the
    rounds of its loop and ends normally, whatever the pins give afterwards
    and whether or not the writes succeed; every monitored pin then has an
    entry in [gpio_timers]. *)
Theorem main_returns_when_startup_reads_succeed env dry status_interval iterations σ :
  (forall pin, In pin MONITORED_PINS -> next_read env σ pin <> None) ->
  (dry = false ->
   forall pin, In pin MONITORED_PINS ->
     read_level (raspi_gpio_get env pin (S (gets (world σ) pin))) <> None) ->
  exists σ' out,
    main env dry status_interval iterations σ = (Val tt, σ', out) /\ tracked σ'.
Proof.
  intros Hfirst Hsecond.
  destruct (main_run env dry status_interval iterations σ)
    as (acc & σ1 & out1 & Ea & Hself & _ & Hiff & Hmain).
  assert (acc = true) as -> by (apply Hiff; exact Hfirst).
  destruct Hmain as (r2 & σ2 & out2 & E2 & Em).
  destruct (running_returns env status_interval iterations σ1) as (last & σ2' & out2' & E2' & Htr).
  { rewrite Hself. cbn. intros Hlive p Hp. unfold next_read.
    rewrite (access_check_gets env MONITORED_PINS NoDup_MONITORED_PINS _ _ _ _ _ Ea p Hp).
    cbn. apply Hsecond; assumption. }
  rewrite E2' in E2. injection E2 as <- <- <-.
  do 2 eexists. split; [exact Em|exact Htr].
Qed.

Lemma main_returns_when_startup_reads_succeed_witness :
  exists σ' out,
    main env_quiet false 30 3 (start false) = (Val tt, σ', out) /\ tracked σ'.
Proof.
  apply (main_returns_when_startup_reads_succeed env_quiet false 30 3 (start false)).
  - intros pin _. vm_compute. discriminate.
  - intros _ pin _. vm_compute. discriminate.
Defined.

(** Property X12.  Take a run of [main] in which the object is created,
    every [raspi-gpio] command either completes or exits with a non-zero
    status, and the user's interrupt arrives between two rounds of the loop
    (the outside world of this development).  Such a run ends in one of
    three ways: normally, after the final statistics; with exit status 1
    right after the record that the pins cannot be accessed, when the access
    check could not read some monitored pin; or, in live mode only, with
    exit status 1 right after the record of a [KeyError] for a monitored
    pin that has no entry in [gpio_timers].  In particular the code itself
    raises no [KeyError] from [SAFETY_RULES] or [gpio_states], and in
    dry-run mode nothing fails once the access check has passed. *)
Theorem main_ends_normally_or_with_status_1 env dry status_interval iterations σ :
  exists r σ' out,
    main env dry status_interval iterations σ = (r, σ', out) /\
    ((r = Val tt /\ exists body, out = body ++ final_log (self σ')) \/
     (r = Exc (SystemExit 1) /\
      last out = Some (EvLog ERROR AccessFailed) /\
      exists p, In p MONITORED_PINS /\ next_read env σ p = None) \/
     (r = Exc (SystemExit 1) /\ dry = false /\
      exists q, In q MONITORED_PINS /\ gpio_timers (self σ') !! q = None /\
                last out = Some (EvLog ERROR (SafeguardFailed (KeyError q))))).
Proof.
  destruct (main_run env dry status_interval iterations σ)
    as (acc & σ1 & out1 & Ea & Hself & _ & Hiff & Hmain).
  destruct acc.
  - destruct Hmain as (r2 & σ2 & out2 & E2 & Em). rewrite Em.
    destruct r2 as [last|e].
    + do 3 eexists. split; [reflexivity|]. left. split; [reflexivity|].
      exists (out1 ++ out2). rewrite <- app_assoc. reflexivity.
    + destruct (running_raises env _ _ _ _ _ _ E2) as (Hlive & q & Hq & -> & Ht).
      rewrite Hself in Hlive. cbn in Hlive.
      do 3 eexists. split; [reflexivity|]. right. right.
      split; [reflexivity|]. split; [exact Hlive|].
      exists q. split_and!; try assumption.
      rewrite app_assoc. apply last_snoc.
  - rewrite Hmain. do 3 eexists. split; [reflexivity|]. right. left.
    split; [reflexivity|]. split; [apply last_snoc|].
    destruct (next_read env σ 2) eqn:H2; [|exists 2; split; [cbn; tauto|exact H2]].
    destruct (next_read env σ 3) eqn:H3; [|exists 3; split; [cbn; tauto|exact H3]].
    destruct (next_read env σ 4) eqn:H4; [|exists 4; split; [cbn; tauto|exact H4]].
    destruct (next_read env σ 10) eqn:H10; [|exists 10; split; [cbn; tauto|exact H10]].
    exfalso. assert (false = true) as Hc; [apply Hiff|discriminate].
    intros p [<-|[<-|[<-|[<-|[]]]]]; congruence.
Qed.

(** Property X13.  A tick logs a safety violation of a pin only when the
    pin is a monitored one that was tracked at 0 when the tick began, with
    its timer set, that the tick reads at 0, and whose timer has run for
    strictly more than its rule allows at the instant the tick read the
    clock; the record carries that elapsed time and the rule. *)
Theorem violation_only_when_overdue_and_read_low env σ r σ' out pin elapsed max_allowed :
  check_safety_violations env σ = (r, σ', out) ->
  In (EvLog WARNING (SafetyViolation pin elapsed max_allowed)) out ->
  In pin MONITORED_PINS /\
  exists since,
    gpio_states (self σ) !! pin = Some (Some 0) /\
    gpio_timers (self σ) !! pin = Some (Some since) /\
    SAFETY_RULES !! pin = Some max_allowed /\
    elapsed = tick_now env σ - since /\
    elapsed > max_allowed /\
    next_read env σ pin = Some 0.
Proof. intros E Hin. eapply tick_violation_cause; eassumption. Qed.

Lemma violation_only_when_overdue_and_read_low_witness :
  let σ := state_after env_stuck4 false 11 in
  In 4 MONITORED_PINS /\
  exists since,
    gpio_states (self σ) !! 4 = Some (Some 0) /\
    gpio_timers (self σ) !! 4 = Some (Some since) /\
    SAFETY_RULES !! 4 = Some 2000000 /\
    2200000 = tick_now env_stuck4 σ - since /\
    2200000 > 2000000 /\
    next_read env_stuck4 σ 4 = Some 0.
Proof.
  intros σ.
  pose (o := check_safety_violations env_stuck4 σ).
  apply (violation_only_when_overdue_and_read_low env_stuck4 σ o.1.1 o.1.2 o.2 4
           2200000 2000000).
  - unfold o. destruct (check_safety_violations env_stuck4 σ) as [[r σ'] out]. reflexivity.
  - apply (nth_error_In _ 3). vm_compute. reflexivity.
Defined.

(** Property X14.  In live mode [initialize_gpios] writes to a pin exactly
    when the pin is a monitored one that it reads at 0: a pin read at 1 and
    a pin that cannot be read are left alone.  It changes neither counter
    and logs no violation: a pin found at 0 at startup is not counted. *)
Theorem initializer_writes_only_to_low_pins env σ :
  dry_run (self σ) = false ->
  exists σ' out,
    initialize_gpios env σ = (Val tt, σ', out) /\
    violations_count (self σ') = violations_count (self σ) /\
    corrections_made (self σ') = corrections_made (self σ) /\
    violations_logged out = 0 /\
    forall pin,
      (exists d ok, In (EvSet pin d ok) out) <->
      In pin MONITORED_PINS /\ next_read env σ pin = Some 0.
Proof.
  intros Hlive.
  destruct (initialize_pins_spec env MONITORED_PINS NoDup_MONITORED_PINS σ)
    as (σ' & out & E & _).
  destruct (initialize_pins_quiet env _ _ _ _ _ E) as (Hv & Hc & Hu).
  pose proof (initialize_pins_writes env MONITORED_PINS NoDup_MONITORED_PINS σ Hlive) as Hw.
  rewrite E in Hw. cbn [snd] in Hw.
  exists σ', (EvLog INFO InitializingGpios :: out).
  split; [unfold initialize_gpios, bind; cbn; rewrite E; reflexivity|].
  split; [exact Hv|]. split; [exact Hc|]. split.
  - destruct (tally_uncounted out Hu) as [Hz _].
    unfold violations_logged in *. rewrite tally_cons. cbn. lia.
  - intros pin. rewrite <- Hw. split; intros (d & ok & Hin); exists d, ok.
    + destruct Hin as [Heq|Hin]; [discriminate|exact Hin].
    + right. exact Hin.
Qed.

Lemma initializer_writes_only_to_low_pins_witness :
  exists σ' out,
    initialize_gpios env_stuck4 (start false) = (Val tt, σ', out) /\
    violations_count (self σ') = violations_count (self (start false)) /\
    corrections_made (self σ') = corrections_made (self (start false)) /\
    violations_logged out = 0 /\
    forall pin,
      (exists d ok, In (EvSet pin d ok) out) <->
      In pin MONITORED_PINS /\ next_read env_stuck4 (start false) pin = Some 0.
Proof.
  apply (initializer_writes_only_to_low_pins env_stuck4 (start false)).
  reflexivity.
Defined.

(** Property X15.  In every state of the controller the two dictionaries
    of the object hold monitored pins only, every pin with an entry in
    [gpio_timers] has one in [gpio_states], every tracked level is 0 or 1
    and, in live mode, no pin is tracked at None. *)
Theorem dictionaries_well_keyed env σ : reachable env σ -> well_keyed σ.
Proof.
  intros (dry & w & si & n & r & out & E).
  eapply running_well_keyed; exact E.
Qed.

Lemma dictionaries_well_keyed_witness : well_keyed (state_after env_stuck4 false 15).
Proof.
  apply (dictionaries_well_keyed env_stuck4). apply state_after_reachable.
Defined.

(** Property X16.  A tick reads the clock once and leaves the scripts of
    the pins that are not monitored where they were; when it returns it has
    read every monitored pin, the first read of a pin in the tick being the
    next result of the pin's script. *)
Theorem tick_polls_every_monitored_pin env σ :
  exists r σ' out,
    check_safety_violations env σ = (r, σ', out) /\
    nows (world σ') = S (nows (world σ)) /\
    (forall pin, ~ In pin MONITORED_PINS ->
       gets (world σ') pin = gets (world σ) pin /\
       sets (world σ') pin = sets (world σ) pin) /\
    (forall v, r = Val v ->
     forall pin, In pin MONITORED_PINS ->
       (gets (world σ) pin < gets (world σ') pin)%nat /\
       In (EvGet pin (raspi_gpio_get env pin (gets (world σ) pin))) out).
Proof.
  destruct (check_safety_violations env σ) as [[r σ'] out] eqn:E.
  exists r, σ', out. split; [reflexivity|].
  pose proof E as E'. rewrite check_safety_violations_run in E'.
  assert (Hother : forall pin, ~ In pin MONITORED_PINS ->
            apart pin (ticked σ) σ' out /\ steady (ticked σ) σ')
    by (intros pin Hp; eapply check_pins_apart; [exact Hp|auto|exact E']).
  split_and!.
  - destruct (Hother 0) as [_ (_ & Hn & _)]; [cbn; intuition discriminate|]. exact Hn.
  - intros pin Hp. destruct (Hother pin Hp) as [(_ & _ & Hg & Hs & _) _]. split; assumption.
  - intros v -> pin Hp.
    pose proof (tick_focus env pin σ _ _ _ Hp E) as F.
    inversion F as [| |va σa ta vb σb tb r0 σ0 tc (_ & _ & C & _) _ Hstep (_ & _ & C' & _) _];
      subst.
    cbn in C.
    destruct (pin_step_reads env _ _ _ _ _ _ _ Hstep) as [Hlt Hin].
    rewrite C in Hlt, Hin. split; [lia|]. in_tac.
Qed.

(** Property X17.  A tick that logs neither a state change nor a safety
    violation leaves every field of the object as it was, writes to no pin
    and, when it returns, returns False: the object changes only with a
    record of the change. *)
Theorem silent_tick_changes_nothing env σ r σ' out :
  check_safety_violations env σ = (r, σ', out) ->
  unchanging out ->
  self σ' = self σ /\ no_writes out /\ forall v, r = Val v -> v = false.
Proof.
  intros E Hq. rewrite check_safety_violations_run in E.
  destruct (check_pins_unchanged env _ MONITORED_PINS ltac:(auto) _ _ _ _ _ E Hq)
    as (Hs & Hw & Hr).
  split; [exact Hs|]. split; [exact Hw|exact Hr].
Qed.

Lemma silent_tick_changes_nothing_witness :
  let σ := state_after env_quiet false 3 in
  let o := check_safety_violations env_quiet σ in
  self o.1.2 = self σ /\ no_writes o.2 /\ forall v, o.1.1 = Val v -> v = false.
Proof.
  intros σ o.
  apply (silent_tick_changes_nothing env_quiet σ o.1.1 o.1.2 o.2).
  - unfold o. destruct (check_safety_violations env_quiet σ) as [[r σ'] out]. reflexivity.
  - unfold unchanging. vm_compute. repeat constructor.
Defined.

(** Property X18.  A state change logged by a tick is true to the object
    and to the pin: the pin is a monitored one, the previous level of the
    record is the one [gpio_states.get] gave when the tick began and
    differs from the new one, the new level is the one the tick read, and
    after the tick the pin is tracked at the new level; after a change to 0
    the timer of the pin is the instant the tick read the clock, and after a
    change to 1 in a tick that returns the timer is cleared. *)
Theorem logged_state_change_is_tracked env σ r σ' out pin lvl previous current :
  check_safety_violations env σ = (r, σ', out) ->
  In (EvLog lvl (StateChange pin previous current)) out ->
  In pin MONITORED_PINS /\
  previous = gpio_states_get (self σ) pin /\
  next_read env σ pin = Some current /\
  previous <> Some current /\
  gpio_states (self σ') !! pin = Some (Some current) /\
  (current = 0 -> gpio_timers (self σ') !! pin = Some (Some (tick_now env σ))) /\
  (current = 1 -> forall v, r = Val v -> gpio_timers (self σ') !! pin = Some None).
Proof.
  intros E Hin.
  assert (Hmon : In pin MONITORED_PINS)
    by (eapply (tick_about env); [exact E|exact Hin|reflexivity]).
  split; [exact Hmon|].
  pose proof (tick_focus env pin σ r σ' out Hmon E) as F.
  assert (Hsil : forall t, silent_on pin t ->
                   ~ In (EvLog lvl (StateChange pin previous current)) t)
    by (intros t Ht; eapply silent_not_in; [exact Ht|reflexivity]).
  destruct F as [e σ' out (_ & _ & _ & _ & Sil) _
                |va σa ta e σb tb (A & B & C & _ & Sil) _ Hs
                |va σa ta vb σb tb r σ' tc (A & B & C & _ & Sil) _ Hs
                   (A' & B' & _ & _ & Sil') _];
    try cbn in A, B, C.
  - destruct (Hsil _ Sil Hin).
  - apply in_app_or in Hin as [Hin|Hin]; [destruct (Hsil _ Sil Hin)|].
    destruct (pin_step_change env _ _ _ _ _ _ _ _ _ _ Hin Hs)
      as (Hprev & Hread & Hne & Hst & H0 & H1).
    unfold next_read, gpio_states_get in *. rewrite A in Hprev. rewrite C in Hread.
    split_and!; assumption.
  - apply in_app_or in Hin as [Hin|Hin]; [destruct (Hsil _ Sil Hin)|].
    apply in_app_or in Hin as [Hin|Hin]; [|destruct (Hsil _ Sil' Hin)].
    destruct (pin_step_change env _ _ _ _ _ _ _ _ _ _ Hin Hs)
      as (Hprev & Hread & Hne & Hst & H0 & H1).
    unfold next_read, gpio_states_get in *. rewrite A in Hprev. rewrite C in Hread.
    rewrite A', B'.
    split_and!; try assumption. intros Hc v _. eapply H1; [exact Hc|reflexivity].
Qed.

Lemma logged_state_change_is_tracked_witness :
  let σ := state_after env_falls4 false 0 in
  let o := check_safety_violations env_falls4 σ in
  In 4 MONITORED_PINS /\
  Some 1 = gpio_states_get (self σ) 4 /\
  next_read env_falls4 σ 4 = Some 0 /\
  Some 1 <> Some 0 /\
  gpio_states (self o.1.2) !! 4 = Some (Some 0) /\
  (0 = 0 -> gpio_timers (self o.1.2) !! 4 = Some (Some (tick_now env_falls4 σ))) /\
  (0 = 1 -> forall v, o.1.1 = Val v -> gpio_timers (self o.1.2) !! 4 = Some None).
Proof.
  intros σ o.
  apply (logged_state_change_is_tracked env_falls4 σ o.1.1 o.1.2 o.2 4 INFO (Some 1) 0).
  - unfold o. destruct (check_safety_violations env_falls4 σ) as [[r σ'] out]. reflexivity.
  - apply (nth_error_In _ 3). vm_compute. reflexivity.
Defined.

(** Property X19.  In dry-run mode every violation is counted as
    corrected: [set_gpio] then returns True without writing, so in every
    state of a dry-run controller [corrections_made] equals
    [violations_count]. *)
Theorem dry_run_counts_every_violation_as_corrected env σ :
  reachable env σ -> dry_run (self σ) = true ->
  corrections_made (self σ) = violations_count (self σ).
Proof.
  intros (dry & w & si & n & r & out & E) Hdry.
  pose proof (running_mode env _ _ _ _ _ _ E) as Hmode. cbn in Hmode.
  assert (dry = true) as -> by congruence.
  pose proof (running_dry_counts env si n {| self := new_GPIOSafeguard true; world := w |}
                r σ out eq_refl E) as H.
  cbn in H. lia.
Qed.

Lemma dry_run_counts_every_violation_as_corrected_witness :
  let σ := state_after env_falls4 true 30 in
  corrections_made (self σ) = violations_count (self σ).
Proof.
  intros σ. apply (dry_run_counts_every_violation_as_corrected env_falls4 σ).
  - apply state_after_reachable.
  - vm_compute. reflexivity.
Defined.

(** Property X20.  After a tick that returns, every monitored pin that the
    tick read at a level is tracked at that level, unless the tick read it
    at 0 and corrected it: then the correction is logged and the pin is
    tracked at 1 with its timer cleared. *)
Theorem tick_tracks_what_it_reads env σ v σ' out pin lv :
  check_safety_violations env σ = (Val v, σ', out) ->
  In pin MONITORED_PINS ->
  next_read env σ pin = Some lv ->
  gpio_states (self σ') !! pin = Some (Some lv) \/
  (lv = 0 /\ In (EvLog WARNING (ForcedToSafe pin)) out /\
   gpio_states (self σ') !! pin = Some (Some 1) /\
   gpio_timers (self σ') !! pin = Some None).
Proof.
  intros E Hmon Hread.
  pose proof (tick_focus env pin σ _ _ _ Hmon E) as F.
  inversion F as [| |va σa ta vb σb tb r0 σ0 tc (_ & _ & C & _) _ Hstep (A' & B' & _) _];
    subst.
  cbn in C.
  assert (Hread' : next_read env σa pin = Some lv)
    by (unfold next_read in *; rewrite C; exact Hread).
  destruct (pin_step_tracks env _ _ _ _ _ _ _ lv Hread' Hstep)
    as [Hst|(Hlv & Hin & Hst & Htm)].
  - left. congruence.
  - right. split_and!; try congruence. in_tac.
Qed.

Lemma tick_tracks_what_it_reads_witness :
  let σ := state_after env_falls4 false 0 in
  let o := check_safety_violations env_falls4 σ in
  gpio_states (self o.1.2) !! 4 = Some (Some 0) \/
  (0 = 0 /\ In (EvLog WARNING (ForcedToSafe 4)) o.2 /\
   gpio_states (self o.1.2) !! 4 = Some (Some 1) /\
   gpio_timers (self o.1.2) !! 4 = Some None).
Proof.
  intros σ o.
  apply (tick_tracks_what_it_reads env_falls4 σ false o.1.2 o.2 4 0).
  - transitivity (o.1.1, o.1.2, o.2).
    + unfold o. destruct (check_safety_violations env_falls4 σ) as [[r σ'] out].
      reflexivity.
    + assert (H : o.1.1 = Val false) by (vm_compute; reflexivity).
      rewrite <- H. reflexivity.
  - cbn; tauto.
  - vm_compute. reflexivity.
Defined.

(** Property X21.  When the access check of [main] cannot read some
    monitored pin, [main] reads every monitored pin once, logs that it
    cannot access a pin for each monitored pin it could not read and for no
    other, writes to no pin, and exits with status 1 with a new object it
    has not touched: [run_safeguard] is not entered. *)
Theorem access_check_reports_every_unreadable_pin env dry status_interval iterations σ :
  (exists p, In p MONITORED_PINS /\ next_read env σ p = None) ->
  exists σ' out,
    main env dry status_interval iterations σ = (Exc (SystemExit 1), σ', out) /\
    self σ' = new_GPIOSafeguard dry /\
    no_writes out /\
    (forall p, In (EvLog ERROR (CannotAccess p)) out <->
               In p MONITORED_PINS /\ next_read env σ p = None) /\
    (forall p, In p MONITORED_PINS -> gets (world σ') p = S (gets (world σ) p)) /\
    ~ In (EvLog INFO (Starting dry)) out.
Proof.
  intros (p0 & Hp0 & Hn0).
  destruct (main_run env dry status_interval iterations σ)
    as (acc & σ1 & out1 & Ea & Hself & Hev & Hiff & Hmain).
  destruct acc.
  { exfalso. destruct Hiff as [Hiff _]. apply (Hiff eq_refl p0 Hp0). exact Hn0. }
  exists σ1, (out1 ++ [EvLog ERROR AccessFailed]).
  split; [exact Hmain|]. split; [exact Hself|].
  pose proof (access_check_reports env MONITORED_PINS NoDup_MONITORED_PINS true
                (with_self (fun _ => new_GPIOSafeguard dry) σ)) as Hrep.
  rewrite Ea in Hrep. cbn [snd] in Hrep.
  rewrite List.Forall_forall in Hev.
  split_and!.
  - apply Forall_app_2; [|repeat constructor].
    apply List.Forall_forall. intros e He. specialize (Hev e He).
    destruct e; try reflexivity. destruct Hev.
  - intros p. rewrite in_app_iff, Hrep. cbn [In]. split.
    + intros [H|[H|[]]]; [exact H|discriminate].
    + intros H. left. exact H.
  - intros p Hp.
    rewrite (access_check_gets env MONITORED_PINS NoDup_MONITORED_PINS _ _ _ _ _ Ea p Hp).
    reflexivity.
  - intros Hin. apply in_app_or in Hin as [Hin|[Hin|[]]]; [|discriminate].
    exact (Hev _ Hin).
Qed.

Lemma access_check_reports_every_unreadable_pin_witness :
  exists σ' out,
    main env_unreadable2 false 30 3 (start false) = (Exc (SystemExit 1), σ', out) /\
    self σ' = new_GPIOSafeguard false /\
    no_writes out /\
    (forall p, In (EvLog ERROR (CannotAccess p)) out <->
               In p MONITORED_PINS /\ next_read env_unreadable2 (start false) p = None) /\
    (forall p, In p MONITORED_PINS ->
               gets (world σ') p = S (gets (world (start false)) p)) /\
    ~ In (EvLog INFO (Starting false)) out.
Proof.
  apply (access_check_reports_every_unreadable_pin env_unreadable2 false 30 3 (start false)).
  exists 2. split; [cbn; tauto|vm_compute; reflexivity].
Defined.
